(** * A CSP solver: AC-3 propagation and backtracking search

    Shallow embedding of [oving3/solution.py] (class [CSP]) and the
    properties of its specification.

    Python objects that are copied, aliased or mutated in place during the
    search (the domain lists and the assignment dictionaries) live in an
    explicit store and are named by references; every method of the class
    is a computation in a state-and-exception monad over that store. *)

From stdpp Require Import base numbers strings pretty list.

Set Default Proof Using "Type".
#[local] Set Warnings "-clear-no-such-hyp".

(** ** Outcomes *)

(** [KeyError] and [ValueError] are the Python exceptions the code can
    raise.  [BadRef] is a dangling reference (no Python run produces one)
    and [OutOfFuel] an exhausted step budget of a loop of the model. *)
Inductive error := KeyError | ValueError | BadRef | OutOfFuel.

Inductive Res (A : Type) :=
  | Ok (a : A)
  | Raise (e : error).
Arguments Ok {A} a.
Arguments Raise {A} e.

(** ** Insertion-ordered dictionaries

    A Python [dict] keeps its keys in insertion order, and the solver
    iterates over [self.constraints]; a dictionary is an association list
    in which [od_set] overwrites in place or appends. *)
Section OrderedDict.
Context {K V : Type} {K_eq_dec : EqDecision K}.

Fixpoint od_get (d : list (K * V)) (k : K) : option V :=
  match d with
  | [] => None
  | (k', v) :: d' => if decide (k = k') then Some v else od_get d' k
  end.

Fixpoint od_set (d : list (K * V)) (k : K) (v : V) : list (K * V) :=
  match d with
  | [] => [(k, v)]
  | (k', v') :: d' =>
      if decide (k = k') then (k, v) :: d' else (k', v') :: od_set d' k v
  end.

Definition od_keys (d : list (K * V)) : list K := d.*1.

Definition od_mem (d : list (K * V)) (k : K) : bool :=
  match od_get d k with Some _ => true | None => false end.
End OrderedDict.

(** [list.remove(x)]: drops the first item equal to [x]; [None] stands for
    the [ValueError] of an absent item. *)
Fixpoint list_remove_first {A} `{EqDecision A} (x : A) (l : list A)
  : option (list A) :=
  match l with
  | [] => None
  | y :: l' =>
      if decide (x = y) then Some l'
      else match list_remove_first x l' with
           | Some r => Some (y :: r)
           | None => None
           end
  end.

Abbreviation arc := (string * string)%type.

Section Solver.
Context {Val : Type} {Val_eq_dec : EqDecision Val}.

(** ** The store *)

(** [lists] holds the list objects (domains), [dicts] the dictionary
    objects that map variable names to list references; a reference is
    an index.  The two counters are the attributes
    [self.backtrack_counter] and [self.backtrack_failure_counter]. *)
Record State := mkState {
  lists : list (list Val);
  dicts : list (list (string * nat));
  backtrack_counter : nat;
  backtrack_failure_counter : nat
}.

Definition M (A : Type) : Type := State -> Res (A * State).

Definition ret {A} (a : A) : M A := fun s => Ok (a, s).

Definition bind {A B} (c : M A) (k : A -> M B) : M B :=
  fun s => match c s with
           | Ok (a, s') => k a s'
           | Raise e => Raise e
           end.

Definition raise {A} (e : error) : M A := fun _ => Raise e.

Definition from_option {A} (e : error) (o : option A) : M A :=
  match o with Some a => ret a | None => raise e end.

Definition from_res {A} (r : Res A) : M A :=
  match r with Ok a => ret a | Raise e => raise e end.

Definition with_lists (s : State) (ls : list (list Val)) : State :=
  mkState ls (dicts s) (backtrack_counter s) (backtrack_failure_counter s).

Definition with_dicts (s : State) (ds : list (list (string * nat))) : State :=
  mkState (lists s) ds (backtrack_counter s) (backtrack_failure_counter s).

Definition read_list (l : nat) : M (list Val) :=
  fun s => match lists s !! l with
           | Some xs => Ok (xs, s)
           | None => Raise BadRef
           end.

Definition write_list (l : nat) (xs : list Val) : M unit :=
  fun s => match lists s !! l with
           | Some _ => Ok (tt, with_lists s (<[l := xs]> (lists s)))
           | None => Raise BadRef
           end.

Definition alloc_list (xs : list Val) : M nat :=
  fun s => Ok (length (lists s), with_lists s (lists s ++ [xs])).

Definition read_dict (d : nat) : M (list (string * nat)) :=
  fun s => match dicts s !! d with
           | Some m => Ok (m, s)
           | None => Raise BadRef
           end.

Definition write_dict (d : nat) (m : list (string * nat)) : M unit :=
  fun s => match dicts s !! d with
           | Some _ => Ok (tt, with_dicts s (<[d := m]> (dicts s)))
           | None => Raise BadRef
           end.

Definition alloc_dict (m : list (string * nat)) : M nat :=
  fun s => Ok (length (dicts s), with_dicts s (dicts s ++ [m])).

Definition incr_backtrack_counter : M unit :=
  fun s => Ok (tt, mkState (lists s) (dicts s) (S (backtrack_counter s))
                           (backtrack_failure_counter s)).

Definition incr_backtrack_failure_counter : M unit :=
  fun s => Ok (tt, mkState (lists s) (dicts s) (backtrack_counter s)
                           (S (backtrack_failure_counter s))).
End Solver.

Arguments State : clear implicits.
Arguments M : clear implicits.

Notation "x <- c1 ;; c2" := (bind c1 (fun x => c2))
  (at level 20, c1 at level 99, c2 at level 200, only parsing).
Notation "' pat <- c1 ;; c2" := (bind c1 (fun x => match x with pat => c2 end))
  (at level 20, pat pattern, c1 at level 99, c2 at level 200, only parsing).
Notation "c1 ;; c2" := (bind c1 (fun _ => c2))
  (at level 100, c2 at level 200, only parsing, right associativity).

Section Engine.
Context {Val : Type} {Val_eq_dec : EqDecision Val}.

Local Abbreviation State := (State Val).
Local Abbreviation M := (M Val).

(** [d[k]] for a dictionary object [d]: the list bound to [k]. *)
Definition getitem (d : nat) (k : string) : M nat :=
  m <- read_dict d ;; from_option KeyError (od_get m k).

(** [d[k] = l]. *)
Definition setitem (d : nat) (k : string) (l : nat) : M unit :=
  m <- read_dict d ;; write_dict d (od_set m k l).

(** ** [copy.deepcopy] of a dictionary of lists

    Every list reachable from the dictionary is copied once into a fresh
    list object ([memo] maps an original to its copy, so two keys that
    share a list share the copy), and the result is a fresh dictionary.
    The values held in the lists are immutable and are not copied. *)
Fixpoint deepcopy_items (items : list (string * nat)) (memo : list (nat * nat))
  : M (list (string * nat)) :=
  match items with
  | [] => ret []
  | (k, l) :: rest =>
      match od_get memo l with
      | Some l' =>
          rest' <- deepcopy_items rest memo ;;
          ret ((k, l') :: rest')
      | None =>
          xs <- read_list l ;;
          l' <- alloc_list xs ;;
          rest' <- deepcopy_items rest ((l, l') :: memo) ;;
          ret ((k, l') :: rest')
      end
  end.

Definition deepcopy (d : nat) : M nat :=
  items <- read_dict d ;;
  items' <- deepcopy_items items [] ;;
  alloc_dict items'.

(** ** The constraint graph *)

(** [variables] and [constraints] are changed by the builder methods
    only; [domains] is a reference to the dictionary [self.domains]. *)
Record CSP := mkCSP {
  variables : list string;
  domains : nat;
  constraints : list (string * list (string * (Val -> Val -> bool)))
}.

Definition new_csp : M CSP :=
  d <- alloc_dict [] ;;
  (fun s => Ok (mkCSP [] d [], mkState (lists s) (dicts s) 0 0)).

Definition add_variable (csp : CSP) (name : string) (domain : list Val)
  : M CSP :=
  l <- alloc_list domain ;;
  setitem (domains csp) name l ;;
  ret (mkCSP (variables csp ++ [name]) (domains csp)
             (od_set (constraints csp) name [])).

Definition get_all_possible_pairs {A B} (a : list A) (b : list B)
  : list (A * B) :=
  x ← a; (x,.) <$> b.

Definition get_all_arcs (csp : CSP) : list arc :=
  e ← constraints csp; (e.1,.) <$> od_keys e.2.

Definition get_all_neighboring_arcs (csp : CSP) (var : string)
  : Res (list arc) :=
  match od_get (constraints csp) var with
  | Some cv => Ok ((fun i => (i, var)) <$> od_keys cv)
  | None => Raise KeyError
  end.

Definition add_constraint_one_way (csp : CSP) (i j : string)
    (constraint_function : Val -> Val -> bool) : Res CSP :=
  match od_get (constraints csp) i with
  | None => Raise KeyError
  | Some ci =>
      if od_mem ci j then Ok csp
      else Ok (mkCSP (variables csp) (domains csp)
                     (od_set (constraints csp) i
                             (od_set ci j constraint_function)))
  end.

(** [lambda x, y: x != y] *)
Definition not_equal (x y : Val) : bool := bool_decide (x ≠ y).

Fixpoint add_all_different_pairs (csp : CSP) (pairs : list arc) : Res CSP :=
  match pairs with
  | [] => Ok csp
  | (i, j) :: ps =>
      if decide (i = j) then add_all_different_pairs csp ps
      else match add_constraint_one_way csp i j not_equal with
           | Ok csp' => add_all_different_pairs csp' ps
           | Raise e => Raise e
           end
  end.

Definition add_all_different_constraint (csp : CSP) (var_list : list string)
  : Res CSP :=
  add_all_different_pairs csp (get_all_possible_pairs var_list var_list).

(** ** [revise] *)

(** [all(not self.constraints[i][j](x, y) for y in assignment[j])]: the
    constraint is looked up once per [y], hence not at all when
    [assignment[j]] is empty. *)
Definition unsupported (csp : CSP) (assignment : nat) (i j : string) (x : Val)
  : M bool :=
  lj <- getitem assignment j ;;
  ys <- read_list lj ;;
  match ys with
  | [] => ret true
  | _ :: _ =>
      ci <- from_option KeyError (od_get (constraints csp) i) ;;
      f <- from_option KeyError (od_get ci j) ;;
      ret (forallb (fun y => negb (f x y)) ys)
  end.

(** The loop [for x in assignment[i]] over the list object [li]: the
    iterator keeps an index [idx] into the list as it is at each step,
    so a removal shifts the items that follow under the iterator.  [n]
    bounds the number of iterations. *)
Fixpoint revise_loop (csp : CSP) (assignment : nat) (i j : string) (li : nat)
    (n idx : nat) (revised : bool) : M bool :=
  xs <- read_list li ;;
  match xs !! idx with
  | None => ret revised
  | Some x =>
      match n with
      | 0 => raise OutOfFuel
      | S n' =>
          u <- unsupported csp assignment i j x ;;
          if u then
            l <- getitem assignment i ;;
            ys <- read_list l ;;
            ys' <- from_option ValueError (list_remove_first x ys) ;;
            write_list l ys' ;;
            revise_loop csp assignment i j li n' (S idx) true
          else revise_loop csp assignment i j li n' (S idx) revised
      end
  end.

Definition revise (csp : CSP) (assignment : nat) (i j : string) : M bool :=
  li <- getitem assignment i ;;
  xs <- read_list li ;;
  revise_loop csp assignment i j li (length xs) 0 false.

(** ** [inference] (AC-3) *)

Definition requeue (j : string) (arcs : list arc) : list arc :=
  filter (fun k => k.1 ≠ j) arcs.

(** [queue.pop(0)] takes the head, [queue.append(k)] adds at the end. *)
Fixpoint inference_loop (csp : CSP) (assignment : nat) (fuel : nat)
    (queue : list arc) : M bool :=
  match queue with
  | [] => ret true
  | (i, j) :: rest =>
      match fuel with
      | 0 => raise OutOfFuel
      | S fuel' =>
          revised <- revise csp assignment i j ;;
          if revised then
            li <- getitem assignment i ;;
            xs <- read_list li ;;
            match xs with
            | [] => ret false
            | _ :: _ =>
                arcs <- from_res (get_all_neighboring_arcs csp i) ;;
                inference_loop csp assignment fuel' (rest ++ requeue j arcs)
            end
          else inference_loop csp assignment fuel' rest
      end
  end.

Definition total_size (ls : list (list Val)) : nat :=
  sum_list (length <$> ls).

Definition max_degree (csp : CSP) : nat :=
  max_list ((fun e => length e.2) <$> constraints csp).

(** Every iteration pops one arc, and arcs are only added after a
    removal, at most [max_degree] at a time. *)
Definition inference_fuel (csp : CSP) (queue : list arc) (s : State) : nat :=
  length queue + total_size (lists s) * max_degree csp.

Definition inference (csp : CSP) (assignment : nat) (queue : list arc)
  : M bool :=
  fun s => inference_loop csp assignment (inference_fuel csp queue s) queue s.

(** ** Variable selection *)

(** [[var for var in self.variables if len(assignment[var]) > 1]] *)
Fixpoint unassigned_vars (assignment : nat) (vars : list string)
  : M (list string) :=
  match vars with
  | [] => ret []
  | var :: vars' =>
      l <- getitem assignment var ;;
      xs <- read_list l ;;
      rest <- unassigned_vars assignment vars' ;;
      ret (if decide (1 < length xs) then var :: rest else rest)
  end.

(** The keys [len(assignment[var])] that [min] computes, in order. *)
Fixpoint keyed (assignment : nat) (vars : list string)
  : M (list (string * nat)) :=
  match vars with
  | [] => ret []
  | var :: vars' =>
      l <- getitem assignment var ;;
      xs <- read_list l ;;
      rest <- keyed assignment vars' ;;
      ret ((var, length xs) :: rest)
  end.

(** [min] keeps the first item whose key is smallest: the candidate is
    replaced only by a strictly smaller key. *)
Fixpoint min_by_key (best : string) (kbest : nat) (rest : list (string * nat))
  : string :=
  match rest with
  | [] => best
  | (v, k) :: rest' =>
      if decide (k < kbest) then min_by_key v k rest'
      else min_by_key best kbest rest'
  end.

Definition select_unassigned_variable (csp : CSP) (assignment : nat)
  : M string :=
  us <- unassigned_vars assignment (variables csp) ;;
  ks <- keyed assignment us ;;
  match ks with
  | [] => raise ValueError
  | (v, k) :: rest => ret (min_by_key v k rest)
  end.

(** ** [backtrack] *)

(** [all(len(assignment[var]) == 1 for var in self.variables)] stops at
    the first variable whose list has another length. *)
Fixpoint all_assigned (assignment : nat) (vars : list string) : M bool :=
  match vars with
  | [] => ret true
  | var :: vars' =>
      l <- getitem assignment var ;;
      xs <- read_list l ;;
      if decide (length xs = 1) then all_assigned assignment vars'
      else ret false
  end.

(** One iteration of the value loop up to the recursive call: copy the
    assignment, collapse [var] to [[value]] in the copy and propagate
    from the arcs of [var].  Returns the copy and the verdict of
    [inference]. *)
Definition branch (csp : CSP) (assignment : nat) (var : string) (value : Val)
  : M (nat * bool) :=
  new_assignment <- deepcopy assignment ;;
  l <- alloc_list [value] ;;
  setitem new_assignment var l ;;
  arcs <- from_res (get_all_neighboring_arcs csp var) ;;
  ok <- inference csp new_assignment arcs ;;
  ret (new_assignment, ok).

(** The body of the value loop: the branch and, when [inference] accepted
    it, the recursive call [recurse] on the copy; [None] when the value
    failed. *)
Definition attempt (recurse : nat -> M (option nat)) (csp : CSP)
    (assignment : nat) (var : string) (value : Val) : M (option nat) :=
  '(new_assignment, ok) <- branch csp assignment var value ;;
  if ok then recurse new_assignment else ret None.

(** [for value in assignment[var]]: the loop walks the list object [lv] by
    index, [n] bounding its iterations; it returns the first result that
    is not [None], and counts a failure when the values are used up. *)
Fixpoint value_loop (try : Val -> M (option nat)) (lv : nat) (n idx : nat)
  : M (option nat) :=
  cur <- read_list lv ;;
  match cur !! idx with
  | None => incr_backtrack_failure_counter ;; ret None
  | Some value =>
      match n with
      | 0 => raise OutOfFuel
      | S n' =>
          result <- try value ;;
          match result with
          | Some r => ret (Some r)
          | None => value_loop try lv n' (S idx)
          end
      end
  end.

(** [fuel] bounds the depth of the recursion.  The result is the
    reference of the returned assignment, or [None]. *)
Fixpoint backtrack_rec (csp : CSP) (fuel : nat) (assignment : nat)
  : M (option nat) :=
  match fuel with
  | 0 => raise OutOfFuel
  | S fuel' =>
      incr_backtrack_counter ;;
      complete <- all_assigned assignment (variables csp) ;;
      if complete then ret (Some assignment)
      else
        var <- select_unassigned_variable csp assignment ;;
        lv <- getitem assignment var ;;
        vs <- read_list lv ;;
        value_loop (attempt (backtrack_rec csp fuel') csp assignment var)
                   lv (length vs) 0
  end.

(** Every level of the recursion decides one more variable. *)
Definition backtrack (csp : CSP) (assignment : nat) : M (option nat) :=
  backtrack_rec csp (S (length (variables csp))) assignment.

Definition backtracking_search (csp : CSP) : M (option nat) :=
  assignment <- deepcopy (domains csp) ;;
  inference csp assignment (get_all_arcs csp) ;;
  backtrack csp assignment.

(** ** Reading an assignment and the graph *)

(** The list of values that [assignment[var]] denotes in a state. *)
Definition domain_of (s : State) (assignment : nat) (var : string)
  : option (list Val) :=
  m ← dicts s !! assignment; l ← od_get m var; lists s !! l.

(** [len(assignment[var])], and 0 where [assignment[var]] is undefined. *)
Definition domain_len (s : State) (assignment : nat) (var : string) : nat :=
  match domain_of s assignment var with
  | Some xs => length xs
  | None => 0
  end.

(** The predicate registered for the arc [(i, j)], if any. *)
Definition constraint_of (csp : CSP) (i j : string)
  : option (Val -> Val -> bool) :=
  ci ← od_get (constraints csp) i; od_get ci j.

(** ** Store relations used in the statements *)

(** The list [l] is the value of some key of the dictionary [a]. *)
Definition bound_in (s : State) (a l : nat) : Prop :=
  ∃ m k, dicts s !! a = Some m ∧ od_get m k = Some l.

(** [engine_step a s s']: from [s] to [s'] no object was created, no
    dictionary and no counter changed, every list kept a sub-sequence
    of its items, and only lists held by the assignment [a] changed. *)
Definition engine_step (a : nat) (s s' : State) : Prop :=
  dicts s' = dicts s ∧
  backtrack_counter s' = backtrack_counter s ∧
  backtrack_failure_counter s' = backtrack_failure_counter s ∧
  Forall2 sublist (lists s') (lists s) ∧
  ∀ l, bound_in s a l ∨ lists s' !! l = lists s !! l.

(** [extends s s']: every object of [s] is in [s'] exactly as it was;
    [s'] may hold more objects. *)
Definition extends (s s' : State) : Prop :=
  (∀ l xs, lists s !! l = Some xs → lists s' !! l = Some xs) ∧
  (∀ d m, dicts s !! d = Some m → dicts s' !! d = Some m).

(** Every domain that the assignment [a'] has in [s'] is a sub-sequence,
    and so a subset, of the domain that [a] has for the same variable in
    [s]. *)
Definition domains_shrink (s : State) (a : nat) (s' : State) (a' : nat)
  : Prop :=
  ∀ v xs', domain_of s' a' v = Some xs' →
           ∃ xs, domain_of s a v = Some xs ∧ xs' `sublist_of` xs ∧ xs' ⊆ xs.

(** The arc [(i, j)] is consistent: its constraint is registered and every
    value of [i] has a value of [j] that the constraint accepts. *)
Definition arc_consistent (csp : CSP) (s : State) (a : nat) (k : arc) : Prop :=
  ∃ xs ys f,
    domain_of s a k.1 = Some xs ∧ domain_of s a k.2 = Some ys ∧
    constraint_of csp k.1 k.2 = Some f ∧
    ∀ x, x ∈ xs → ∃ y, y ∈ ys ∧ f x y = true.

(** [i] is a key of [self.constraints]: the variable was added. *)
Definition registered (csp : CSP) (i : string) : Prop :=
  is_Some (od_get (constraints csp) i).

(** The keys of [self.constraints] and of each of its dictionaries are
    distinct, as the keys of a Python dictionary are. *)
Definition wf_constraints (csp : CSP) : Prop :=
  NoDup (od_keys (constraints csp)) ∧
  Forall (fun e => NoDup (od_keys e.2)) (constraints csp).

(** The computation [c] never exhausts a step budget of the model. *)
Definition fuel_safe {A} (c : M A) : Prop := ∀ s, c s ≠ Raise OutOfFuel.

(** The number of variables (counted as registered) that [a] has not
    decided: the measure that bounds the depth of the search. *)
Definition undecided (csp : CSP) (s : State) (a : nat) : nat :=
  length (filter (fun v => 1 < domain_len s a v) (variables csp)).

(** What [memo] records while a dictionary is being copied: the copy of a
    list holds the same items, and lies at or above [L0]. *)
Definition memo_ok (L0 : nat) (s : State) (memo : list (nat * nat)) : Prop :=
  ∀ l l', od_get memo l = Some l' →
          L0 ≤ l' ∧ ∃ xs, lists s !! l = Some xs ∧ lists s !! l' = Some xs.

(** The assignment [a] is a dictionary all of whose lists exist. *)
Definition valid_assignment (s : State) (a : nat) : Prop :=
  ∃ m, dicts s !! a = Some m ∧
       ∀ k l, od_get m k = Some l → l < length (lists s).

End Engine.

Arguments CSP : clear implicits.

(** The arc [k] joins two distinct variables of [vs]. *)
Definition among (vs : list string) (k : arc) : Prop :=
  k.1 ∈ vs ∧ k.2 ∈ vs ∧ k.1 ≠ k.2.

#[global] Instance among_dec vs k : Decision (among vs k).
Proof. unfold among. apply _. Defined.

(** ** Concrete graphs

    Each graph is given as the builder calls of the class and as the
    record and store these calls produce. *)

Definition empty_state : State Z := mkState [] [] 0 0.

(** [A < B] with [A] in [[3, 4, 1]] and [B] in [[2, 3]], registered in
    both directions ([lambda x, y: x < y] and [lambda x, y: x > y]). *)
Definition build_less_than : M Z (CSP Z) :=
  csp <- new_csp ;;
  csp <- add_variable csp "A" [3; 4; 1]%Z ;;
  csp <- add_variable csp "B" [2; 3]%Z ;;
  csp <- from_res (add_constraint_one_way csp "A" "B" Z.ltb) ;;
  from_res (add_constraint_one_way csp "B" "A" Z.gtb).

Definition less_than_csp : CSP Z :=
  mkCSP ["A"; "B"] 0 [("A", [("B", Z.ltb)]); ("B", [("A", Z.gtb)])].

Definition less_than_state : State Z :=
  mkState [[3; 4; 1]; [2; 3]]%Z [[("A", 0); ("B", 1)]] 0 0.

(** Two variables with the single value 1 that must differ. *)
Definition build_same_value : M Z (CSP Z) :=
  csp <- new_csp ;;
  csp <- add_variable csp "A" [1]%Z ;;
  csp <- add_variable csp "B" [1]%Z ;;
  from_res (add_all_different_constraint csp ["A"; "B"]).

Definition same_value_csp : CSP Z :=
  mkCSP ["A"; "B"] 0 [("A", [("B", not_equal)]); ("B", [("A", not_equal)])].

Definition same_value_state : State Z :=
  mkState [[1]; [1]]%Z [[("A", 0); ("B", 1)]] 0 0.

(** [A != B] registered in the direction [A -> B] only. *)
Definition build_one_way : M Z (CSP Z) :=
  csp <- new_csp ;;
  csp <- add_variable csp "A" [1; 2]%Z ;;
  csp <- add_variable csp "B" [1; 2]%Z ;;
  from_res (add_constraint_one_way csp "A" "B" not_equal).

Definition one_way_csp : CSP Z :=
  mkCSP ["A"; "B"] 0 [("A", [("B", not_equal)]); ("B", [])].

Definition one_way_state : State Z :=
  mkState [[1; 2]; [1; 2]]%Z [[("A", 0); ("B", 1)]] 0 0.

(** Two predicates that are not each other's converse: [A -> B] accepts
    [y == 2], [B -> A] accepts [x == 1] (for [x] the value of [B]). *)
Definition build_not_converse : M Z (CSP Z) :=
  csp <- new_csp ;;
  csp <- add_variable csp "A" [1]%Z ;;
  csp <- add_variable csp "B" [1; 2]%Z ;;
  csp <- from_res (add_constraint_one_way csp "A" "B" (fun x y => Z.eqb y 2)) ;;
  from_res (add_constraint_one_way csp "B" "A" (fun x y => Z.eqb x 1)).

Definition not_converse_csp : CSP Z :=
  mkCSP ["A"; "B"] 0
        [("A", [("B", fun x y => Z.eqb y 2)]);
         ("B", [("A", fun x y => Z.eqb x 1)])].

Definition not_converse_state : State Z :=
  mkState [[1]; [1; 2]]%Z [[("A", 0); ("B", 1)]] 0 0.

(** [A != B] in both directions, [A] in [[1, 2]] and [B] in [[1]]. *)
Definition build_pair : M Z (CSP Z) :=
  csp <- new_csp ;;
  csp <- add_variable csp "A" [1; 2]%Z ;;
  csp <- add_variable csp "B" [1]%Z ;;
  from_res (add_all_different_constraint csp ["A"; "B"]).

Definition pair_csp : CSP Z :=
  mkCSP ["A"; "B"] 0 [("A", [("B", not_equal)]); ("B", [("A", not_equal)])].

Definition pair_state : State Z :=
  mkState [[1; 2]; [1]]%Z [[("A", 0); ("B", 1)]] 0 0.

(** Three variables without constraints, two of them with two values. *)
Definition build_three : M Z (CSP Z) :=
  csp <- new_csp ;;
  csp <- add_variable csp "A" [1; 2; 3]%Z ;;
  csp <- add_variable csp "B" [1; 2]%Z ;;
  add_variable csp "C" [5; 6]%Z.

Definition three_csp : CSP Z :=
  mkCSP ["A"; "B"; "C"] 0 [("A", []); ("B", []); ("C", [])].

Definition three_state : State Z :=
  mkState [[1; 2; 3]; [1; 2]; [5; 6]]%Z [[("A", 0); ("B", 1); ("C", 2)]] 0 0.

(** [A -> B] registered with [lambda x, y: True] before the variables are
    made all different. *)
Definition accept_all (x y : Z) : bool := true.

Definition two_variables : CSP Z :=
  mkCSP ["A"; "B"] 0 [("A", []); ("B", [])].

Definition build_registered_twice : Res (CSP Z) :=
  match add_constraint_one_way two_variables "A" "B" accept_all with
  | Ok csp => add_all_different_constraint csp ["A"; "B"]
  | Raise e => Raise e
  end.

(** ** Stores reached in the examples *)

(** After [revise(assignment, "A", "B")] on [less_than_state]. *)
Definition less_than_revised : State Z :=
  mkState [[4; 1]; [2; 3]]%Z [[("A", 0); ("B", 1)]] 0 0.

(** After [backtracking_search()] on [less_than_state]; the returned
    assignment is the dictionary 2. *)
Definition less_than_searched : State Z :=
  mkState [[3; 4; 1]; [2; 3]; [4; 1]; [2; 3]; [4; 1]; [3]; [4]]%Z
          [[("A", 0); ("B", 1)]; [("A", 2); ("B", 3)]; [("A", 6); ("B", 5)]]
          2 0.

(** After the failed attempt of the value 1 for ["A"] on
    [same_value_state]. *)
Definition same_value_failed : State Z :=
  mkState [[1]; [1]; [1]; []; [1]]%Z
          [[("A", 0); ("B", 1)]; [("A", 4); ("B", 3)]] 0 0.

(** After a first and after a second run of [inference] over all arcs on
    [not_converse_state]. *)
Definition not_converse_once : State Z :=
  mkState [[1]; [1]]%Z [[("A", 0); ("B", 1)]] 0 0.

Definition not_converse_twice : State Z :=
  mkState [[]; [1]]%Z [[("A", 0); ("B", 1)]] 0 0.

(** After [revise(assignment, "A", "B")], after the branch [A = 2] and
    after [backtrack] on [pair_state]. *)
Definition pair_revised : State Z :=
  mkState [[2]; [1]]%Z [[("A", 0); ("B", 1)]] 0 0.

Definition pair_branched : State Z :=
  mkState [[1; 2]; [1]; [1; 2]; [1]; [2]]%Z
          [[("A", 0); ("B", 1)]; [("A", 4); ("B", 3)]] 0 0.

Definition pair_searched : State Z :=
  mkState [[1; 2]; [1]; [1; 2]; []; [1]; [1; 2]; [1]; [2]]%Z
          [[("A", 0); ("B", 1)]; [("A", 4); ("B", 3)]; [("A", 7); ("B", 6)]]
          2 0.

(** After [backtracking_search()] on [pair_state]; the returned
    assignment is the dictionary 1. *)
Definition pair_found : State Z :=
  mkState [[1; 2]; [1]; [2]; [1]]%Z
          [[("A", 0); ("B", 1)]; [("A", 2); ("B", 3)]] 1 0.

(** The solution of [pair_csp]: [A = 2] and [B = 1]. *)
Definition pair_solution (v : string) : Z :=
  if decide (v = "A") then 2%Z else 1%Z.

(** The graph that [build_registered_twice] returns. *)
Definition registered_twice_csp : CSP Z :=
  mkCSP ["A"; "B"] 0 [("A", [("B", accept_all)]); ("B", [("A", not_equal)])].

(** ** The rest of the class and the graphs of the file *)

Section Accessors.
Context {Val : Type} {Val_eq_dec : EqDecision Val}.

Definition get_backtrack_counter : M Val nat :=
  fun s => Ok (backtrack_counter s, s).

Definition get_backtrack_failure_counter : M Val nat :=
  fun s => Ok (backtrack_failure_counter s, s).

(** Every registered arc has its reverse registered. *)
Definition symmetric (csp : CSP Val) : Prop :=
  ∀ i j, is_Some (constraint_of csp i j) → is_Some (constraint_of csp j i).

(** The assignment [a] has a domain for both ends of every registered
    arc. *)
Definition covered (csp : CSP Val) (s : State Val) (a : nat) : Prop :=
  ∀ i j, is_Some (constraint_of csp i j) →
         is_Some (domain_of s a i) ∧ is_Some (domain_of s a j).


(** The run ended, with a value or with an exception: no loop of the
    model ran out of its step budget. *)
Definition ended {A} (r : Res A) : Prop :=
  match r with
  | Raise OutOfFuel => False
  | _ => True
  end.

(** No two keys of the assignment [a] hold the same list object, as in
    every assignment made from domains that [add_variable] stored. *)
Definition separate (s : State Val) (a : nat) : Prop :=
  ∃ m, dicts s !! a = Some m ∧
       ∀ k1 k2 l, od_get m k1 = Some l → od_get m k2 = Some l → k1 = k2.

(** [σ] gives every variable a value, and every registered predicate
    accepts the values of its two variables. *)
Definition solution (csp : CSP Val) (σ : string → Val) : Prop :=
  ∀ i j f, constraint_of csp i j = Some f → f (σ i) (σ j) = true.

(** The value that [σ] gives a variable is among the values that the
    assignment [a] holds for it. *)
Definition within (σ : string → Val) (s : State Val) (a : nat) : Prop :=
  ∀ v xs, domain_of s a v = Some xs → σ v ∈ xs.

(** Every entry of the dictionary [a] holds a list that exists. *)
Definition sound (s : State Val) (a : nat) : Prop :=
  ∃ m, dicts s !! a = Some m ∧ Forall (fun e => e.2 < length (lists s)) m.

(** No domain of the assignment [a] is empty. *)
Definition nonempty (s : State Val) (a : nat) : Prop :=
  ∀ v xs, domain_of s a v = Some xs → xs ≠ [].

(** The run returned; or, where [value_error] allows it, raised
    [ValueError].  It raised nothing else. *)
Definition tolerable {A} (value_error : bool) (r : Res A) : Prop :=
  match r with
  | Ok _ => True
  | Raise ValueError => value_error = true
  | Raise _ => False
  end.

(** In the assignment [r], every registered predicate accepts the values
    of its two variables, where both have exactly one. *)
Definition satisfies (csp : CSP Val) (s : State Val) (r : nat) : Prop :=
  ∀ i j f x y,
    constraint_of csp i j = Some f →
    domain_of s r i = Some [x] → domain_of s r j = Some [y] → f x y = true.

(** [revise(assignment, i, j)] looks up a key that is not there:
    [assignment] has no [i]; or [i] has values and [assignment] has no [j];
    or both have values and no constraint is registered for the arc. *)
Definition missing_key (csp : CSP Val) (s : State Val) (a : nat)
    (i j : string) : Prop :=
  domain_of s a i = None ∨
  (domain_of s a i ≠ Some [] ∧
   (domain_of s a j = None ∨
    (domain_of s a j ≠ Some [] ∧ constraint_of csp i j = None))).

(** [for state in states: csp.add_variable(state, domain)] *)
Fixpoint add_variables (csp : CSP Val) (names : list string)
    (domain : list Val) : M Val (CSP Val) :=
  match names with
  | [] => ret csp
  | name :: names' =>
      csp' <- add_variable csp name domain ;;
      add_variables csp' names' domain
  end.

(** The inner loop of [create_map_coloring_csp]: both directions of the
    edge between [state] and each of [other_states], with
    [lambda i, j: i != j]. *)
Fixpoint add_edges_of (csp : CSP Val) (state : string)
    (other_states : list string) : Res (CSP Val) :=
  match other_states with
  | [] => Ok csp
  | other_state :: rest =>
      match add_constraint_one_way csp state other_state not_equal with
      | Raise e => Raise e
      | Ok csp1 =>
          match add_constraint_one_way csp1 other_state state not_equal with
          | Raise e => Raise e
          | Ok csp2 => add_edges_of csp2 state rest
          end
      end
  end.

(** [for state, other_states in edges.items(): ...] *)
Fixpoint add_edges (csp : CSP Val) (edges : list (string * list string))
  : Res (CSP Val) :=
  match edges with
  | [] => Ok csp
  | (state, other_states) :: rest =>
      match add_edges_of csp state other_states with
      | Raise e => Raise e
      | Ok csp' => add_edges csp' rest
      end
  end.
End Accessors.

Definition create_map_coloring_csp : M string (CSP string) :=
  csp <- new_csp ;;
  csp <- add_variables csp ["WA"; "NT"; "Q"; "NSW"; "V"; "SA"; "T"]
                       ["red"; "green"; "blue"] ;;
  from_res (add_edges csp [("SA", ["WA"; "NT"; "Q"; "NSW"; "V"]);
                           ("NT", ["WA"; "Q"]);
                           ("NSW", ["Q"; "V"])]).

(** ** [create_sudoku_csp]

    Reading the file is outside the model: [board] is the list of the
    stripped lines of the file.  The values of the domains are the
    one-character strings of the board. *)

(** ['%d-%d' % (row, col)] *)
Definition cell_name (row col : nat) : string :=
  pretty row +:+ "-" +:+ pretty col.

(** [board[row][col]]; [None] stands for the [IndexError] of a line or
    of a character that is not there. *)
Definition board_cell (board : list string) (row col : nat) : option string :=
  line ← board !! row;
  c ← String.get col line;
  Some (String c EmptyString).

(** [list(map(str, range(1, 10)))] *)
Definition sudoku_digits : list string := pretty <$> seq 1 9.

(** The first loop: a variable for each cell, row by row.  The result is
    [None] when the board has no character for a cell. *)
Fixpoint add_cells (csp : CSP string) (board : list string)
    (cells : list (nat * nat)) : M string (option (CSP string)) :=
  match cells with
  | [] => ret (Some csp)
  | (row, col) :: rest =>
      match board_cell board row col with
      | None => ret None
      | Some ch =>
          csp' <- add_variable csp (cell_name row col)
                    (if decide (ch = "0") then sudoku_digits else [ch]) ;;
          add_cells csp' board rest
      end
  end.

Definition sudoku_cells : list (nat * nat) :=
  get_all_possible_pairs (seq 0 9) (seq 0 9).

Definition sudoku_rows : list (list string) :=
  (fun row => (fun col => cell_name row col) <$> seq 0 9) <$> seq 0 9.

Definition sudoku_columns : list (list string) :=
  (fun col => (fun row => cell_name row col) <$> seq 0 9) <$> seq 0 9.

Definition sudoku_boxes : list (list string) :=
  (fun b : nat * nat =>
     (fun p : nat * nat => cell_name p.1 p.2) <$>
       get_all_possible_pairs (seq (b.1 * 3) 3) (seq (b.2 * 3) 3)) <$>
    get_all_possible_pairs (seq 0 3) (seq 0 3).

Fixpoint add_all_different_constraints {Val : Type} `{EqDecision Val}
    (csp : CSP Val) (groups : list (list string)) : Res (CSP Val) :=
  match groups with
  | [] => Ok csp
  | cells :: rest =>
      match add_all_different_constraint csp cells with
      | Ok csp' => add_all_different_constraints csp' rest
      | Raise e => Raise e
      end
  end.

Definition create_sudoku_csp (board : list string)
  : M string (option (CSP string)) :=
  csp <- new_csp ;;
  r <- add_cells csp board sudoku_cells ;;
  match r with
  | None => ret None
  | Some csp =>
      csp <- from_res (add_all_different_constraints csp
                         (sudoku_rows ++ sudoku_columns ++ sudoku_boxes)) ;;
      ret (Some csp)
  end.

(** Two different cells in the same row, column or box. *)
Definition peers (p q : nat * nat) : Prop :=
  p ≠ q ∧ (p.1 = q.1 ∨ p.2 = q.2 ∨
           (p.1 `div` 3 = q.1 `div` 3 ∧ p.2 `div` 3 = q.2 `div` 3)).

(** The constraints that [create_sudoku_csp] registers, in a graph whose
    [self.domains] is the dictionary 0. *)
Definition sudoku_unconstrained : CSP string :=
  mkCSP ((fun p : nat * nat => cell_name p.1 p.2) <$> sudoku_cells) 0
        ((fun p : nat * nat => (cell_name p.1 p.2, [])) <$> sudoku_cells).

Definition built {Val : Type} (r : Res (CSP Val)) : CSP Val :=
  match r with
  | Ok csp => csp
  | Raise _ => mkCSP [] 0 []
  end.

Definition sudoku_graph : CSP string :=
  built (add_all_different_constraints sudoku_unconstrained
           (sudoku_rows ++ sudoku_columns ++ sudoku_boxes)).

(** The same graph with another dictionary for [self.domains]. *)
Definition with_domains {Val : Type} (d : nat) (csp : CSP Val) : CSP Val :=
  mkCSP (variables csp) d (constraints csp).

#[global] Instance peers_dec p q : Decision (peers p q).
Proof. unfold peers. apply _. Defined.

(** The graph after [add_variable] for each of [names], whatever the
    domains. *)
Definition add_names {Val : Type} (csp : CSP Val) (names : list string)
  : CSP Val :=
  mkCSP (variables csp ++ names) (domains csp)
        (foldl (fun cs name => od_set cs name []) (constraints csp) names).

(** The domain that [create_sudoku_csp] gives the cell [p]. *)
Definition cell_domain (board : list string) (p : nat * nat) : list string :=
  match board_cell board p.1 p.2 with
  | Some ch => if decide (ch = "0") then sudoku_digits else [ch]
  | None => []
  end.

(** Every cell of the board has a character. *)
Definition complete (board : list string) : Prop :=
  Forall (fun p : nat * nat => is_Some (board_cell board p.1 p.2)) sudoku_cells.

(** The cell that has the name [v], and the character that a board has
    for it. *)
Definition cell_of_name (v : string) : option (nat * nat) :=
  snd <$> list_find (fun p : nat * nat => cell_name p.1 p.2 = v) sudoku_cells.

Definition board_values (board : list string) (v : string) : string :=
  default "" (p ← cell_of_name v; board_cell board p.1 p.2).

(** A puzzle and its solution. *)
Definition example_puzzle : list string :=
  ["530070000"; "600195000"; "098000060"; "800060003"; "400803001";
   "700020006"; "060000280"; "000419005"; "000080079"].

Definition example_solved : list string :=
  ["534678912"; "672195348"; "198342567"; "859761423"; "426853791";
   "713924856"; "961537284"; "287419635"; "345286179"].

(** The graph and the store that [create_map_coloring_csp] builds in an
    empty store. *)
Definition map_coloring_csp : CSP string :=
  mkCSP ["WA"; "NT"; "Q"; "NSW"; "V"; "SA"; "T"] 0
        [("WA", [("SA", not_equal); ("NT", not_equal)]);
         ("NT", [("SA", not_equal); ("WA", not_equal); ("Q", not_equal)]);
         ("Q", [("SA", not_equal); ("NT", not_equal); ("NSW", not_equal)]);
         ("NSW", [("SA", not_equal); ("Q", not_equal); ("V", not_equal)]);
         ("V", [("SA", not_equal); ("NSW", not_equal)]);
         ("SA", [("WA", not_equal); ("NT", not_equal); ("Q", not_equal);
                 ("NSW", not_equal); ("V", not_equal)]);
         ("T", [])].

Definition map_coloring_state : State string :=
  mkState (replicate 7 ["red"; "green"; "blue"])
          [[("WA", 0); ("NT", 1); ("Q", 2); ("NSW", 3); ("V", 4); ("SA", 5);
            ("T", 6)]] 0 0.

(** * Reasoning principles *)

(** ** Dictionaries and lists *)

Section OrderedDictFacts.
Context {K V : Type} {K_eq_dec : EqDecision K}.
Implicit Types (d : list (K * V)) (k : K) (v : V).

Lemma od_get_set_eq d k v : od_get (od_set d k v) k = Some v.
Proof.
  induction d as [|[k' v'] d IH]; simpl.
  - by rewrite decide_True.
  - destruct (decide (k = k')) as [->|Hne]; simpl.
    + by rewrite decide_True.
    + by rewrite decide_False.
Qed.

Lemma od_get_set_ne d k k' v : k ≠ k' → od_get (od_set d k v) k' = od_get d k'.
Proof.
  intros Hne. induction d as [|[k0 v0] d IH]; simpl.
  - by rewrite decide_False.
  - destruct (decide (k = k0)) as [->|Hne0]; simpl.
    + by rewrite !(decide_False (P := k' = k0)).
    + destruct (decide (k' = k0)); [done | apply IH].
Qed.

Lemma od_get_Some_elem d k v : od_get d k = Some v → (k, v) ∈ d.
Proof.
  induction d as [|[k' v'] d IH]; simpl; [done|].
  destruct (decide (k = k')) as [->|Hne].
  - intros [= ->]. apply list_elem_of_here.
  - intros Hd. apply list_elem_of_further, IH, Hd.
Qed.

Lemma od_get_None_keys d k : od_get d k = None ↔ k ∉ od_keys d.
Proof.
  unfold od_keys. induction d as [|[k' v'] d IH]; simpl.
  - split; [intros _; apply not_elem_of_nil | done].
  - rewrite not_elem_of_cons. destruct (decide (k = k')) as [->|Hne].
    + split; [done | intros [Hk _]; done].
    + rewrite IH. tauto.
Qed.

Lemma od_get_is_Some_keys d k : is_Some (od_get d k) ↔ k ∈ od_keys d.
Proof.
  destruct (od_get d k) eqn:Hd.
  - split; [intros _ | by eauto].
    destruct (decide (k ∈ od_keys d)) as [|Hn]; [done|].
    apply od_get_None_keys in Hn. congruence.
  - split; [by intros [? ?] | intros Hk].
    apply od_get_None_keys in Hd. done.
Qed.


Lemma od_keys_set_in d k v : k ∈ od_keys d → od_keys (od_set d k v) = od_keys d.
Proof.
  unfold od_keys. induction d as [|[k' v'] d IH]; simpl.
  - intros Hk. by apply elem_of_nil in Hk.
  - intros Hk. destruct (decide (k = k')) as [->|Hne]; simpl; [done|].
    apply elem_of_cons in Hk as [?|Hk]; [done|]. f_equal. by apply IH.
Qed.

Lemma od_keys_set_notin d k v :
  k ∉ od_keys d → od_keys (od_set d k v) = od_keys d ++ [k].
Proof.
  unfold od_keys. induction d as [|[k' v'] d IH]; simpl; [done|].
  intros Hk. apply not_elem_of_cons in Hk as [Hne Hk].
  rewrite decide_False by done. simpl. f_equal. by apply IH.
Qed.

End OrderedDictFacts.

Lemma list_remove_first_sublist {A} `{EqDecision A} (x : A) l l' :
  list_remove_first x l = Some l' → l' `sublist_of` l ∧ length l = S (length l').
Proof.
  revert l'. induction l as [|y l IH]; intros l'; simpl; [done|].
  destruct (decide (x = y)) as [->|Hne].
  - intros [= ->]. split; [by apply sublist_cons | done].
  - destruct (list_remove_first x l) as [r|] eqn:Hr; [|done].
    intros [= <-]. destruct (IH r eq_refl) as [Hs Hl].
    split; [by apply sublist_skip | simpl; lia].
Qed.


(** ** The monad *)

Section MonadFacts.
Context {Val : Type} {Val_eq_dec : EqDecision Val}.
Local Abbreviation State := (State Val).
Local Abbreviation M := (M Val).

Lemma bind_Ok {A B} (c : M A) (k : A → M B) s b s' :
  bind c k s = Ok (b, s') ↔ ∃ a s1, c s = Ok (a, s1) ∧ k a s1 = Ok (b, s').
Proof.
  unfold bind. destruct (c s) as [[a s1]|e]; split.
  - intros Hk. by exists a, s1.
  - by intros (a' & s1' & [= -> ->] & Hk).
  - done.
  - by intros (a' & s1' & [=] & _).
Qed.

Lemma bind_Raise {A B} (c : M A) (k : A → M B) s e :
  bind c k s = Raise e ↔
  c s = Raise e ∨ ∃ a s1, c s = Ok (a, s1) ∧ k a s1 = Raise e.
Proof.
  unfold bind. destruct (c s) as [[a s1]|e']; split.
  - intros Hk. right. by exists a, s1.
  - intros [[=]|(a' & s1' & [= -> ->] & Hk)]. done.
  - intros [= ->]. by left.
  - intros [[= ->]|(a' & s1' & [=] & _)]. done.
Qed.

Lemma bind_eq {A B} (c : M A) (k : A → M B) s a s1 :
  c s = Ok (a, s1) → bind c k s = k a s1.
Proof. unfold bind. by intros ->. Qed.

Lemma bind_ext_on {A B} (c : M A) (k1 k2 : A → M B) s :
  (∀ a s1, c s = Ok (a, s1) → k1 a s1 = k2 a s1) → bind c k1 s = bind c k2 s.
Proof. unfold bind. destruct (c s) as [[a s1]|e]; [|done]. intros Hk. by apply Hk. Qed.

Lemma bind_eq_raise {A B} (c : M A) (k : A → M B) s e :
  c s = Raise e → bind c k s = Raise e.
Proof. unfold bind. by intros ->. Qed.

Lemma ret_Ok {A} (a b : A) (s s' : State) :
  ret a s = Ok (b, s') ↔ b = a ∧ s' = s.
Proof. unfold ret. naive_solver. Qed.

Lemma from_option_Ok {A} e (o : option A) (s s' : State) a :
  from_option e o s = Ok (a, s') ↔ o = Some a ∧ s' = s.
Proof. destruct o; unfold from_option, ret, raise; naive_solver. Qed.

Lemma from_res_Ok {A} (r : Res A) (s s' : State) a :
  from_res r s = Ok (a, s') ↔ r = Ok a ∧ s' = s.
Proof. destruct r; unfold from_res, ret, raise; naive_solver. Qed.

Lemma read_list_Ok l xs (s s' : State) :
  read_list l s = Ok (xs, s') ↔ lists s !! l = Some xs ∧ s' = s.
Proof. unfold read_list. destruct (lists s !! l); naive_solver. Qed.

Lemma read_dict_Ok d m (s s' : State) :
  read_dict d s = Ok (m, s') ↔ dicts s !! d = Some m ∧ s' = s.
Proof. unfold read_dict. destruct (dicts s !! d); naive_solver. Qed.

Lemma write_list_Ok l xs u (s s' : State) :
  write_list l xs s = Ok (u, s') ↔
  is_Some (lists s !! l) ∧ s' = with_lists s (<[l := xs]> (lists s)).
Proof.
  unfold write_list. destruct (lists s !! l), u; split; naive_solver.
Qed.

Lemma write_dict_Ok d m u (s s' : State) :
  write_dict d m s = Ok (u, s') ↔
  is_Some (dicts s !! d) ∧ s' = with_dicts s (<[d := m]> (dicts s)).
Proof.
  unfold write_dict. destruct (dicts s !! d), u; split; naive_solver.
Qed.

Lemma alloc_list_Ok xs l (s s' : State) :
  alloc_list xs s = Ok (l, s') ↔
  l = length (lists s) ∧ s' = with_lists s (lists s ++ [xs]).
Proof. unfold alloc_list. naive_solver. Qed.

Lemma alloc_dict_Ok m d (s s' : State) :
  alloc_dict m s = Ok (d, s') ↔
  d = length (dicts s) ∧ s' = with_dicts s (dicts s ++ [m]).
Proof. unfold alloc_dict. naive_solver. Qed.

Lemma getitem_Ok d k l (s s' : State) :
  getitem d k s = Ok (l, s') ↔
  (∃ m, dicts s !! d = Some m ∧ od_get m k = Some l) ∧ s' = s.
Proof.
  unfold getitem. rewrite bind_Ok. split.
  - intros (m & s1 & Hr & Ho). apply read_dict_Ok in Hr as [Hd ->].
    apply from_option_Ok in Ho as [Ho ->]. eauto.
  - intros [(m & Hd & Ho) ->]. exists m, s. split.
    + by apply read_dict_Ok.
    + by apply from_option_Ok.
Qed.

Lemma setitem_Ok d k l u (s s' : State) :
  setitem d k l s = Ok (u, s') ↔
  ∃ m, dicts s !! d = Some m ∧
       s' = with_dicts s (<[d := od_set m k l]> (dicts s)).
Proof.
  unfold setitem. rewrite bind_Ok. split.
  - intros (m & s1 & Hr & Hw). apply read_dict_Ok in Hr as [Hd ->].
    apply write_dict_Ok in Hw as [_ ->]. eauto.
  - intros (m & Hd & ->). exists m, s. split.
    + by apply read_dict_Ok.
    + apply write_dict_Ok. eauto.
Qed.

(** Which exceptions the elementary operations can raise. *)
Lemma ret_Raise {A} (a : A) (s : State) e : ret a s ≠ Raise e.
Proof. done. Qed.

Lemma from_option_Raise {A} e (o : option A) (s : State) e' :
  from_option e o s = Raise e' → e' = e.
Proof. destruct o; unfold from_option, ret, raise; naive_solver. Qed.

Lemma read_list_Raise l (s : State) e : read_list l s = Raise e → e = BadRef.
Proof. unfold read_list. destruct (lists s !! l); naive_solver. Qed.

Lemma read_dict_Raise d (s : State) e : read_dict d s = Raise e → e = BadRef.
Proof. unfold read_dict. destruct (dicts s !! d); naive_solver. Qed.

Lemma write_list_Raise l xs (s : State) e :
  write_list l xs s = Raise e → e = BadRef.
Proof. unfold write_list. destruct (lists s !! l); naive_solver. Qed.

Lemma write_dict_Raise d m (s : State) e :
  write_dict d m s = Raise e → e = BadRef.
Proof. unfold write_dict. destruct (dicts s !! d); naive_solver. Qed.

Lemma getitem_Raise d k (s : State) e :
  getitem d k s = Raise e → e = BadRef ∨ e = KeyError.
Proof.
  unfold getitem. intros [He|(m & s1 & _ & He)]%bind_Raise.
  - left. by eapply read_dict_Raise.
  - right. by eapply from_option_Raise.
Qed.

Lemma setitem_Raise d k l (s : State) e :
  setitem d k l s = Raise e → e = BadRef.
Proof.
  unfold setitem. intros [He|(m & s1 & _ & He)]%bind_Raise.
  - by eapply read_dict_Raise.
  - by eapply write_dict_Raise.
Qed.
End MonadFacts.

(** Closes a goal whose hypothesis [H] says that an operation which cannot
    run out of fuel did. *)
Ltac no_fuel_error H :=
  exfalso;
  first
    [ apply from_option_Raise in H
    | apply read_list_Raise in H
    | apply read_dict_Raise in H
    | apply write_list_Raise in H
    | apply write_dict_Raise in H
    | apply getitem_Raise in H as [H|H]
    | apply setitem_Raise in H
    | apply ret_Raise in H ];
  first [ discriminate H | exact H ].

(** Decomposes a hypothesis stating that a monadic computation succeeded. *)
Ltac monad_inv H :=
  lazymatch type of H with
  | bind _ _ _ = Ok _ =>
      let a := fresh "a" in
      let s := fresh "s" in
      let H1 := fresh H in
      apply bind_Ok in H as (a & s & H1 & H); monad_inv H1; monad_inv H
  | ret _ _ = Ok _ =>
      apply ret_Ok in H as [? ?]; simplify_eq
  | raise _ _ = Ok _ => discriminate H
  | from_option _ _ _ = Ok _ =>
      apply from_option_Ok in H as [H ?]; simplify_eq
  | from_res _ _ = Ok _ =>
      apply from_res_Ok in H as [H ?]; simplify_eq
  | read_list _ _ = Ok _ =>
      apply read_list_Ok in H as [H ?]; simplify_eq
  | read_dict _ _ = Ok _ =>
      apply read_dict_Ok in H as [H ?]; simplify_eq
  | write_list _ _ _ = Ok _ =>
      apply write_list_Ok in H as [H ?]; simplify_eq
  | write_dict _ _ _ = Ok _ =>
      apply write_dict_Ok in H as [H ?]; simplify_eq
  | alloc_list _ _ = Ok _ =>
      apply alloc_list_Ok in H as [? ?]; simplify_eq
  | alloc_dict _ _ = Ok _ =>
      apply alloc_dict_Ok in H as [? ?]; simplify_eq
  | getitem _ _ _ = Ok _ =>
      let m := fresh "m" in
      let Hm := fresh H "d" in
      apply getitem_Ok in H as [(m & Hm & H) ?]; simplify_eq
  | setitem _ _ _ _ = Ok _ =>
      let m := fresh "m" in
      apply setitem_Ok in H as (m & H & ?); simplify_eq
  | _ => idtac
  end.

(** ** What a step of the engine may do to the store *)

Section EngineFacts.
Context {Val : Type} {Val_eq_dec : EqDecision Val}.
Local Abbreviation State := (State Val).
Local Abbreviation M := (M Val).
Implicit Types (s : State) (csp : CSP Val) (a l : nat).

Lemma Forall2_sublist_refl (ls : list (list Val)) : Forall2 sublist ls ls.
Proof. induction ls; constructor; done. Qed.

Lemma Forall2_sublist_trans (l1 l2 l3 : list (list Val)) :
  Forall2 sublist l1 l2 → Forall2 sublist l2 l3 → Forall2 sublist l1 l3.
Proof.
  intros H12. revert l3. induction H12 as [|x y l1 l2 Hxy _ IH]; intros l3 H23.
  - by inversion H23.
  - inversion H23 as [|? z ? l3' Hyz H23']; subst. constructor.
    + by etrans.
    + by apply IH.
Qed.

Lemma engine_step_refl a s : engine_step a s s.
Proof.
  repeat split; [apply Forall2_sublist_refl | by right].
Qed.

Lemma engine_step_trans a s1 s2 s3 :
  engine_step a s1 s2 → engine_step a s2 s3 → engine_step a s1 s3.
Proof.
  intros (Hd1 & Hc1 & Hf1 & Hs1 & Hb1) (Hd2 & Hc2 & Hf2 & Hs2 & Hb2).
  repeat split; try congruence.
  - by eapply Forall2_sublist_trans.
  - intros l. destruct (Hb1 l) as [Hl|Hl]; [by left|].
    destruct (Hb2 l) as [(m & k & Hm & Hk)|Hl2].
    + left. exists m, k. by rewrite <- Hd1.
    + right. congruence.
Qed.

Lemma engine_step_write a s l ys ys' :
  lists s !! l = Some ys → ys' `sublist_of` ys → bound_in s a l →
  engine_step a s (with_lists s (<[l := ys']> (lists s))).
Proof.
  intros Hl Hsub Hb. repeat split; simpl.
  - rewrite <- (list_insert_id (lists s) l ys) at 2 by done.
    apply Forall2_insert; [apply Forall2_sublist_refl | done].
  - intros l0. destruct (decide (l0 = l)) as [->|Hne]; [by left|].
    right. by apply list_lookup_insert_ne.
Qed.

Lemma total_size_mono (ls' ls : list (list Val)) :
  Forall2 sublist ls' ls → total_size ls' ≤ total_size ls.
Proof.
  unfold total_size. induction 1 as [|x y ls' ls Hxy _ IH]; csimpl; [done|].
  apply sublist_length in Hxy. lia.
Qed.

Lemma total_size_insert (ls : list (list Val)) l ys ys' :
  ls !! l = Some ys →
  total_size (<[l := ys']> ls) + length ys = total_size ls + length ys'.
Proof.
  unfold total_size. revert l. induction ls as [|zs ls IH]; intros [|l]; csimpl;
    try done.
  - intros [= ->]. lia.
  - intros Hl. specialize (IH l Hl). lia.
Qed.

Lemma engine_step_length a s s' :
  engine_step a s s' → length (lists s') = length (lists s).
Proof. intros (_ & _ & _ & Hs & _). by eapply Forall2_length. Qed.

Lemma engine_step_size a s s' :
  engine_step a s s' → total_size (lists s') ≤ total_size (lists s).
Proof. intros (_ & _ & _ & Hs & _). by apply total_size_mono. Qed.

Lemma engine_step_list a s s' l xs' :
  engine_step a s s' → lists s' !! l = Some xs' →
  ∃ xs, lists s !! l = Some xs ∧ xs' `sublist_of` xs.
Proof.
  intros (_ & _ & _ & Hs & _) Hl.
  destruct (Forall2_lookup_l _ _ _ _ _ Hs Hl) as (xs & Hxs & Hsub). eauto.
Qed.

Lemma engine_step_list_fwd a s s' l xs :
  engine_step a s s' → lists s !! l = Some xs →
  ∃ xs', lists s' !! l = Some xs' ∧ xs' `sublist_of` xs.
Proof.
  intros (_ & _ & _ & Hs & _) Hl.
  destruct (Forall2_lookup_r _ _ _ _ _ Hs Hl) as (xs' & Hxs & Hsub). eauto.
Qed.

Lemma engine_step_domain_of a s s' b v xs' :
  engine_step a s s' → domain_of s' b v = Some xs' →
  ∃ xs, domain_of s b v = Some xs ∧ xs' `sublist_of` xs.
Proof.
  intros Hstep. unfold domain_of. rewrite (proj1 Hstep).
  destruct (dicts s !! b) as [m|]; simpl; [|done].
  destruct (od_get m v) as [l|]; simpl; [|done].
  intros Hl. by eapply engine_step_list.
Qed.

Lemma engine_step_bound a s s' b l :
  engine_step a s s' → bound_in s' b l ↔ bound_in s b l.
Proof. intros (Hd & _). unfold bound_in. by rewrite Hd. Qed.
End EngineFacts.

(** ** [revise] *)

Section ReviseFacts.
Context {Val : Type} {Val_eq_dec : EqDecision Val}.
Local Abbreviation State := (State Val).
Local Abbreviation M := (M Val).
Implicit Types (s : State) (csp : CSP Val) (a l : nat) (i j : string).

Lemma domain_of_Some s a v xs :
  domain_of s a v = Some xs ↔
  ∃ m l, dicts s !! a = Some m ∧ od_get m v = Some l ∧ lists s !! l = Some xs.
Proof.
  unfold domain_of. split.
  - destruct (dicts s !! a) as [m|]; simpl; [|done].
    destruct (od_get m v) as [l|] eqn:Hl; simpl; [|done]. eauto.
  - intros (m & l & -> & Hl & Hxs). simpl. rewrite Hl. done.
Qed.

Lemma unsupported_Ok csp a i j x u s s' :
  unsupported csp a i j x s = Ok (u, s') →
  s' = s ∧
  ∃ ys, domain_of s a j = Some ys ∧
    ((ys = [] ∧ u = true) ∨
     (ys ≠ [] ∧ ∃ f, constraint_of csp i j = Some f ∧
                     u = forallb (fun y => negb (f x y)) ys)).
Proof.
  unfold unsupported. intros Hu. monad_inv Hu.
  assert (domain_of s a j = Some a1) as Hdom.
  { apply domain_of_Some. eauto. }
  destruct a1 as [|y ys].
  - monad_inv Hu. split; [done|]. exists []. eauto.
  - monad_inv Hu. split; [done|]. exists (y :: ys). split; [done|].
    right. split; [done|]. eexists. split; [|done].
    unfold constraint_of. rewrite Hu2. done.
Qed.

Lemma revise_loop_unfold csp a i j li n idx revised :
  revise_loop csp a i j li n idx revised =
  (xs <- read_list li ;;
   match xs !! idx with
   | None => ret revised
   | Some x =>
       match n with
       | 0 => raise OutOfFuel
       | S n' =>
           u <- unsupported csp a i j x ;;
           if u then
             l <- getitem a i ;;
             ys <- read_list l ;;
             ys' <- from_option ValueError (list_remove_first x ys) ;;
             write_list l ys' ;;
             revise_loop csp a i j li n' (S idx) true
           else revise_loop csp a i j li n' (S idx) revised
       end
   end).
Proof. by destruct n. Qed.

(** The effect of one run of the loop on the store, and the meaning of
    the flag it returns. *)
Lemma revise_loop_spec csp a i j li n idx revised s b s' :
  revise_loop csp a i j li n idx revised s = Ok (b, s') →
  engine_step a s s' ∧
  (if b then revised = true ∨ total_size (lists s') < total_size (lists s)
   else revised = false ∧ s' = s).
Proof.
  revert idx revised s. induction n as [|n IH]; intros idx revised s;
    rewrite revise_loop_unfold; intros Hr; monad_inv Hr.
  - destruct (a0 !! idx) as [x|]; monad_inv Hr.
    split; [apply engine_step_refl|]. destruct revised; eauto.
  - destruct (a0 !! idx) as [x|]; monad_inv Hr.
    2:{ split; [apply engine_step_refl|]. destruct revised; eauto. }
    apply unsupported_Ok in Hr1 as [-> _]. destruct a1.
    + monad_inv Hr.
      destruct (list_remove_first_sublist _ _ _ Hr3) as [Hsub Hlen].
      apply IH in Hr as [Hstep Hb].
      assert (engine_step a s (with_lists s (<[a1:=a3]> (lists s)))) as Hw.
      { eapply engine_step_write; [done..|]. by exists m, i. }
      split; [by eapply engine_step_trans|].
      pose proof (total_size_insert (lists s) a1 a2 a3 Hr2) as Hsz.
      pose proof (engine_step_size _ _ _ Hstep) as Hle. simpl in Hle.
      destruct b.
      * right. lia.
      * destruct Hb as [? _]. done.
    + by apply IH in Hr.
Qed.

Lemma revise_spec csp a i j s b s' :
  revise csp a i j s = Ok (b, s') →
  engine_step a s s' ∧
  (if b then total_size (lists s') < total_size (lists s) else s' = s).
Proof.
  unfold revise. intros Hr. monad_inv Hr.
  apply revise_loop_spec in Hr as [Hstep Hb]. split; [done|].
  destruct b; [by destruct Hb | by destruct Hb].
Qed.

Lemma unsupported_Raise csp a i j x s e :
  unsupported csp a i j x s = Raise e → e = BadRef ∨ e = KeyError.
Proof.
  unfold unsupported. intros [He|(lj & s1 & _ & He)]%bind_Raise.
  { by apply getitem_Raise in He. }
  apply bind_Raise in He as [He|(ys & s2 & _ & He)].
  { left. by eapply read_list_Raise. }
  destruct ys as [|y ys]; [done|].
  apply bind_Raise in He as [He|(ci & s3 & _ & He)].
  { right. by eapply from_option_Raise. }
  apply bind_Raise in He as [He|(f & s4 & _ & He)]; [|done].
  right. by eapply from_option_Raise.
Qed.

(** The step budget of the loop is never exhausted. *)
Lemma revise_loop_fuel csp a i j li n idx revised s xs :
  lists s !! li = Some xs → length xs ≤ n + idx →
  revise_loop csp a i j li n idx revised s ≠ Raise OutOfFuel.
Proof.
  revert idx revised s xs. induction n as [|n IH]; intros idx revised s xs Hli Hn;
    rewrite revise_loop_unfold; rewrite (bind_eq _ _ s xs s)
      by (by apply read_list_Ok).
  - rewrite lookup_ge_None_2 by lia. done.
  - destruct (xs !! idx) as [x|]; [|done].
    intros Hoof. apply bind_Raise in Hoof as [Hoof|(u & s1 & Hu & Hoof)].
    { apply unsupported_Raise in Hoof as [?|?]; done. }
    apply unsupported_Ok in Hu as [-> _]. destruct u.
    + apply bind_Raise in Hoof as [Hoof|(l & s1 & Hl & Hoof)];
        [no_fuel_error Hoof|].
      monad_inv Hl.
      apply bind_Raise in Hoof as [Hoof|(ys & s1 & Hys & Hoof)];
        [no_fuel_error Hoof|].
      monad_inv Hys.
      apply bind_Raise in Hoof as [Hoof|(ys' & s1 & Hys' & Hoof)];
        [no_fuel_error Hoof|].
      monad_inv Hys'.
      apply bind_Raise in Hoof as [Hoof|(? & s1 & Hw & Hoof)];
        [no_fuel_error Hoof|].
      monad_inv Hw.
      destruct (list_remove_first_sublist _ _ _ Hys') as [Hsub Hlen].
      destruct (decide (l = li)) as [->|Hne].
      * revert Hoof. eapply (IH _ _ _ ys').
        -- simpl. apply list_lookup_insert_eq. by eapply lookup_lt_Some.
        -- simplify_eq. lia.
      * revert Hoof. eapply (IH _ _ _ xs).
        -- simpl. by rewrite list_lookup_insert_ne.
        -- lia.
    + revert Hoof. eapply IH; [done | lia].
Qed.

Lemma revise_fuel csp a i j s : revise csp a i j s ≠ Raise OutOfFuel.
Proof.
  unfold revise. intros Hoof.
  apply bind_Raise in Hoof as [Hoof|(l & s1 & Hl & Hoof)];
    [no_fuel_error Hoof|].
  monad_inv Hl.
  apply bind_Raise in Hoof as [Hoof|(xs & s1 & Hxs & Hoof)];
    [no_fuel_error Hoof|].
  monad_inv Hxs. revert Hoof. eapply revise_loop_fuel; [done | lia].
Qed.
End ReviseFacts.

(** ** [inference] *)

Section InferenceFacts.
Context {Val : Type} {Val_eq_dec : EqDecision Val}.
Local Abbreviation State := (State Val).
Local Abbreviation M := (M Val).
Implicit Types (s : State) (csp : CSP Val) (a l : nat) (i j : string).
Implicit Types (q rest : list arc).

Lemma inference_loop_nil csp a fuel : inference_loop csp a fuel [] = ret true.
Proof. by destruct fuel. Qed.

Lemma inference_loop_cons csp a fuel i j rest :
  inference_loop csp a (S fuel) ((i, j) :: rest) =
  (revised <- revise csp a i j ;;
   if revised then
     li <- getitem a i ;;
     xs <- read_list li ;;
     match xs with
     | [] => ret false
     | _ :: _ =>
         arcs <- from_res (get_all_neighboring_arcs csp i) ;;
         inference_loop csp a fuel (rest ++ requeue j arcs)
     end
   else inference_loop csp a fuel rest).
Proof. done. Qed.

Lemma inference_loop_spec csp a fuel q s b s' :
  inference_loop csp a fuel q s = Ok (b, s') → engine_step a s s'.
Proof.
  revert q s. induction fuel as [|fuel IH]; intros [|[i j] rest] s.
  - rewrite inference_loop_nil. intros Hi. monad_inv Hi. apply engine_step_refl.
  - done.
  - rewrite inference_loop_nil. intros Hi. monad_inv Hi. apply engine_step_refl.
  - rewrite inference_loop_cons. intros Hi.
    apply bind_Ok in Hi as (revised & s1 & Hrev & Hi).
    apply revise_spec in Hrev as [Hstep _]. destruct revised.
    + monad_inv Hi. destruct a1; monad_inv Hi; [done|].
      apply IH in Hi. by eapply engine_step_trans.
    + apply IH in Hi. by eapply engine_step_trans.
Qed.

Lemma inference_spec csp a q s b s' :
  inference csp a q s = Ok (b, s') → engine_step a s s'.
Proof. apply inference_loop_spec. Qed.

(** More fuel does not change a run that did not run out of it. *)
Lemma inference_loop_fuel_mono csp a fuel fuel' q s :
  fuel ≤ fuel' →
  inference_loop csp a fuel q s ≠ Raise OutOfFuel →
  inference_loop csp a fuel' q s = inference_loop csp a fuel q s.
Proof.
  revert fuel' q s. induction fuel as [|fuel IH]; intros fuel' [|[i j] rest] s Hle.
  - by rewrite !inference_loop_nil.
  - done.
  - by rewrite !inference_loop_nil.
  - destruct fuel' as [|fuel']; [lia|]. rewrite !inference_loop_cons.
    intros Hne. apply bind_ext_on; intros b s1 Hrev.
    rewrite (bind_eq _ _ _ _ _ Hrev) in Hne. destruct b.
    + apply bind_ext_on; intros li s2 Hli.
      rewrite (bind_eq _ _ _ _ _ Hli) in Hne.
      apply bind_ext_on; intros xs s3 Hxs.
      rewrite (bind_eq _ _ _ _ _ Hxs) in Hne. destruct xs as [|x xs]; [done|].
      apply bind_ext_on; intros arcs s4 Harcs.
      rewrite (bind_eq _ _ _ _ _ Harcs) in Hne. apply IH; [lia | done].
    + apply IH; [lia | done].
Qed.

Lemma get_all_neighboring_arcs_length csp var arcs :
  get_all_neighboring_arcs csp var = Ok arcs → length arcs ≤ max_degree csp.
Proof.
  unfold get_all_neighboring_arcs, max_degree, od_keys.
  destruct (od_get (constraints csp) var) as [cv|] eqn:Hcv; [|done].
  intros [= <-]. rewrite !length_fmap.
  apply od_get_Some_elem in Hcv. apply max_list_elem_of_le.
  apply list_elem_of_fmap. by exists (var, cv).
Qed.

Lemma requeue_length j arcs : length (requeue j arcs) ≤ length arcs.
Proof. apply length_filter. Qed.

Lemma from_res_Raise {A} (r : Res A) s e : from_res r s = Raise e → r = Raise e.
Proof. destruct r; unfold from_res, ret, raise; naive_solver. Qed.

(** The budget [inference_fuel] is enough. *)
Lemma inference_loop_enough csp a fuel q s :
  length q + total_size (lists s) * max_degree csp ≤ fuel →
  inference_loop csp a fuel q s ≠ Raise OutOfFuel.
Proof.
  revert q s. induction fuel as [|fuel IH]; intros [|[i j] rest] s Hf.
  - done.
  - simpl in Hf. lia.
  - done.
  - rewrite inference_loop_cons. simpl in Hf. intros Hoof.
    apply bind_Raise in Hoof as [Hoof|(b & s1 & Hrev & Hoof)].
    { by apply revise_fuel in Hoof. }
    apply revise_spec in Hrev as [Hstep Hb]. destruct b.
    + apply bind_Raise in Hoof as [Hoof|(li & s2 & Hli & Hoof)];
        [no_fuel_error Hoof|].
      monad_inv Hli.
      apply bind_Raise in Hoof as [Hoof|(xs & s2 & Hxs & Hoof)];
        [no_fuel_error Hoof|].
      monad_inv Hxs. destruct xs as [|x xs]; [done|].
      apply bind_Raise in Hoof as [Hoof|(arcs & s2 & Harcs & Hoof)].
      { apply from_res_Raise in Hoof. unfold get_all_neighboring_arcs in Hoof.
        by destruct (od_get (constraints csp) i). }
      monad_inv Harcs. revert Hoof. apply IH.
      apply get_all_neighboring_arcs_length in Harcs.
      pose proof (requeue_length j arcs). rewrite length_app. nia.
    + subst s1. revert Hoof. apply IH. lia.
Qed.

Lemma inference_eq_loop csp a fuel q s :
  inference_fuel csp q s ≤ fuel →
  inference csp a q s = inference_loop csp a fuel q s.
Proof.
  intros Hf. unfold inference. symmetry.
  apply inference_loop_fuel_mono; [done|]. by apply inference_loop_enough.
Qed.

Lemma inference_fuel_error csp a q s : inference csp a q s ≠ Raise OutOfFuel.
Proof. by apply inference_loop_enough. Qed.
End InferenceFacts.

Section InferenceSteps.
Context {Val : Type} {Val_eq_dec : EqDecision Val}.
Local Abbreviation State := (State Val).
Implicit Types (s : State) (csp : CSP Val) (a l : nat) (i j : string).

Lemma requeue_neighbors i j (ks : list string) :
  requeue j ((fun k => (k, i)) <$> ks) =
  (fun k => (k, i)) <$> filter (fun k => k ≠ j) ks.
Proof.
  unfold requeue. induction ks as [|k ks IH]; [done|]. csimpl.
  rewrite !filter_cons. simpl. destruct (decide (k ≠ j)); csimpl;
    [f_equal; apply IH | apply IH].
Qed.

Lemma revise_domain_of csp a i j s b s1 :
  revise csp a i j s = Ok (b, s1) → is_Some (domain_of s1 a i).
Proof.
  intros Hrev. pose proof Hrev as Hstep. apply revise_spec in Hstep as [Hstep _].
  unfold revise in Hrev. monad_inv Hrev.
  destruct (engine_step_list_fwd _ _ _ _ _ Hstep Hrev1) as (xs' & Hxs' & _).
  exists xs'. apply domain_of_Some. exists m, a0.
  rewrite (proj1 Hstep). done.
Qed.

(** The loop of [inference], with the budget out of the way. *)
Lemma inference_cons csp a i j rest s :
  inference csp a ((i, j) :: rest) s =
  (revised <- revise csp a i j ;;
   if revised then
     li <- getitem a i ;;
     xs <- read_list li ;;
     match xs with
     | [] => ret false
     | _ :: _ =>
         arcs <- from_res (get_all_neighboring_arcs csp i) ;;
         inference csp a (rest ++ requeue j arcs)
     end
   else inference csp a rest) s.
Proof.
  transitivity
    (inference_loop csp a
       (S (length rest + total_size (lists s) * max_degree csp))
       ((i, j) :: rest) s); [done|].
  rewrite inference_loop_cons. apply bind_ext_on. intros b s1 Hrev.
  apply revise_spec in Hrev as [Hstep Hb]. destruct b.
  - apply bind_ext_on. intros li s2 Hli. monad_inv Hli.
    apply bind_ext_on. intros xs s2 Hxs. monad_inv Hxs.
    destruct xs as [|x xs]; [done|].
    apply bind_ext_on. intros arcs s2 Harcs. monad_inv Harcs.
    symmetry. apply inference_eq_loop.
    unfold inference_fuel. rewrite length_app.
    apply get_all_neighboring_arcs_length in Harcs.
    pose proof (requeue_length j arcs).
    assert (S (total_size (lists s1)) * max_degree csp
            ≤ total_size (lists s) * max_degree csp)
      by (apply Nat.mul_le_mono_r; lia).
    lia.
  - subst s1. symmetry. apply inference_eq_loop. unfold inference_fuel. lia.
Qed.

(** C5.  [inference] takes the arcs of its queue first in, first out.
    With an empty queue it returns [True].  Otherwise it revises the head
    arc [(i, j)]: an exception of [revise] ends the call; if a value was
    removed and [i]'s domain is now empty the call returns [False] in the
    state [revise] left, without looking at the rest of the queue; if a
    value was removed and the domain is not empty, the call goes on with
    the rest of the queue followed by exactly the arcs [(k, i)] for the
    neighbours [k] of [i] other than [j]; if nothing was removed it goes
    on with the rest of the queue. *)
Theorem inference_fifo_steps csp a i j rest s :
  inference csp a [] s = Ok (true, s) ∧
  match revise csp a i j s with
  | Raise e => inference csp a ((i, j) :: rest) s = Raise e
  | Ok (revised, s1) =>
      is_Some (domain_of s1 a i) ∧
      inference csp a ((i, j) :: rest) s =
        if revised then
          match domain_of s1 a i with
          | Some [] => Ok (false, s1)
          | _ =>
              match od_get (constraints csp) i with
              | Some ci =>
                  inference csp a
                    (rest ++ ((fun k => (k, i)) <$>
                                filter (fun k => k ≠ j) (od_keys ci))) s1
              | None => Raise KeyError
              end
          end
        else inference csp a rest s1
  end.
Proof.
  split; [by unfold inference; rewrite inference_loop_nil|].
  rewrite inference_cons.
  destruct (revise csp a i j s) as [[b s1]|e] eqn:Hrev;
    [|by rewrite (bind_eq_raise _ _ _ _ Hrev)].
  rewrite (bind_eq _ _ _ _ _ Hrev).
  destruct (revise_domain_of _ _ _ _ _ _ _ Hrev) as [xs Hxs].
  split; [by eauto|]. rewrite Hxs. destruct b; [|done].
  apply domain_of_Some in Hxs as (m & li & Hm & Hli & Hxs).
  rewrite (bind_eq _ _ s1 li s1) by (apply getitem_Ok; eauto).
  rewrite (bind_eq _ _ s1 xs s1) by (by apply read_list_Ok).
  destruct xs as [|x xs]; [done|].
  unfold get_all_neighboring_arcs.
  destruct (od_get (constraints csp) i) as [ci|] eqn:Hci; [|done].
  rewrite (bind_eq _ _ s1 ((λ k, (k, i)) <$> od_keys ci) s1) by done.
  by rewrite requeue_neighbors.
Qed.
End InferenceSteps.

(** ** Copies and branches *)

Section BranchFacts.
Context {Val : Type} {Val_eq_dec : EqDecision Val}.
Local Abbreviation State := (State Val).
Local Abbreviation M := (M Val).
Implicit Types (s : State) (csp : CSP Val) (a l : nat) (i j : string).

Lemma extends_refl s : extends s s.
Proof. by split. Qed.

Lemma extends_trans s1 s2 s3 : extends s1 s2 → extends s2 s3 → extends s1 s3.
Proof. intros [Hl1 Hd1] [Hl2 Hd2]. split; eauto. Qed.

Lemma extends_length s s' :
  extends s s' → length (lists s) ≤ length (lists s').
Proof.
  intros [Hl _]. destruct (lists s) as [|xs ls] eqn:Hls using rev_ind; [simpl; lia|].
  specialize (Hl (length ls) xs). rewrite lookup_app_r, Nat.sub_diag in Hl by done.
  specialize (Hl eq_refl). apply lookup_lt_Some in Hl.
  rewrite length_app. simpl. lia.
Qed.

Lemma extends_domain_of s s' a v xs :
  extends s s' → domain_of s a v = Some xs → domain_of s' a v = Some xs.
Proof.
  intros [Hl Hd]. rewrite !domain_of_Some.
  intros (m & l & Hm & Hv & Hxs). exists m, l. eauto.
Qed.

Lemma extends_alloc_list s xs :
  extends s (with_lists s (lists s ++ [xs])).
Proof.
  split; simpl; [|done]. intros l ys Hl. by apply lookup_app_l_Some.
Qed.

Lemma extends_alloc_dict s m :
  extends s (with_dicts s (dicts s ++ [m])).
Proof.
  split; simpl; [done|]. intros d m' Hd. by apply lookup_app_l_Some.
Qed.

(** An engine step on an assignment whose lists all lie above the lists of
    [s0] leaves the objects of [s0] alone. *)
Lemma extends_engine_step s0 s1 s2 a :
  extends s0 s1 → engine_step a s1 s2 →
  (∀ l, bound_in s1 a l → length (lists s0) ≤ l) →
  extends s0 s2.
Proof.
  intros [Hl Hd] (Hd' & _ & _ & _ & Hfr) Hfresh. split.
  - intros l xs Hxs. destruct (Hfr l) as [Hb|Heq].
    + apply Hfresh in Hb. apply lookup_lt_Some in Hxs. lia.
    + rewrite Heq. by apply Hl.
  - intros d m Hm. rewrite Hd'. by apply Hd.
Qed.

Lemma deepcopy_items_spec L0 items : ∀ memo s items' s',
  deepcopy_items items memo s = Ok (items', s') →
  memo_ok L0 s memo → L0 ≤ length (lists s) →
  extends s s' ∧ dicts s' = dicts s ∧
  backtrack_counter s' = backtrack_counter s ∧
  backtrack_failure_counter s' = backtrack_failure_counter s ∧
  items'.*1 = items.*1 ∧
  (∀ k l xs, od_get items k = Some l → lists s !! l = Some xs →
             ∃ l', od_get items' k = Some l' ∧ lists s' !! l' = Some xs) ∧
  (∀ k l', od_get items' k = Some l' → L0 ≤ l' < length (lists s')).
Proof.
  induction items as [|[k0 l0] rest IH]; intros memo s items' s' Hc Hmemo HL0.
  { simpl in Hc. monad_inv Hc. split_and!; try done; apply extends_refl. }
  simpl in Hc. destruct (od_get memo l0) as [l0'|] eqn:Hhit.
  - apply bind_Ok in Hc as (rest' & s2 & Hc0 & Hc). monad_inv Hc.
    destruct (IH _ _ _ _ Hc0 Hmemo HL0) as (Hext & Hd & Hc1 & Hc2 & Hk & Hfw & Hfr).
    destruct (Hmemo _ _ Hhit) as (Hge & ys & Hys & Hys').
    split_and!; try done.
    + csimpl. by f_equal.
    + intros k l xs. simpl. destruct (decide (k = k0)) as [->|Hne].
      * intros [= ->] Hxs. exists l0'. split; [done|].
        apply Hext. congruence.
      * apply Hfw.
    + intros k l'. simpl. destruct (decide (k = k0)); [|by apply Hfr].
      intros [= <-]. split; [done|].
      apply (proj1 Hext) in Hys'. by eapply lookup_lt_Some.
  - apply bind_Ok in Hc as (xs0 & s1' & Hread & Hc). monad_inv Hread.
    apply bind_Ok in Hc as (l' & s1 & Hal & Hc). monad_inv Hal.
    apply bind_Ok in Hc as (rest' & s2 & Hc2 & Hc). monad_inv Hc.
    set (s1 := with_lists s (lists s ++ [xs0])) in *.
    assert (extends s s1) as Hext1 by apply extends_alloc_list.
    assert (lists s1 !! length (lists s) = Some xs0) as Hnew.
    { simpl. by rewrite lookup_app_r, Nat.sub_diag. }
    assert (memo_ok L0 s1 ((l0, length (lists s)) :: memo)) as Hmemo1.
    { intros l l'. simpl. destruct (decide (l = l0)) as [->|Hne].
      - intros [= <-]. split; [done|]. exists xs0. split; [|done].
        by apply Hext1.
      - intros Hl. destruct (Hmemo _ _ Hl) as (Hge & ys & Hys & Hys').
        split; [done|]. exists ys. split; by apply Hext1. }
    assert (L0 ≤ length (lists s1)) as HL1.
    { simpl. rewrite length_app. lia. }
    destruct (IH _ _ _ _ Hc2 Hmemo1 HL1) as (Hext & Hd & Hc3 & Hc4 & Hk & Hfw & Hfr).
    split_and!; try done.
    + by eapply extends_trans.
    + csimpl. by f_equal.
    + intros k l xs. simpl. destruct (decide (k = k0)) as [->|Hne].
      * intros [= ->] Hxs. exists (length (lists s)). split; [done|].
        apply Hext. congruence.
      * intros Hk0 Hxs. eapply Hfw; [done|]. by apply Hext1.
    + intros k l'. simpl. destruct (decide (k = k0)); [|by apply Hfr].
      intros [= <-]. split; [done|].
      apply (proj1 Hext) in Hnew. by eapply lookup_lt_Some.
Qed.

Lemma deepcopy_spec a s na s1 :
  deepcopy a s = Ok (na, s1) →
  extends s s1 ∧
  backtrack_counter s1 = backtrack_counter s ∧
  backtrack_failure_counter s1 = backtrack_failure_counter s ∧
  na = length (dicts s) ∧ length (dicts s1) = S (length (dicts s)) ∧
  (∀ l, bound_in s1 na l → length (lists s) ≤ l < length (lists s1)) ∧
  (∀ v xs, domain_of s a v = Some xs → domain_of s1 na v = Some xs) ∧
  (valid_assignment s a →
   ∀ v xs, domain_of s1 na v = Some xs → domain_of s a v = Some xs).
Proof.
  unfold deepcopy. intros Hc.
  apply bind_Ok in Hc as (items & s0 & Hread & Hc). monad_inv Hread.
  apply bind_Ok in Hc as (items' & s' & Hitems & Hc). monad_inv Hc.
  assert (memo_ok (length (lists s)) s []) as Hmemo by (by intros l l').
  destruct (deepcopy_items_spec _ _ _ _ _ _ Hitems Hmemo (le_n _))
    as (Hext & Hd & Hc1 & Hc2 & Hkeys & Hfw & Hfr).
  assert (dicts (with_dicts s' (dicts s' ++ [items'])) !! length (dicts s)
          = Some items') as Hna.
  { simpl. rewrite Hd. by rewrite lookup_app_r, Nat.sub_diag. }
  rewrite Hd in Hna |- *. split_and!; try done.
  - rewrite <- Hd. eapply extends_trans; [done|]. apply extends_alloc_dict.
  - simpl. rewrite length_app. simpl. lia.
  - intros l (m & k & Hm & Hk). rewrite Hna in Hm. simplify_eq.
    simpl. by eapply Hfr.
  - intros v xs (m & l & Hm & Hv & Hxs)%domain_of_Some. simplify_eq.
    destruct (Hfw _ _ _ Hv Hxs) as (l' & Hl' & Hxs').
    apply domain_of_Some. by exists items', l'.
  - intros (m & Hm & Hvalid) v xs (m' & l' & Hm' & Hv & Hxs)%domain_of_Some.
    rewrite Hna in Hm'. simplify_eq.
    assert (is_Some (od_get items v)) as [l Hl].
    { apply od_get_is_Some_keys. unfold od_keys. rewrite <- Hkeys.
      apply od_get_is_Some_keys. eauto. }
    destruct (lookup_lt_is_Some_2 (lists s) l (Hvalid _ _ Hl)) as [ys Hys].
    destruct (Hfw _ _ _ Hl Hys) as (l'' & Hl'' & Hys'). simplify_eq.
    simpl in Hxs. apply domain_of_Some. exists items, l. split_and!; congruence.
Qed.

Lemma extends_setitem_fresh s0 s d m :
  extends s0 s → length (dicts s0) ≤ d →
  extends s0 (with_dicts s (<[d := m]> (dicts s))).
Proof.
  intros [Hl Hd] Hfresh. split; simpl; [done|].
  intros d' m' Hm'. rewrite list_lookup_insert_ne; [by apply Hd|].
  apply lookup_lt_Some in Hm'. lia.
Qed.

(** What one branch does: the objects of the parent state are untouched,
    the copy is a new dictionary whose lists are all new, the selected
    variable holds a sub-sequence of [[value]] and every other variable a
    sub-sequence of the domain it had in the parent. *)
Lemma branch_spec csp a var value s na ok s2 :
  branch csp a var value s = Ok ((na, ok), s2) →
  extends s s2 ∧ valid_assignment s2 na ∧ length (dicts s) ≤ na ∧
  (∀ l, bound_in s2 na l → length (lists s) ≤ l) ∧
  (∀ xs', domain_of s2 na var = Some xs' → xs' `sublist_of` [value]) ∧
  (valid_assignment s a →
   ∀ v xs', v ≠ var → domain_of s2 na v = Some xs' →
            ∃ xs, domain_of s a v = Some xs ∧ xs' `sublist_of` xs).
Proof.
  unfold branch. intros Hb.
  apply bind_Ok in Hb as (na' & s1 & Hcopy & Hb).
  apply bind_Ok in Hb as (l & s1' & Hal & Hb). monad_inv Hal.
  apply bind_Ok in Hb as (u & s1'' & Hset & Hb).
  apply setitem_Ok in Hset as (items & Hitems & ->). simpl in Hitems.
  apply bind_Ok in Hb as (arcs & s1'' & Harcs & Hb). monad_inv Harcs.
  apply bind_Ok in Hb as (ok' & s2' & Hinf & Hb). monad_inv Hb.
  apply deepcopy_spec in Hcopy
    as (Hext & _ & _ & -> & Hlen & Hfresh & Hfw & Hbw).
  set (d := length (dicts s)) in *.
  set (s1'' := with_dicts _ _) in Hinf.
  assert (dicts s1'' !! d = Some (od_set items var (length (lists s1)))) as Hd.
  { simpl. apply list_lookup_insert_eq. by eapply lookup_lt_Some. }
  assert (extends s s1'') as Hext1.
  { apply extends_setitem_fresh; [|done].
    eapply extends_trans; [done|]. apply extends_alloc_list. }
  assert (∀ l, bound_in s1'' d l →
               length (lists s) ≤ l < length (lists s1'')) as Hfresh1.
  { intros l (m & k & Hm & Hk). rewrite Hd in Hm. simplify_eq.
    simpl. rewrite length_app. simpl.
    destruct (decide (var = k)) as [->|Hne].
    - rewrite od_get_set_eq in Hk. simplify_eq.
      apply extends_length in Hext. lia.
    - rewrite od_get_set_ne in Hk by done.
      assert (bound_in s1 d l) as Hbl by (by exists items, k).
      apply Hfresh in Hbl. lia. }
  apply inference_spec in Hinf as Hstep.
  split_and!.
  - eapply extends_engine_step; [done..|]. intros l Hl. by apply Hfresh1.
  - exists (od_set items var (length (lists s1))). split.
    + by rewrite (proj1 Hstep).
    + intros k l Hk. rewrite (engine_step_length _ _ _ Hstep).
      apply Hfresh1. by exists (od_set items var (length (lists s1))), k.
  - done.
  - intros l Hl. apply (engine_step_bound _ _ _ d l Hstep) in Hl.
    by apply Hfresh1.
  - intros xs' Hxs'.
    destruct (engine_step_domain_of _ _ _ _ _ _ Hstep Hxs') as (xs & Hxs & Hsub).
    apply domain_of_Some in Hxs as (m & l & Hm & Hv & Hxs).
    rewrite Hd in Hm. simplify_eq. rewrite od_get_set_eq in Hv. simplify_eq.
    simpl in Hxs. rewrite lookup_app_r, Nat.sub_diag in Hxs by done.
    simpl in Hxs. by simplify_eq.
  - intros Hvalid v xs' Hne Hxs'.
    destruct (engine_step_domain_of _ _ _ _ _ _ Hstep Hxs') as (xs & Hxs & Hsub).
    exists xs. split; [|done]. apply Hbw; [done|].
    apply domain_of_Some in Hxs as (m & l & Hm & Hv & Hxs).
    rewrite Hd in Hm. simplify_eq. rewrite od_get_set_ne in Hv by done.
    apply domain_of_Some. exists items, l. split_and!; try done.
    assert (bound_in s1 d l) as Hbl by (by exists items, v).
    apply Hfresh in Hbl. simpl in Hxs.
    by rewrite lookup_app_l in Hxs by lia.
Qed.
End BranchFacts.

(** ** Variable selection *)

Section SelectFacts.
Context {Val : Type} {Val_eq_dec : EqDecision Val}.
Local Abbreviation State := (State Val).
Local Abbreviation M := (M Val).
Implicit Types (s : State) (csp : CSP Val) (a l : nat) (v : string).

Lemma getitem_read_list a v s l xs s1 s2 :
  getitem a v s = Ok (l, s1) → read_list l s1 = Ok (xs, s2) →
  s2 = s ∧ domain_of s a v = Some xs.
Proof.
  intros Hg Hr. monad_inv Hg. monad_inv Hr. split; [done|].
  apply domain_of_Some. eauto.
Qed.

Lemma domain_of_getitem_read_list {B} a v s xs (k : list Val → M B) :
  domain_of s a v = Some xs →
  (l <- getitem a v ;; ys <- read_list l ;; k ys) s = k xs s.
Proof.
  intros (m & l & Hm & Hl & Hxs)%domain_of_Some.
  rewrite (bind_eq _ _ s l s) by (apply getitem_Ok; eauto).
  by rewrite (bind_eq _ _ s xs s) by (by apply read_list_Ok).
Qed.

Lemma domain_len_Some s a v xs :
  domain_of s a v = Some xs → domain_len s a v = length xs.
Proof. unfold domain_len. by intros ->. Qed.

Lemma all_assigned_Ok a vars s b s' :
  all_assigned a vars s = Ok (b, s') →
  s' = s ∧ (b = true → Forall (fun v => ∃ x, domain_of s a v = Some [x]) vars).
Proof.
  induction vars as [|v vars IH]; simpl; intros Ha.
  - monad_inv Ha. done.
  - apply bind_Ok in Ha as (l & s1 & Hg & Ha).
    apply bind_Ok in Ha as (xs & s2 & Hr & Ha).
    destruct (getitem_read_list _ _ _ _ _ _ _ Hg Hr) as [-> Hdom].
    destruct (decide (length xs = 1)) as [Hlen|Hlen].
    + apply IH in Ha as [-> Hall]. split; [done|]. intros ->.
      constructor; [|by apply Hall].
      destruct xs as [|x [|??]]; try done. by exists x.
    + monad_inv Ha. done.
Qed.

Lemma unassigned_vars_Ok a vars s us s' :
  unassigned_vars a vars s = Ok (us, s') →
  s' = s ∧ us = filter (fun v => 1 < domain_len s a v) vars.
Proof.
  revert us. induction vars as [|v vars IH]; simpl; intros us Hu.
  - monad_inv Hu. done.
  - apply bind_Ok in Hu as (l & s1 & Hg & Hu).
    apply bind_Ok in Hu as (xs & s2 & Hr & Hu).
    destruct (getitem_read_list _ _ _ _ _ _ _ Hg Hr) as [-> Hdom].
    apply bind_Ok in Hu as (rest & s3 & Hrest & Hu). monad_inv Hu.
    apply IH in Hrest as [-> ->]. split; [done|].
    rewrite filter_cons, (domain_len_Some _ _ _ _ Hdom).
    by destruct (decide (1 < length xs)).
Qed.

Lemma unassigned_vars_total a vars s :
  Forall (fun v => is_Some (domain_of s a v)) vars →
  unassigned_vars a vars s =
  Ok (filter (fun v => 1 < domain_len s a v) vars, s).
Proof.
  induction 1 as [|v vars [xs Hxs] _ IH]; [done|]. simpl.
  rewrite (domain_of_getitem_read_list _ _ _ _ _ Hxs).
  rewrite (bind_eq _ _ _ _ _ IH).
  rewrite filter_cons, (domain_len_Some _ _ _ _ Hxs).
  by destruct (decide (1 < length xs)).
Qed.

Lemma keyed_Ok a us s ks s' :
  keyed a us s = Ok (ks, s') →
  s' = s ∧ ks = (fun v => (v, domain_len s a v)) <$> us.
Proof.
  revert ks. induction us as [|v us IH]; simpl; intros ks Hk.
  - monad_inv Hk. done.
  - apply bind_Ok in Hk as (l & s1 & Hg & Hk).
    apply bind_Ok in Hk as (xs & s2 & Hr & Hk).
    destruct (getitem_read_list _ _ _ _ _ _ _ Hg Hr) as [-> Hdom].
    apply bind_Ok in Hk as (rest & s3 & Hrest & Hk). monad_inv Hk.
    apply IH in Hrest as [-> ->]. split; [done|]. csimpl.
    by rewrite (domain_len_Some _ _ _ _ Hdom).
Qed.

Lemma keyed_total a us s :
  Forall (fun v => is_Some (domain_of s a v)) us →
  keyed a us s = Ok ((fun v => (v, domain_len s a v)) <$> us, s).
Proof.
  induction 1 as [|v us [xs Hxs] _ IH]; [done|]. simpl.
  rewrite (domain_of_getitem_read_list _ _ _ _ _ Hxs).
  rewrite (bind_eq _ _ _ _ _ IH). csimpl.
  by rewrite (domain_len_Some _ _ _ _ Hxs).
Qed.

(** [min] returns the first item whose key is smallest. *)
Lemma min_by_key_spec rest : ∀ pre0 post0 best kbest,
  Forall (fun p : string * nat => kbest < p.2) pre0 →
  Forall (fun p : string * nat => kbest ≤ p.2) post0 →
  ∃ pre post k,
    pre0 ++ (best, kbest) :: post0 ++ rest =
      pre ++ (min_by_key best kbest rest, k) :: post ∧
    Forall (fun p => k < p.2) pre ∧ Forall (fun p => k ≤ p.2) post.
Proof.
  induction rest as [|[v k] rest IH]; intros pre0 post0 best kbest Hpre Hpost.
  - exists pre0, post0, kbest. by rewrite app_nil_r.
  - simpl. destruct (decide (k < kbest)) as [Hlt|Hge].
    + destruct (IH (pre0 ++ (best, kbest) :: post0) [] v k)
        as (pre & post & k' & Heq & Hpre' & Hpost'); [|done|].
      { apply Forall_app. split.
        - eapply Forall_impl; [exact Hpre|]. intros p Hp. simpl in *. lia.
        - constructor; [done|]. eapply Forall_impl; [exact Hpost|].
          intros p Hp. simpl in *. lia. }
      exists pre, post, k'. split; [|done].
      rewrite <- Heq. by rewrite <- !app_assoc.
    + destruct (IH pre0 (post0 ++ [(v, k)]) best kbest)
        as (pre & post & k' & Heq & Hpre' & Hpost'); [done| |].
      { apply Forall_app. split; [done|]. constructor; [simpl; lia|done]. }
      exists pre, post, k'. split; [|done].
      rewrite <- Heq. by rewrite <- !app_assoc.
Qed.

Lemma filter_split {A} (P : A → Prop) `{!∀ x, Decision (P x)}
    (xs xs1 xs2 : list A) x :
  filter P xs = xs1 ++ x :: xs2 →
  ∃ ys1 ys2 : list A,
    xs = ys1 ++ x :: ys2 ∧ filter P ys1 = xs1 ∧ filter P ys2 = xs2.
Proof.
  revert xs1. induction xs as [|y xs IH]; intros xs1; [by destruct xs1|].
  rewrite filter_cons. destruct (decide (P y)) as [Hy|Hy].
  - destruct xs1 as [|z xs1]; simpl.
    + intros [= -> Hl]. exists [], xs. by rewrite filter_nil.
    + intros [= -> Hl]. destruct (IH _ Hl) as (ys1 & ys2 & -> & <- & <-).
      exists (z :: ys1), ys2. by rewrite filter_cons, decide_True.
  - intros Hl. destruct (IH _ Hl) as (ys1 & ys2 & -> & <- & <-).
    exists (y :: ys1), ys2. by rewrite filter_cons, decide_False.
Qed.

Lemma select_unassigned_variable_Ok csp a s v s' :
  select_unassigned_variable csp a s = Ok (v, s') →
  s' = s ∧
  ∃ pre post,
    variables csp = pre ++ v :: post ∧ 1 < domain_len s a v ∧
    (∀ u, u ∈ pre → 1 < domain_len s a u →
          domain_len s a v < domain_len s a u) ∧
    (∀ u, u ∈ post → 1 < domain_len s a u →
          domain_len s a v ≤ domain_len s a u).
Proof.
  unfold select_unassigned_variable. intros Hs.
  apply bind_Ok in Hs as (us & s1 & Hus & Hs).
  apply unassigned_vars_Ok in Hus as [-> Hus].
  apply bind_Ok in Hs as (ks & s1 & Hks & Hs).
  apply keyed_Ok in Hks as [-> Hks].
  destruct ks as [|[v0 k0] rest]; [done|]. apply ret_Ok in Hs as [-> ->].
  split; [done|].
  destruct (min_by_key_spec rest [] [] v0 k0) as (pre & post & k & Heq & Hpre & Hpost);
    [done..|].
  simpl in Heq. rewrite Heq in Hks.
  set (v := min_by_key v0 k0 rest) in *.
  assert (us = pre.*1 ++ v :: post.*1) as Hsplit.
  { rewrite <- (list_fmap_id us).
    erewrite (list_fmap_ext _ (fst ∘ (λ v, (v, domain_len s a v))) us); [|done].
    rewrite list_fmap_compose, <- Hks, fmap_app. done. }
  assert (k = domain_len s a v) as ->.
  { symmetry in Hks. apply fmap_app_inv in Hks as (us1 & us2 & Hpre1 & Hr & ->).
    symmetry in Hr. apply fmap_cons_inv in Hr as (v1 & us3 & [= -> ?] & _); done. }
  assert (∀ (ps : list (string * nat)) u, ps `sublist_of` pre ++ (v, domain_len s a v) :: post →
            u ∈ ps.*1 → (u, domain_len s a u) ∈ ps) as Hkey.
  { intros ps u Hps (p & -> & Hp)%list_elem_of_fmap.
    assert (p ∈ (λ v, (v, domain_len s a v)) <$> us) as Hin.
    { rewrite <- Hks. by eapply elem_of_sublist. }
    apply list_elem_of_fmap in Hin as (w & -> & _). done. }
  rewrite Hus in Hsplit.
  apply filter_split in Hsplit as (pre' & post' & Hvars & Hpre' & Hpost').
  exists pre', post'. split_and!; [done|..].
  - assert (v ∈ filter (λ v, 1 < domain_len s a v) (variables csp)) as Hv.
    { rewrite <- Hus, <- (list_fmap_id us).
      erewrite (list_fmap_ext _ (fst ∘ (λ v, (v, domain_len s a v))) us); [|done].
      rewrite list_fmap_compose, <- Hks, fmap_app. csimpl.
      apply elem_of_app. right. apply list_elem_of_here. }
    by apply list_elem_of_filter in Hv as [Hv _].
  - intros u Hu Hlen.
    assert (u ∈ pre.*1) as Hin.
    { rewrite <- Hpre'. by apply list_elem_of_filter. }
    apply (Hkey pre) in Hin; [|by apply sublist_inserts_r].
    by apply (proj1 (Forall_forall _ _) Hpre) in Hin.
  - intros u Hu Hlen.
    assert (u ∈ post.*1) as Hin.
    { rewrite <- Hpost'. by apply list_elem_of_filter. }
    apply (Hkey post) in Hin;
      [|by apply sublist_inserts_l, sublist_cons].
    by apply (proj1 (Forall_forall _ _) Hpost) in Hin.
Qed.
End SelectFacts.

Section SelectTheorem.
Context {Val : Type} {Val_eq_dec : EqDecision Val}.
Local Abbreviation State := (State Val).
Implicit Types (s : State) (csp : CSP Val) (a : nat) (v : string).

(** C6.  When [assignment] gives a domain to every variable of the graph
    and some domain has more than one value, [select_unassigned_variable]
    returns (without changing the store) a variable [v] with more than one
    value whose domain is the smallest among the variables with more than
    one value; every such variable registered before [v] has a strictly
    longer domain, so among the smallest ones [v] is the first in the
    registration order. *)
Theorem select_unassigned_variable_mrv csp a s :
  Forall (fun v => is_Some (domain_of s a v)) (variables csp) →
  Exists (fun v => 1 < domain_len s a v) (variables csp) →
  ∃ v pre post,
    select_unassigned_variable csp a s = Ok (v, s) ∧
    variables csp = pre ++ v :: post ∧
    1 < domain_len s a v ∧
    (∀ u, u ∈ variables csp → 1 < domain_len s a u →
          domain_len s a v ≤ domain_len s a u) ∧
    (∀ u, u ∈ pre → 1 < domain_len s a u →
          domain_len s a v < domain_len s a u).
Proof.
  intros Hall Hex.
  set (us := filter (λ v, 1 < domain_len s a v) (variables csp)).
  assert (∃ v, select_unassigned_variable csp a s = Ok (v, s)) as [v Hsel].
  { unfold select_unassigned_variable.
    rewrite (bind_eq _ _ _ _ _ (unassigned_vars_total _ _ _ Hall)). fold us.
    assert (Forall (λ v, is_Some (domain_of s a v)) us) as Hus.
    { apply Forall_forall. intros u [_ Hu]%list_elem_of_filter.
      by apply (proj1 (Forall_forall _ _) Hall). }
    rewrite (bind_eq _ _ _ _ _ (keyed_total _ _ _ Hus)).
    apply Exists_exists in Hex as (w & Hw & Hlen).
    assert (w ∈ us) as Hwin by (by apply list_elem_of_filter).
    destruct us as [|u0 us0]; [by apply elem_of_nil in Hwin|].
    csimpl. eauto. }
  exists v. pose proof Hsel as Hspec.
  apply select_unassigned_variable_Ok in Hspec
    as (_ & pre & post & Hvars & Hlen & Hpre & Hpost).
  exists pre, post. split_and!; try done.
  intros u Hu Hulen. rewrite Hvars in Hu.
  apply elem_of_app in Hu as [Hu|Hu]; [specialize (Hpre u Hu Hulen); lia|].
  apply elem_of_cons in Hu as [->|Hu]; [lia|]. by apply Hpost.
Qed.
End SelectTheorem.

(** ** [backtrack] *)

Section BacktrackFacts.
Context {Val : Type} {Val_eq_dec : EqDecision Val}.
Local Abbreviation State := (State Val).
Local Abbreviation M := (M Val).
Implicit Types (s : State) (csp : CSP Val) (a l : nat) (i j : string).

Lemma value_loop_unfold (try : Val → M (option nat)) lv n idx :
  value_loop try lv n idx =
  (cur <- read_list lv ;;
   match cur !! idx with
   | None => incr_backtrack_failure_counter ;; ret None
   | Some value =>
       match n with
       | 0 => raise OutOfFuel
       | S n' =>
           result <- try value ;;
           match result with
           | Some r => ret (Some r)
           | None => value_loop try lv n' (S idx)
           end
       end
   end).
Proof. by destruct n. Qed.

(** An invariant rule for the value loop: [I] holds of the state before
    every attempt, [R] of the result of the loop. *)
Lemma value_loop_inv (I : State → Prop) (R : option nat → State → Prop)
    (try : Val → M (option nat)) lv n :
  (∀ s cur idx value r s',
     I s → lists s !! lv = Some cur → cur !! idx = Some value →
     try value s = Ok (r, s') →
     match r with Some x => R (Some x) s' | None => I s' end) →
  (∀ s, I s →
        R None (mkState (lists s) (dicts s) (backtrack_counter s)
                        (S (backtrack_failure_counter s)))) →
  ∀ idx s r s', I s → value_loop try lv n idx s = Ok (r, s') → R r s'.
Proof.
  intros Hstep Hexit. induction n as [|n IH]; intros idx s r s' HI;
    rewrite value_loop_unfold; intros Hl;
    apply bind_Ok in Hl as (cur & s0 & Hcur & Hl); monad_inv Hcur.
  - destruct (cur !! idx) as [value|]; [done|].
    apply bind_Ok in Hl as (u & s1 & Hincr & Hl). monad_inv Hl.
    unfold incr_backtrack_failure_counter in Hincr. simplify_eq.
    by apply Hexit.
  - destruct (cur !! idx) as [value|] eqn:Hvalue.
    + apply bind_Ok in Hl as (result & s1 & Htry & Hl).
      pose proof (Hstep _ _ _ _ _ _ HI Hcur Hvalue Htry) as Hres.
      destruct result as [x|].
      * monad_inv Hl. done.
      * by eapply IH.
    + apply bind_Ok in Hl as (u & s1 & Hincr & Hl). monad_inv Hl.
      unfold incr_backtrack_failure_counter in Hincr. simplify_eq.
      by apply Hexit.
Qed.

Lemma extends_counters s n1 n2 :
  extends s (mkState (lists s) (dicts s) n1 n2).
Proof. by split. Qed.

Lemma attempt_extends (recurse : nat → M (option nat)) csp a var value s r s' :
  (∀ na s1 r1 s2, recurse na s1 = Ok (r1, s2) → extends s1 s2) →
  attempt recurse csp a var value s = Ok (r, s') → extends s s'.
Proof.
  intros Hrec. unfold attempt. intros Ha.
  apply bind_Ok in Ha as ([na ok] & s1 & Hbranch & Ha).
  apply branch_spec in Hbranch as (Hext & _). destruct ok.
  - apply Hrec in Ha. by eapply extends_trans.
  - by monad_inv Ha.
Qed.

(** [backtrack] creates objects and changes none. *)
Lemma backtrack_rec_extends csp fuel a s r s' :
  backtrack_rec csp fuel a s = Ok (r, s') → extends s s'.
Proof.
  revert a s r s'. induction fuel as [|fuel IH]; intros a s r s'; [done|].
  simpl. intros Hb.
  apply bind_Ok in Hb as (u & s0 & Hincr & Hb).
  unfold incr_backtrack_counter in Hincr. simplify_eq.
  apply bind_Ok in Hb as (complete & s1 & Hall & Hb).
  apply all_assigned_Ok in Hall as [-> _]. destruct complete.
  { monad_inv Hb. apply extends_counters. }
  apply bind_Ok in Hb as (var & s1 & Hsel & Hb).
  apply select_unassigned_variable_Ok in Hsel as [-> _].
  apply bind_Ok in Hb as (lv & s1 & Hlv & Hb). monad_inv Hlv.
  apply bind_Ok in Hb as (vs & s1 & Hvs & Hb). monad_inv Hvs.
  set (s0 := mkState _ _ _ _) in *.
  apply (extends_trans s s0); [apply extends_counters|].
  revert Hb. apply (value_loop_inv (extends s0) (λ _, extends s0)).
  - intros s1 cur idx value r1 s2 Hext _ _ Htry.
    apply attempt_extends in Htry; [|apply IH].
    destruct r1; by eapply extends_trans.
  - intros s1 Hext. eapply extends_trans; [done|]. apply extends_counters.
  - apply extends_refl.
Qed.

Lemma valid_assignment_extends s s' a :
  valid_assignment s a → extends s s' →
  valid_assignment s' a ∧ ∀ v, domain_of s' a v = domain_of s a v.
Proof.
  intros (m & Hm & Hvalid) Hext. pose proof (extends_length _ _ Hext) as Hlen.
  destruct Hext as [Hl Hd]. split.
  - exists m. split; [by apply Hd|]. intros k l' Hk.
    specialize (Hvalid _ _ Hk). lia.
  - intros v. unfold domain_of. rewrite Hm, (Hd _ _ Hm). simpl.
    destruct (od_get m v) as [l'|] eqn:Hv; [|done]. simpl.
    destruct (lookup_lt_is_Some_2 (lists s) l' (Hvalid _ _ Hv)) as [ys Hys].
    by rewrite Hys, (Hl _ _ Hys).
Qed.

Lemma sublist_singleton {A} (x : A) (xs : list A) :
  x ∈ xs → [x] `sublist_of` xs.
Proof.
  intros (xs1 & xs2 & ->)%list_elem_of_split.
  apply sublist_inserts_l, sublist_skip, sublist_nil_l.
Qed.

Lemma domains_shrink_intro s a s' a' :
  (∀ v xs', domain_of s' a' v = Some xs' →
            ∃ xs, domain_of s a v = Some xs ∧ xs' `sublist_of` xs) →
  domains_shrink s a s' a'.
Proof.
  intros Hsub v xs' Hxs'. destruct (Hsub _ _ Hxs') as (xs & Hxs & Hs).
  exists xs. split_and!; [done..|]. by apply sublist_subseteq.
Qed.

Lemma domains_shrink_trans s1 a1 s2 a2 s3 a3 :
  domains_shrink s1 a1 s2 a2 → domains_shrink s2 a2 s3 a3 →
  domains_shrink s1 a1 s3 a3.
Proof.
  intros H12 H23. apply domains_shrink_intro. intros v xs3 Hxs3.
  destruct (H23 _ _ Hxs3) as (xs2 & Hxs2 & Hs23 & _).
  destruct (H12 _ _ Hxs2) as (xs1 & Hxs1 & Hs12 & _).
  exists xs1. split; [done|]. by etrans.
Qed.

Lemma engine_step_domains_shrink a s s' b :
  engine_step a s s' → domains_shrink s b s' b.
Proof.
  intros Hstep. apply domains_shrink_intro. intros v xs' Hxs'.
  by eapply engine_step_domain_of.
Qed.

(** The collapse of [var] to one of its values and the propagation that
    follows leave every variable of the copy a sub-sequence of the domain
    it had in the parent. *)
Lemma branch_domains_shrink csp a var vs value s na ok s' :
  valid_assignment s a → domain_of s a var = Some vs → value ∈ vs →
  branch csp a var value s = Ok ((na, ok), s') →
  domains_shrink s a s' na.
Proof.
  intros Hvalid Hvs Hvalue Hbranch.
  apply branch_spec in Hbranch as (_ & _ & _ & _ & Hvar & Hother).
  apply domains_shrink_intro. intros v xs' Hxs'.
  destruct (decide (v = var)) as [->|Hne].
  - exists vs. split; [done|]. etrans; [by apply Hvar|].
    by apply sublist_singleton.
  - by apply Hother.
Qed.

(** The assignment that [backtrack] returns holds, for every variable, a
    sub-sequence of the domain the variable had in the assignment the
    search started from. *)
Lemma backtrack_rec_domains_shrink csp fuel a s r s' :
  backtrack_rec csp fuel a s = Ok (Some r, s') → valid_assignment s a →
  valid_assignment s' r ∧ domains_shrink s a s' r.
Proof.
  revert a s r s'. induction fuel as [|fuel IH]; intros a s r s'; [done|].
  simpl. intros Hb Hvalid.
  apply bind_Ok in Hb as (u & s0 & Hincr & Hb).
  unfold incr_backtrack_counter in Hincr. simplify_eq.
  set (s0 := mkState _ _ _ _) in *.
  assert (valid_assignment s0 a) as Hvalid0 by done.
  assert (domains_shrink s a s0 a) as Hs0.
  { apply domains_shrink_intro. intros v xs' Hxs'. by exists xs'. }
  apply bind_Ok in Hb as (complete & s1 & Hall & Hb).
  apply all_assigned_Ok in Hall as [-> _]. destruct complete.
  { by monad_inv Hb. }
  apply bind_Ok in Hb as (var & s1 & Hsel & Hb).
  apply select_unassigned_variable_Ok in Hsel as [-> _].
  apply bind_Ok in Hb as (lv & s1 & Hlv & Hb).
  apply bind_Ok in Hb as (vs & s2 & Hvs & Hb).
  destruct (getitem_read_list _ _ _ _ _ _ _ Hlv Hvs) as [-> Hdom].
  monad_inv Hlv. monad_inv Hvs.
  set (s0 := mkState _ _ _ _) in *.
  eapply (value_loop_inv (extends s0)
    (λ r s', match r with
             | Some x => valid_assignment s' x ∧ domains_shrink s a s' x
             | None => True
             end)) in Hb; [exact Hb| | |apply extends_refl].
  - intros s1 cur idx value r1 s2 Hext Hcur Hvalue Htry.
    pose proof Htry as Hext2.
    apply attempt_extends in Hext2; [|apply backtrack_rec_extends].
    destruct r1 as [x|]; [|by eapply extends_trans].
    unfold attempt in Htry.
    apply bind_Ok in Htry as ([na ok] & s1' & Hbranch & Htry).
    destruct ok; [|by monad_inv Htry].
    destruct (valid_assignment_extends _ _ _ Hvalid0 Hext) as [Hvalid1 Hsame].
    assert (value ∈ vs) as Hin.
    { apply (proj1 Hext) in Hvs. rewrite Hvs in Hcur. simplify_eq.
      by eapply list_elem_of_lookup_2. }
    assert (domains_shrink s1 a s1' na) as Hsh1.
    { eapply branch_domains_shrink; [done| |done..].
      by rewrite Hsame. }
    apply branch_spec in Hbranch as (_ & Hvalidna & _).
    destruct (IH _ _ _ _ Htry Hvalidna) as [Hvalidx Hsh2].
    split; [done|].
    eapply domains_shrink_trans; [|exact Hsh2].
    eapply domains_shrink_trans; [|exact Hsh1].
    apply domains_shrink_intro. intros v xs' Hxs'. rewrite Hsame in Hxs'.
    by exists xs'.
  - done.
Qed.
End BacktrackFacts.

(** * The properties of the search *)

Section SearchTheorems.
Context {Val : Type} {Val_eq_dec : EqDecision Val}.
Local Abbreviation State := (State Val).
Implicit Types (s : State) (csp : CSP Val) (a : nat) (v : string).

(** C4.  One iteration of the value loop of [backtrack] (copy, collapse,
    propagate and, if accepted, search the copy recursively) creates
    objects and changes none: every list and every dictionary of the state
    before the attempt is the same after it, whether the attempt failed or
    not.  So the parent's assignment reads the same for every variable,
    and the next iteration starts from the same parent state; the objects
    of earlier branches are not changed by later ones either. *)
Theorem attempt_isolated csp fuel a var value s r s' :
  attempt (backtrack_rec csp fuel) csp a var value s = Ok (r, s') →
  extends s s' ∧
  (∀ v xs, domain_of s a v = Some xs → domain_of s' a v = Some xs).
Proof.
  intros Ha. apply attempt_extends in Ha.
  - split; [done|]. intros v xs. by apply extends_domain_of.
  - intros na s1 r1 s2. apply backtrack_rec_extends.
Qed.

(** C7.  Domains only shrink.  After [revise] and after [inference] every
    variable of the assignment holds a sub-sequence (so a subset) of the
    domain it had before.  After the collapse of [var] to one of its
    current values in a branch (followed by the propagation of the branch)
    every variable of the copy holds a sub-sequence of the domain it had
    in the parent.  And the assignment that [backtrack] returns holds, for
    every variable, a sub-sequence of the domain the search started
    from. *)
Theorem domains_only_shrink csp a s :
  (∀ i j b s', revise csp a i j s = Ok (b, s') → domains_shrink s a s' a) ∧
  (∀ q b s', inference csp a q s = Ok (b, s') → domains_shrink s a s' a) ∧
  (∀ var vs value na ok s',
     valid_assignment s a → domain_of s a var = Some vs → value ∈ vs →
     branch csp a var value s = Ok ((na, ok), s') →
     domains_shrink s a s' na) ∧
  (∀ r s',
     valid_assignment s a → backtrack csp a s = Ok (Some r, s') →
     domains_shrink s a s' r).
Proof.
  split_and!.
  - intros i j b s' [Hstep _]%revise_spec.
    by eapply engine_step_domains_shrink.
  - intros q b s' Hstep%inference_spec.
    by eapply engine_step_domains_shrink.
  - intros var vs value na ok s'. apply branch_domains_shrink.
  - intros r s' Hvalid Hb. unfold backtrack in Hb.
    by apply backtrack_rec_domains_shrink in Hb as [_ Hsh].
Qed.

(** What does hold of a returned assignment: every variable of the graph
    has exactly one value in it. *)
Lemma backtrack_rec_complete csp fuel a s r s' :
  backtrack_rec csp fuel a s = Ok (Some r, s') →
  Forall (fun v => ∃ x, domain_of s' r v = Some [x]) (variables csp).
Proof.
  revert a s r s'. induction fuel as [|fuel IH]; intros a s r s'; [done|].
  simpl. intros Hb.
  apply bind_Ok in Hb as (u & s0 & Hincr & Hb).
  unfold incr_backtrack_counter in Hincr. simplify_eq.
  apply bind_Ok in Hb as (complete & s1 & Hall & Hb).
  apply all_assigned_Ok in Hall as [-> Hall]. destruct complete.
  { monad_inv Hb. by apply Hall. }
  apply bind_Ok in Hb as (var & s1 & Hsel & Hb).
  apply select_unassigned_variable_Ok in Hsel as [-> _].
  apply bind_Ok in Hb as (lv & s1 & Hlv & Hb). monad_inv Hlv.
  apply bind_Ok in Hb as (vs & s1 & Hvs & Hb). monad_inv Hvs.
  eapply (value_loop_inv (λ _, True)
    (λ r s', match r with
             | Some x => Forall (λ v, ∃ y, domain_of s' x v = Some [y])
                                (variables csp)
             | None => True
             end)) in Hb; [exact Hb| | |done].
  - intros s1 cur idx value r1 s2 _ _ _ Htry. destruct r1 as [x|]; [|done].
    unfold attempt in Htry.
    apply bind_Ok in Htry as ([na ok] & s1' & Hbranch & Htry).
    destruct ok; [|by monad_inv Htry]. by eapply IH.
  - done.
Qed.
End SearchTheorems.

(** * Propagation over consistent arcs *)

Section ConsistentArcs.
Context {Val : Type} {Val_eq_dec : EqDecision Val}.
Local Abbreviation State := (State Val).
Implicit Types (s : State) (csp : CSP Val) (a : nat) (i j : string).

Lemma unsupported_supported csp a i j x s ys f :
  domain_of s a j = Some ys → constraint_of csp i j = Some f →
  (∃ y, y ∈ ys ∧ f x y = true) →
  unsupported csp a i j x s = Ok (false, s).
Proof.
  intros Hys Hf (y & Hy & Hxy). unfold unsupported.
  rewrite (domain_of_getitem_read_list _ _ _ _ _ Hys).
  destruct ys as [|y0 ys]; [by apply elem_of_nil in Hy|].
  unfold constraint_of in Hf.
  destruct (od_get (constraints csp) i) as [ci|]; [|done]. simpl in Hf.
  unfold from_option, bind, ret. rewrite Hf. do 2 f_equal.
  apply not_true_is_false. intros Hall.
  rewrite forallb_forall in Hall. apply list_elem_of_In, Hall in Hy.
  by rewrite Hxy in Hy.
Qed.

Lemma revise_loop_consistent csp a i j li xs ys f s n :
  lists s !! li = Some xs → domain_of s a j = Some ys →
  constraint_of csp i j = Some f →
  (∀ x, x ∈ xs → ∃ y, y ∈ ys ∧ f x y = true) →
  ∀ idx revised, length xs ≤ n + idx →
    revise_loop csp a i j li n idx revised s = Ok (revised, s).
Proof.
  intros Hxs Hys Hf Hsup. induction n as [|n IH]; intros idx revised Hlen;
    rewrite revise_loop_unfold;
    rewrite (bind_eq _ _ s xs s) by (by apply read_list_Ok).
  - by rewrite lookup_ge_None_2 by lia.
  - destruct (xs !! idx) as [x|] eqn:Hx; [|done].
    rewrite (bind_eq _ _ s false s).
    + apply IH. lia.
    + eapply unsupported_supported; [done..|].
      apply Hsup. by eapply list_elem_of_lookup_2.
Qed.

Lemma revise_consistent csp a i j s :
  arc_consistent csp s a (i, j) → revise csp a i j s = Ok (false, s).
Proof.
  intros (xs & ys & f & Hxs & Hys & Hf & Hsup). simpl in *.
  unfold revise.
  apply domain_of_Some in Hxs as (m & li & Hm & Hli & Hxs).
  rewrite (bind_eq _ _ s li s) by (apply getitem_Ok; eauto).
  rewrite (bind_eq _ _ s xs s) by (by apply read_list_Ok).
  eapply revise_loop_consistent; [done..|lia].
Qed.

(** C8, amended.  When a first run of [inference] has left every arc of
    its queue consistent (the constraint of the arc is registered and
    every value of its first variable has a supporting value in its second
    variable), a second run on the resulting assignment with the same
    queue removes nothing (the state is unchanged) and returns [True]. *)
Theorem inference_again_noop csp a q s b s1 :
  inference csp a q s = Ok (b, s1) →
  Forall (arc_consistent csp s1 a) q →
  inference csp a q s1 = Ok (true, s1).
Proof.
  intros _ Hq. rewrite (inference_eq_loop _ _ (inference_fuel csp q s1)) by done.
  unfold inference_fuel. generalize (total_size (lists s1) * max_degree csp).
  intros extra. induction Hq as [|[i j] q Hij _ IH]; [by destruct extra|].
  simpl length. rewrite Nat.add_succ_l, inference_loop_cons.
  by rewrite (bind_eq _ _ _ _ _ (revise_consistent _ _ _ _ _ Hij)).
Qed.
End ConsistentArcs.

(** * The builder methods *)

Section BuilderFacts.
Context {Val : Type} {Val_eq_dec : EqDecision Val}.
Implicit Types (csp : CSP Val) (i j : string) (vs : list string).

Lemma od_set_NoDup {K V} `{EqDecision K} (d : list (K * V)) k v :
  NoDup (od_keys d) → NoDup (od_keys (od_set d k v)).
Proof.
  intros Hd. destruct (decide (k ∈ od_keys d)) as [Hk|Hk].
  - by rewrite od_keys_set_in.
  - rewrite od_keys_set_notin by done. apply NoDup_app. split_and!; [done| |].
    + intros k' Hk' ->%list_elem_of_singleton. done.
    + apply NoDup_singleton.
Qed.

Lemma od_set_elem {K V} `{EqDecision K} (d : list (K * V)) k v e :
  e ∈ od_set d k v → e = (k, v) ∨ e ∈ d.
Proof.
  induction d as [|[k' v'] d IH]; simpl.
  - intros ->%list_elem_of_singleton. by left.
  - destruct (decide (k = k')) as [->|Hne].
    + intros [->|He]%elem_of_cons; [by left|]. right. by apply list_elem_of_further.
    + intros [->|He]%elem_of_cons; [right; apply list_elem_of_here|].
      destruct (IH He) as [->|Hd]; [by left|]. right. by apply list_elem_of_further.
Qed.

Lemma od_get_elem_NoDup {K V} `{EqDecision K} (d : list (K * V)) k v :
  NoDup (od_keys d) → (k, v) ∈ d → od_get d k = Some v.
Proof.
  unfold od_keys. induction d as [|[k' v'] d IH]; csimpl.
  - intros _ He. by apply elem_of_nil in He.
  - intros [Hk' Hd]%NoDup_cons [[= -> ->]|He]%elem_of_cons.
    + by rewrite decide_True.
    + rewrite decide_False; [by apply IH|]. intros ->. apply Hk'.
      apply list_elem_of_fmap. by exists (k', v).
Qed.

Lemma constraint_of_set csp i ci j f i' j' :
  od_get (constraints csp) i = Some ci →
  constraint_of (mkCSP (variables csp) (domains csp)
                       (od_set (constraints csp) i (od_set ci j f))) i' j' =
  if decide (i' = i ∧ j' = j) then Some f else constraint_of csp i' j'.
Proof.
  intros Hci. unfold constraint_of. simpl.
  destruct (decide (i' = i)) as [->|Hi].
  - rewrite od_get_set_eq, Hci. simpl.
    destruct (decide (j' = j)) as [->|Hj].
    + rewrite decide_True by done. apply od_get_set_eq.
    + rewrite decide_False by tauto. by apply od_get_set_ne.
  - rewrite decide_False by tauto. by rewrite od_get_set_ne.
Qed.

(** [add_constraint_one_way]: the first registration of an arc wins. *)
Lemma add_constraint_one_way_spec csp i j f :
  registered csp i →
  ∃ csp',
    add_constraint_one_way csp i j f = Ok csp' ∧
    (∀ i' j', constraint_of csp' i' j' =
              if decide (i' = i ∧ j' = j) then
                match constraint_of csp i j with
                | Some g => Some g
                | None => Some f
                end
              else constraint_of csp i' j') ∧
    (∀ i', registered csp' i' ↔ registered csp i') ∧
    (wf_constraints csp → wf_constraints csp').
Proof.
  intros [ci Hci]. unfold add_constraint_one_way. rewrite Hci.
  assert (constraint_of csp i j = od_get ci j) as Hij.
  { unfold constraint_of. by rewrite Hci. }
  destruct (od_mem ci j) eqn:Hmem.
  - exists csp. split_and!; [done| |done..].
    intros i' j'. case_decide as Hd; [|done]. destruct Hd as [-> ->].
    rewrite Hij. unfold od_mem in Hmem. by destruct (od_get ci j).
  - eexists. split_and!; [done|..].
    + intros i' j'. rewrite (constraint_of_set _ _ _ _ _ _ _ Hci), Hij.
      unfold od_mem in Hmem. by destruct (od_get ci j).
    + intros i'. unfold registered. simpl.
      destruct (decide (i = i')) as [->|Hne].
      * rewrite od_get_set_eq, Hci. split; by eauto.
      * by rewrite od_get_set_ne.
    + intros [Hkeys Hinner]. split; simpl.
      * by apply od_set_NoDup.
      * apply Forall_forall. intros e [->|He]%od_set_elem.
        -- simpl. apply od_set_NoDup.
           apply od_get_Some_elem in Hci.
           by apply (proj1 (Forall_forall _ _) Hinner) in Hci.
        -- by apply (proj1 (Forall_forall _ _) Hinner).
Qed.

(** The builder methods keep the keys of the dictionaries distinct. *)
Lemma new_csp_wf (s s' : State Val) csp :
  new_csp s = Ok (csp, s') → wf_constraints csp.
Proof.
  unfold new_csp. intros Hn. apply bind_Ok in Hn as (d & s1 & _ & Hn).
  simplify_eq. split; simpl; constructor.
Qed.

Lemma add_variable_wf csp name domain (s s' : State Val) csp' :
  add_variable csp name domain s = Ok (csp', s') →
  wf_constraints csp → wf_constraints csp'.
Proof.
  unfold add_variable. intros Ha [Hkeys Hinner].
  apply bind_Ok in Ha as (l & s1 & _ & Ha).
  apply bind_Ok in Ha as (u & s2 & _ & Ha). monad_inv Ha. split; simpl.
  - by apply od_set_NoDup.
  - apply Forall_forall. intros e [->|He]%od_set_elem.
    + simpl. constructor.
    + by apply (proj1 (Forall_forall _ _) Hinner).
Qed.

Lemma add_all_different_pairs_spec (pairs : list arc) : ∀ csp,
  Forall (fun p => registered csp p.1) pairs →
  ∃ csp',
    add_all_different_pairs csp pairs = Ok csp' ∧
    (∀ i j, constraint_of csp' i j =
            match constraint_of csp i j with
            | Some g => Some g
            | None => if decide ((i, j) ∈ pairs ∧ i ≠ j)
                      then Some not_equal else None
            end) ∧
    (wf_constraints csp → wf_constraints csp').
Proof.
  induction pairs as [|[i0 j0] ps IH]; intros csp Hreg.
  { exists csp. split_and!; [done| |done]. intros i j.
    destruct (constraint_of csp i j); [done|].
    rewrite decide_False; [done|]. intros [[]%elem_of_nil _]. }
  apply Forall_cons in Hreg as [Hreg0 Hreg]. simpl in Hreg0. simpl.
  destruct (decide (i0 = j0)) as [->|Hne].
  - destruct (IH csp Hreg) as (csp' & Hadd & Hc & Hwf).
    exists csp'. split_and!; [done| |done]. intros i j. rewrite Hc.
    destruct (constraint_of csp i j); [done|].
    apply decide_ext. rewrite elem_of_cons. split; [tauto|].
    intros [[[= -> ->]|Hin] Hij]; [done | tauto].
  - destruct (add_constraint_one_way_spec csp i0 j0 not_equal Hreg0)
      as (csp1 & Hadd1 & Hc1 & Hreg1 & Hwf1).
    rewrite Hadd1. destruct (IH csp1) as (csp' & Hadd & Hc & Hwf).
    { eapply Forall_impl; [exact Hreg|]. intros p. apply Hreg1. }
    exists csp'. split_and!; [done| |by auto]. intros i j.
    rewrite Hc, Hc1. destruct (decide (i = i0 ∧ j = j0)) as [[-> ->]|Hd].
    + destruct (constraint_of csp i0 j0); [done|].
      rewrite decide_True; [done|]. split; [apply list_elem_of_here | done].
    + destruct (constraint_of csp i j); [done|].
      apply decide_ext. rewrite elem_of_cons. split; [tauto|].
      intros [[[= -> ->]|Hin] Hij]; [tauto | tauto].
Qed.
End BuilderFacts.

Section ArcCount.
Context {Val : Type} {Val_eq_dec : EqDecision Val}.
Implicit Types (csp : CSP Val) (i j : string) (vs : list string).

Lemma get_all_arcs_elem csp i j :
  wf_constraints csp →
  (i, j) ∈ get_all_arcs csp ↔ is_Some (constraint_of csp i j).
Proof.
  intros [Hkeys Hinner]. unfold get_all_arcs, constraint_of.
  rewrite list_elem_of_bind. split.
  - intros ([i' ci] & Hin & He). simpl in Hin.
    apply list_elem_of_fmap in Hin as (j' & [= <- <-] & Hj).
    rewrite (od_get_elem_NoDup _ _ _ Hkeys He). simpl.
    by apply od_get_is_Some_keys.
  - destruct (od_get (constraints csp) i) as [ci|] eqn:Hci; simpl;
      [|by intros [? ?]].
    intros Hj%od_get_is_Some_keys. exists (i, ci). split.
    + simpl. apply list_elem_of_fmap. by exists j.
    + by apply od_get_Some_elem.
Qed.

Lemma get_all_arcs_NoDup csp : wf_constraints csp → NoDup (get_all_arcs csp).
Proof.
  intros [Hkeys Hinner]. unfold get_all_arcs. apply NoDup_bind.
  - intros [i1 c1] [i2 c2] [i j] H1 H2. simpl.
    intros (j1 & [= -> ->] & _)%list_elem_of_fmap
           (j2 & [= -> ->] & _)%list_elem_of_fmap.
    f_equal.
    apply (od_get_elem_NoDup _ _ _ Hkeys) in H1, H2. congruence.
  - intros [i ci] He. simpl. apply NoDup_fmap_2; [apply _|].
    by apply (proj1 (Forall_forall _ _) Hinner) in He.
  - unfold od_keys in Hkeys. by apply NoDup_fmap_1 in Hkeys.
Qed.

Lemma get_all_possible_pairs_elem (a b : list string) (k : arc) :
  k ∈ get_all_possible_pairs a b ↔ k.1 ∈ a ∧ k.2 ∈ b.
Proof. apply (list_elem_of_cprod a b k). Qed.

Lemma get_all_possible_pairs_length (a b : list string) :
  length (get_all_possible_pairs a b) = length a * length b.
Proof.
  change (get_all_possible_pairs a b) with (cprod a b).
  rewrite list_cprod_list_prod. apply length_prod.
Qed.

Lemma get_all_possible_pairs_NoDup (a b : list string) :
  NoDup a → NoDup b → NoDup (get_all_possible_pairs a b).
Proof.
  intros Ha Hb. unfold get_all_possible_pairs. apply NoDup_bind; [|  |done].
  - intros x1 x2 [i j] _ _ (? & [= -> ->] & _)%list_elem_of_fmap
                          (? & [= -> ->] & _)%list_elem_of_fmap. done.
  - intros x _. by apply NoDup_fmap_2; [apply _|].
Qed.

(** The ordered pairs of distinct items of a list without duplicates. *)
Lemma distinct_pairs_length vs :
  NoDup vs →
  length (filter (fun k : arc => k.1 ≠ k.2) (get_all_possible_pairs vs vs)) =
  length vs * (length vs - 1).
Proof.
  intros Hvs.
  pose proof (filter_app_complement (fun k : arc => k.1 ≠ k.2)
                (get_all_possible_pairs vs vs)) as Hperm.
  apply Permutation_length in Hperm.
  rewrite length_app, get_all_possible_pairs_length in Hperm.
  assert (filter (λ k : arc, ¬ k.1 ≠ k.2) (get_all_possible_pairs vs vs)
          ≡ₚ (λ x, (x, x)) <$> vs) as Hdiag.
  { apply NoDup_Permutation.
    - by apply NoDup_filter, get_all_possible_pairs_NoDup.
    - apply NoDup_fmap_2_strong; [|done]. by intros x y _ _ [= ->].
    - intros [i j]. rewrite list_elem_of_filter, get_all_possible_pairs_elem,
        list_elem_of_fmap. simpl. split.
      + intros (Hij & Hi & Hj). exists i. split; [|done].
        f_equal. by destruct (decide (i = j)).
      + intros (x & [= -> ->] & Hx). split_and!; [|done..]. by intros Hne. }
  apply Permutation_length in Hdiag. rewrite length_fmap in Hdiag.
  rewrite Nat.mul_sub_distr_l. lia.
Qed.

(** C9, amended.  On a graph whose dictionaries have distinct keys, for a
    list [vs] of [n] distinct registered variables,
    [add_all_different_constraint] succeeds and leaves exactly [n * (n - 1)]
    arcs between distinct variables of [vs], one for each ordered pair.
    An ordered pair that had no constraint gets [not_equal]; a pair that
    was registered before keeps the predicate it had; arcs that do not
    join two distinct variables of [vs] are as before. *)
Theorem add_all_different_constraint_arcs csp vs :
  wf_constraints csp → NoDup vs → Forall (registered csp) vs →
  ∃ csp',
    add_all_different_constraint csp vs = Ok csp' ∧
    length (filter (among vs) (get_all_arcs csp')) =
      length vs * (length vs - 1) ∧
    (∀ i j, among vs (i, j) →
            constraint_of csp' i j =
              match constraint_of csp i j with
              | Some g => Some g
              | None => Some not_equal
              end) ∧
    (∀ i j, ¬ among vs (i, j) →
            constraint_of csp' i j = constraint_of csp i j).
Proof.
  intros Hwf Hvs Hreg. unfold add_all_different_constraint.
  destruct (add_all_different_pairs_spec (get_all_possible_pairs vs vs) csp)
    as (csp' & Hadd & Hc & Hwf').
  { apply Forall_forall. intros [i j] [Hi _]%get_all_possible_pairs_elem.
    by apply (proj1 (Forall_forall _ _) Hreg). }
  specialize (Hwf' Hwf). exists csp'.
  assert (∀ i j, among vs (i, j) →
            constraint_of csp' i j =
              match constraint_of csp i j with
              | Some g => Some g
              | None => Some not_equal
              end) as Hin.
  { intros i j (Hi & Hj & Hij). simpl in *. rewrite Hc.
    destruct (constraint_of csp i j); [done|].
    rewrite decide_True; [done|]. split; [|done].
    by apply get_all_possible_pairs_elem. }
  split_and!; [done| |done|].
  - rewrite <- (distinct_pairs_length vs Hvs). apply Permutation_length.
    apply NoDup_Permutation.
    + by apply NoDup_filter, get_all_arcs_NoDup.
    + by apply NoDup_filter, get_all_possible_pairs_NoDup.
    + intros [i j]. rewrite !list_elem_of_filter, get_all_possible_pairs_elem,
        get_all_arcs_elem by done. unfold among. simpl. split.
      * intros [(Hi & Hj & Hij) _]. done.
      * intros (Hij & Hi & Hj). split; [done|].
        rewrite (Hin i j) by done. by destruct (constraint_of csp i j).
  - intros i j Hout. rewrite Hc. destruct (constraint_of csp i j); [done|].
    rewrite decide_False; [done|].
    intros [[Hi Hj]%get_all_possible_pairs_elem Hij]. by apply Hout.
Qed.
End ArcCount.

(** * Termination of the search *)

Section Termination.
Context {Val : Type} {Val_eq_dec : EqDecision Val}.
Local Abbreviation State := (State Val).
Local Abbreviation M := (M Val).
Implicit Types (s : State) (csp : CSP Val) (a : nat) (v : string).

Lemma fuel_safe_bind {A B} (c : M A) (k : A → M B) :
  fuel_safe c → (∀ x, fuel_safe (k x)) → fuel_safe (bind c k).
Proof.
  intros Hc Hk s [Hr|(x & s1 & _ & Hr)]%bind_Raise; [by apply Hc in Hr|].
  by apply Hk in Hr.
Qed.

Lemma fuel_safe_ret {A} (x : A) : fuel_safe (ret x : M A).
Proof. done. Qed.

Lemma fuel_safe_from_option {A} e (o : option A) :
  e ≠ OutOfFuel → fuel_safe (from_option e o : M A).
Proof. intros He s Hr%from_option_Raise. congruence. Qed.

Lemma fuel_safe_from_res {A} (r : Res A) :
  r ≠ Raise OutOfFuel → fuel_safe (from_res r : M A).
Proof. intros He s Hr%from_res_Raise. congruence. Qed.

Lemma fuel_safe_read_list l : fuel_safe (read_list l : M (list Val)).
Proof. by intros s Hr%read_list_Raise. Qed.

Lemma fuel_safe_alloc_list xs : fuel_safe (alloc_list xs : M nat).
Proof. done. Qed.

Lemma fuel_safe_alloc_dict m : fuel_safe (alloc_dict m : M nat).
Proof. done. Qed.

Lemma fuel_safe_getitem d k : fuel_safe (getitem d k : M nat).
Proof. by intros s [Hr|Hr]%getitem_Raise. Qed.

Lemma fuel_safe_setitem d k l : fuel_safe (setitem d k l : M unit).
Proof. by intros s Hr%setitem_Raise. Qed.

Lemma fuel_safe_inference csp a q : fuel_safe (inference csp a q).
Proof. intros s. apply inference_fuel_error. Qed.

Lemma get_all_neighboring_arcs_error csp var :
  get_all_neighboring_arcs csp var ≠ Raise OutOfFuel.
Proof.
  unfold get_all_neighboring_arcs. by destruct (od_get (constraints csp) var).
Qed.

Lemma fuel_safe_deepcopy_items items memo :
  fuel_safe (deepcopy_items items memo : M (list (string * nat))).
Proof.
  revert memo. induction items as [|[k l] items IH]; intros memo; simpl.
  - apply fuel_safe_ret.
  - destruct (od_get memo l).
    + apply fuel_safe_bind; [apply IH|]. intros. apply fuel_safe_ret.
    + apply fuel_safe_bind; [apply fuel_safe_read_list|]. intros xs.
      apply fuel_safe_bind; [apply fuel_safe_alloc_list|]. intros l'.
      apply fuel_safe_bind; [apply IH|]. intros. apply fuel_safe_ret.
Qed.

Lemma fuel_safe_deepcopy d : fuel_safe (deepcopy d : M nat).
Proof.
  unfold deepcopy, read_dict.
  apply fuel_safe_bind; [by intros s Hr%read_dict_Raise|]. intros items.
  apply fuel_safe_bind; [apply fuel_safe_deepcopy_items|]. intros.
  apply fuel_safe_alloc_dict.
Qed.

Lemma fuel_safe_branch csp a var value : fuel_safe (branch csp a var value).
Proof.
  unfold branch.
  apply fuel_safe_bind; [apply fuel_safe_deepcopy|]. intros na.
  apply fuel_safe_bind; [apply fuel_safe_alloc_list|]. intros l.
  apply fuel_safe_bind; [apply fuel_safe_setitem|]. intros _.
  apply fuel_safe_bind;
    [apply fuel_safe_from_res, get_all_neighboring_arcs_error|]. intros arcs.
  apply fuel_safe_bind; [apply fuel_safe_inference|]. intros ok.
  apply fuel_safe_ret.
Qed.

Lemma fuel_safe_all_assigned a vars :
  fuel_safe (all_assigned a vars : M bool).
Proof.
  induction vars as [|v vars IH]; simpl; [apply fuel_safe_ret|].
  apply fuel_safe_bind; [apply fuel_safe_getitem|]. intros l.
  apply fuel_safe_bind; [apply fuel_safe_read_list|]. intros xs.
  destruct (decide (length xs = 1)); [apply IH | apply fuel_safe_ret].
Qed.

Lemma fuel_safe_unassigned_vars a vars :
  fuel_safe (unassigned_vars a vars : M (list string)).
Proof.
  induction vars as [|v vars IH]; simpl; [apply fuel_safe_ret|].
  apply fuel_safe_bind; [apply fuel_safe_getitem|]. intros l.
  apply fuel_safe_bind; [apply fuel_safe_read_list|]. intros xs.
  apply fuel_safe_bind; [apply IH|]. intros. apply fuel_safe_ret.
Qed.

Lemma fuel_safe_keyed a vars :
  fuel_safe (keyed a vars : M (list (string * nat))).
Proof.
  induction vars as [|v vars IH]; simpl; [apply fuel_safe_ret|].
  apply fuel_safe_bind; [apply fuel_safe_getitem|]. intros l.
  apply fuel_safe_bind; [apply fuel_safe_read_list|]. intros xs.
  apply fuel_safe_bind; [apply IH|]. intros. apply fuel_safe_ret.
Qed.

Lemma fuel_safe_select_unassigned_variable csp a :
  fuel_safe (select_unassigned_variable csp a).
Proof.
  unfold select_unassigned_variable.
  apply fuel_safe_bind; [apply fuel_safe_unassigned_vars|]. intros us.
  apply fuel_safe_bind; [apply fuel_safe_keyed|]. intros [|[v k] ks]; [done|].
  apply fuel_safe_ret.
Qed.

(** The value loop does not exhaust its budget when the list it walks
    does not change. *)
Lemma value_loop_fuel (I : State → Prop) (try : Val → M (option nat)) lv vs n :
  (∀ s, I s → lists s !! lv = Some vs) →
  (∀ s value, I s → try value s ≠ Raise OutOfFuel) →
  (∀ s value s', I s → try value s = Ok (None, s') → I s') →
  ∀ idx s, I s → length vs ≤ n + idx →
           value_loop try lv n idx s ≠ Raise OutOfFuel.
Proof.
  intros Hlv Htry Hkeep. induction n as [|n IH]; intros idx s HI Hlen;
    rewrite value_loop_unfold;
    rewrite (bind_eq _ _ s vs s) by (apply read_list_Ok; split; [by apply Hlv|done]).
  - by rewrite lookup_ge_None_2 by lia.
  - destruct (vs !! idx) as [value|]; [|done].
    intros [Hr|([r|] & s1 & Hok & Hr)]%bind_Raise; [by apply Htry in Hr|done|].
    revert Hr. apply IH; [by eapply Hkeep | lia].
Qed.

Lemma filter_length_lt {A} (P Q : A → Prop)
    `{!∀ x, Decision (P x)} `{!∀ x, Decision (Q x)} (xs : list A) x0 :
  (∀ x, Q x → P x) → x0 ∈ xs → P x0 → ¬ Q x0 →
  length (filter Q xs) < length (filter P xs).
Proof.
  intros HQP Hin HP HQ. induction xs as [|x xs IH]; [by apply elem_of_nil in Hin|].
  assert (length (filter Q xs) ≤ length (filter P xs)) as Hle.
  { clear IH Hin. induction xs as [|y xs IH]; [done|].
    rewrite !filter_cons.
    destruct (decide (Q y)), (decide (P y)); simpl; try lia. naive_solver. }
  rewrite !filter_cons. apply elem_of_cons in Hin as [<-|Hin].
  - rewrite (decide_False (P := Q x0)), (decide_True (P := P x0)) by done.
    simpl. lia.
  - specialize (IH Hin).
    destruct (decide (Q x)), (decide (P x)); simpl; try lia. naive_solver.
Qed.

(** A branch decides the selected variable and undecides none. *)
Lemma branch_undecided csp a var value s na ok s' :
  valid_assignment s a → var ∈ variables csp → 1 < domain_len s a var →
  branch csp a var value s = Ok ((na, ok), s') →
  undecided csp s' na < undecided csp s a.
Proof.
  intros Hvalid Hvar Hlen Hbranch.
  apply branch_spec in Hbranch as (_ & _ & _ & _ & Hsel & Hother).
  unfold undecided. apply (filter_length_lt _ _ _ var); [|done..|].
  - intros v. unfold domain_len.
    destruct (domain_of s' na v) as [xs'|] eqn:Hxs'; [|lia].
    destruct (decide (v = var)) as [->|Hne].
    + apply Hsel, sublist_length in Hxs'. simpl in Hxs'. lia.
    + destruct (Hother Hvalid _ _ Hne Hxs') as (xs & -> & Hsub).
      apply sublist_length in Hsub. lia.
  - unfold domain_len. destruct (domain_of s' na var) as [xs'|]; [|lia].
    specialize (Hsel _ eq_refl). apply sublist_length in Hsel.
    simpl in Hsel. lia.
Qed.

(** The recursion of [backtrack] is no deeper than the number of
    undecided variables. *)
Lemma backtrack_rec_fuel csp fuel a s :
  valid_assignment s a → undecided csp s a < fuel →
  backtrack_rec csp fuel a s ≠ Raise OutOfFuel.
Proof.
  revert a s. induction fuel as [|fuel IH]; intros a s Hvalid Hfuel; [lia|].
  simpl. intros [Hr|(u & s0 & Hincr & Hr)]%bind_Raise; [done|].
  unfold incr_backtrack_counter in Hincr. simplify_eq.
  set (s0 := mkState _ _ _ _) in *.
  assert (valid_assignment s0 a) as Hvalid0 by done.
  assert (undecided csp s0 a = undecided csp s a) as Hund by done.
  apply bind_Raise in Hr as [Hr|(complete & s1 & Hall & Hr)];
    [by apply fuel_safe_all_assigned in Hr|].
  apply all_assigned_Ok in Hall as [-> _]. destruct complete; [done|].
  apply bind_Raise in Hr as [Hr|(var & s1 & Hsel & Hr)];
    [by apply fuel_safe_select_unassigned_variable in Hr|].
  apply select_unassigned_variable_Ok in Hsel
    as (-> & pre & post & Hvars & Hlen & _).
  apply bind_Raise in Hr as [Hr|(lv & s1 & Hlv & Hr)];
    [by apply fuel_safe_getitem in Hr|].
  apply bind_Raise in Hr as [Hr|(vs & s2 & Hvs & Hr)];
    [by apply fuel_safe_read_list in Hr|].
  monad_inv Hlv. monad_inv Hvs.
  revert Hr. apply (value_loop_fuel (extends s0) _ lv vs);
    [| | |apply extends_refl|lia].
  - intros s1 [Hl _]. by apply Hl.
  - intros s1 value Hext. unfold attempt.
    intros [Hr|([na ok] & s1' & Hbranch & Hr)]%bind_Raise;
      [by apply fuel_safe_branch in Hr|].
    destruct ok; [|done].
    destruct (valid_assignment_extends _ _ _ Hvalid0 Hext) as [Hvalid1 Hsame].
    assert (undecided csp s1' na < undecided csp s1 a) as Hlt.
    { eapply branch_undecided; [done| |by unfold domain_len; rewrite Hsame|done].
      rewrite Hvars. apply elem_of_app. right. apply list_elem_of_here. }
    assert (undecided csp s1 a = undecided csp s0 a) as Hsame1.
    { unfold undecided, domain_len. f_equal. apply list_filter_iff.
      intros v. by rewrite Hsame. }
    apply branch_spec in Hbranch as (_ & Hvalidna & _).
    revert Hr. apply IH; [done | lia].
  - intros s1 value s2 Hext Htry.
    apply attempt_extends in Htry; [|apply backtrack_rec_extends].
    by eapply extends_trans.
Qed.

(** [backtrack] and [backtracking_search] end: with a value, or with a
    Python exception, never for lack of fuel. *)
Theorem backtrack_terminates csp a s :
  valid_assignment s a → backtrack csp a s ≠ Raise OutOfFuel.
Proof.
  intros Hvalid. apply backtrack_rec_fuel; [done|].
  unfold undecided. pose proof (length_filter
    (λ v, 1 < domain_len s a v) (variables csp)). lia.
Qed.

Theorem backtracking_search_terminates csp s :
  backtracking_search csp s ≠ Raise OutOfFuel.
Proof.
  unfold backtracking_search.
  intros [Hr|(a & s1 & Hcopy & Hr)]%bind_Raise;
    [by apply fuel_safe_deepcopy in Hr|].
  apply bind_Raise in Hr as [Hr|(ok & s2 & Hinf & Hr)];
    [by apply fuel_safe_inference in Hr|].
  revert Hr. apply backtrack_terminates.
  apply deepcopy_spec in Hcopy as (_ & _ & _ & -> & Hlen & Hfresh & _).
  apply inference_spec in Hinf as Hstep.
  assert (is_Some (dicts s1 !! length (dicts s))) as [m Hm].
  { apply lookup_lt_is_Some_2. lia. }
  exists m. split; [by rewrite (proj1 Hstep)|].
  intros k l Hk. rewrite (engine_step_length _ _ _ Hstep).
  apply Hfresh. by exists m, k.
Qed.
End Termination.

(** * The concrete graphs *)

(** The builder calls produce the records and stores given above. *)
Lemma build_less_than_result :
  build_less_than empty_state = Ok (less_than_csp, less_than_state).
Proof. reflexivity. Qed.

Lemma build_same_value_result :
  build_same_value empty_state = Ok (same_value_csp, same_value_state).
Proof. reflexivity. Qed.

Lemma build_one_way_result :
  build_one_way empty_state = Ok (one_way_csp, one_way_state).
Proof. reflexivity. Qed.

Lemma build_not_converse_result :
  build_not_converse empty_state = Ok (not_converse_csp, not_converse_state).
Proof. reflexivity. Qed.

Lemma build_pair_result : build_pair empty_state = Ok (pair_csp, pair_state).
Proof. reflexivity. Qed.

Lemma build_three_result : build_three empty_state = Ok (three_csp, three_state).
Proof. reflexivity. Qed.

Lemma build_registered_twice_result :
  build_registered_twice = Ok registered_twice_csp.
Proof. reflexivity. Qed.

(** C1 (the code departs from the claim).  On the graph [A < B] with
    [A] in [[3, 4, 1]] and [B] in [[2, 3]], [backtracking_search] returns
    an assignment in which every variable has one value, [A = 4] and
    [B = 3], and the predicate registered for [A -> B] rejects the pair
    [(4, 3)]. *)
Theorem backtracking_search_returns_violation :
  backtracking_search less_than_csp less_than_state
    = Ok (Some 2, less_than_searched) ∧
  domain_of less_than_searched 2 "A" = Some [4%Z] ∧
  domain_of less_than_searched 2 "B" = Some [3%Z] ∧
  ∃ f, constraint_of less_than_csp "A" "B" = Some f ∧ f 4%Z 3%Z = false.
Proof. split_and!; [reflexivity..|]. by exists Z.ltb. Qed.

(** C2 (the code departs from the claim).  On the same graph one call
    [revise(assignment, "A", "B")] removes 3, reports a removal, and leaves
    4 in the domain of [A] although no value of [B] is above 4: the loop
    steps over the value that follows a removed one. *)
Theorem revise_skips_after_removal :
  revise less_than_csp 0 "A" "B" less_than_state = Ok (true, less_than_revised) ∧
  domain_of less_than_revised 0 "A" = Some [4; 1]%Z ∧
  domain_of less_than_revised 0 "B" = Some [2; 3]%Z ∧
  ∃ f, constraint_of less_than_csp "A" "B" = Some f ∧
       forallb (fun y => negb (f 4%Z y)) [2; 3]%Z = true.
Proof. split_and!; [reflexivity..|]. by exists Z.ltb. Qed.

(** C3 (the code departs from the claim).  With two variables that hold
    the single value 1 and must differ, the first propagation empties a
    domain; [backtracking_search] ignores its verdict, finds no variable
    with more than one value and raises [ValueError] from [min]. *)
Theorem backtracking_search_raises_on_wipeout :
  (assignment <- deepcopy (domains same_value_csp) ;;
   inference same_value_csp assignment (get_all_arcs same_value_csp))
    same_value_state
    = Ok (false, mkState [[1]; [1]; []; [1]]%Z
                         [[("A", 0); ("B", 1)]; [("A", 2); ("B", 3)]] 0 0) ∧
  backtracking_search same_value_csp same_value_state = Raise ValueError.
Proof. split; reflexivity. Qed.

(** C10 (the code departs from the claim).  With [A != B] registered in
    the direction [A -> B] only, the branch on [A] queues the arc
    [(B, A)], for which nothing is registered, and [revise] raises
    [KeyError]; so does [backtracking_search]. *)
Theorem backtracking_search_raises_on_one_way :
  get_all_neighboring_arcs one_way_csp "A" = Ok [("B", "A")] ∧
  constraint_of one_way_csp "B" "A" = None ∧
  revise one_way_csp 0 "B" "A" one_way_state = Raise KeyError ∧
  backtracking_search one_way_csp one_way_state = Raise KeyError.
Proof. split_and!; reflexivity. Qed.

(** C8 as stated fails.  With [A] in [[1]], [B] in [[1, 2]] and two
    predicates that are not each other's converse, a first run of
    [inference] over all arcs returns [True] and leaves [A = [1]],
    [B = [1]]; a second run with the same queue removes the value of [A]
    and returns [False]. *)
Lemma inference_second_run_removes :
  inference not_converse_csp 0 (get_all_arcs not_converse_csp) not_converse_state
    = Ok (true, not_converse_once) ∧
  inference not_converse_csp 0 (get_all_arcs not_converse_csp) not_converse_once
    = Ok (false, not_converse_twice) ∧
  domain_of not_converse_once 0 "A" = Some [1%Z] ∧
  domain_of not_converse_twice 0 "A" = Some [].
Proof. split_and!; reflexivity. Qed.

(** C9 as stated fails.  When [A -> B] was registered with a predicate
    that accepts every pair, [add_all_different_constraint(["A", "B"])]
    keeps that predicate: the constraint of the ordered pair [(A, B)]
    accepts [(1, 1)], which [not_equal] rejects. *)
Lemma add_all_different_keeps_earlier_predicate :
  build_registered_twice = Ok registered_twice_csp ∧
  ∃ f, constraint_of registered_twice_csp "A" "B" = Some f ∧
       f 1%Z 1%Z = true ∧ not_equal 1%Z 1%Z = false.
Proof. split; [reflexivity|]. by exists accept_all. Qed.

(** * Instances of the theorems *)

Lemma valid_assignment_pair_state : valid_assignment pair_state 0.
Proof.
  exists [("A", 0); ("B", 1)]. split; [reflexivity|].
  intros k l Hk. simpl in Hk. repeat case_decide; simplify_eq; simpl; lia.
Defined.

Lemma attempt_isolated_witness :
  attempt (backtrack_rec same_value_csp 3) same_value_csp 0 "A" 1%Z
          same_value_state = Ok (None, same_value_failed) ∧
  extends same_value_state same_value_failed ∧
  (∀ v xs, domain_of same_value_state 0 v = Some xs →
           domain_of same_value_failed 0 v = Some xs).
Proof.
  split; [reflexivity|].
  apply (attempt_isolated same_value_csp 3 0 "A" 1%Z same_value_state None).
  reflexivity.
Defined.

Lemma select_unassigned_variable_mrv_witness :
  Forall (fun v => is_Some (domain_of three_state 0 v)) (variables three_csp) ∧
  Exists (fun v => 1 < domain_len three_state 0 v) (variables three_csp) ∧
  ∃ v pre post,
    select_unassigned_variable three_csp 0 three_state = Ok (v, three_state) ∧
    variables three_csp = pre ++ v :: post ∧
    1 < domain_len three_state 0 v ∧
    (∀ u, u ∈ variables three_csp → 1 < domain_len three_state 0 u →
          domain_len three_state 0 v ≤ domain_len three_state 0 u) ∧
    (∀ u, u ∈ pre → 1 < domain_len three_state 0 u →
          domain_len three_state 0 v < domain_len three_state 0 u).
Proof.
  assert (Forall (fun v => is_Some (domain_of three_state 0 v))
                 (variables three_csp)) as Hall.
  { repeat (constructor; [by eexists|]). constructor. }
  assert (Exists (fun v => 1 < domain_len three_state 0 v)
                 (variables three_csp)) as Hex.
  { apply Exists_cons_hd. vm_compute. lia. }
  split_and!; [exact Hall | exact Hex |].
  exact (select_unassigned_variable_mrv three_csp 0 three_state Hall Hex).
Defined.

Lemma domains_only_shrink_witness :
  (revise pair_csp 0 "A" "B" pair_state = Ok (true, pair_revised) ∧
   domains_shrink pair_state 0 pair_revised 0) ∧
  (inference pair_csp 0 (get_all_arcs pair_csp) pair_state
     = Ok (true, pair_revised) ∧
   domains_shrink pair_state 0 pair_revised 0) ∧
  (branch pair_csp 0 "A" 2%Z pair_state = Ok ((1, true), pair_branched) ∧
   domains_shrink pair_state 0 pair_branched 1) ∧
  (backtrack pair_csp 0 pair_state = Ok (Some 2, pair_searched) ∧
   domains_shrink pair_state 0 pair_searched 2).
Proof.
  destruct (domains_only_shrink pair_csp 0 pair_state)
    as (Hrevise & Hinference & Hbranch & Hbacktrack).
  split_and!; try reflexivity.
  - apply (Hrevise "A" "B" true). reflexivity.
  - apply (Hinference (get_all_arcs pair_csp) true). reflexivity.
  - apply (Hbranch "A" [1; 2]%Z 2%Z 1 true).
    + exact valid_assignment_pair_state.
    + reflexivity.
    + apply list_elem_of_further, list_elem_of_here.
    + reflexivity.
  - apply Hbacktrack; [exact valid_assignment_pair_state | reflexivity].
Defined.

Lemma inference_again_noop_witness :
  inference pair_csp 0 (get_all_arcs pair_csp) pair_state
    = Ok (true, pair_revised) ∧
  Forall (arc_consistent pair_csp pair_revised 0) (get_all_arcs pair_csp) ∧
  inference pair_csp 0 (get_all_arcs pair_csp) pair_revised
    = Ok (true, pair_revised).
Proof.
  assert (Forall (arc_consistent pair_csp pair_revised 0)
                 (get_all_arcs pair_csp)) as Hq.
  { constructor; [|constructor; [|constructor]].
    - exists [2%Z], [1%Z], not_equal. split_and!; [reflexivity..|].
      intros x ->%list_elem_of_singleton. exists 1%Z.
      split; [apply list_elem_of_here | reflexivity].
    - exists [1%Z], [2%Z], not_equal. split_and!; [reflexivity..|].
      intros x ->%list_elem_of_singleton. exists 2%Z.
      split; [apply list_elem_of_here | reflexivity]. }
  split_and!; [reflexivity | exact Hq |].
  apply (inference_again_noop pair_csp 0 (get_all_arcs pair_csp) pair_state
           true pair_revised); [reflexivity | exact Hq].
Defined.

Lemma add_all_different_constraint_arcs_witness :
  ∃ csp',
    add_all_different_constraint two_variables ["A"; "B"] = Ok csp' ∧
    length (filter (among ["A"; "B"]) (get_all_arcs csp')) = 2 * (2 - 1) ∧
    (∀ i j, among ["A"; "B"] (i, j) →
            constraint_of csp' i j =
              match constraint_of two_variables i j with
              | Some g => Some g
              | None => Some not_equal
              end) ∧
    (∀ i j, ¬ among ["A"; "B"] (i, j) →
            constraint_of csp' i j = constraint_of two_variables i j).
Proof.
  apply (add_all_different_constraint_arcs two_variables ["A"; "B"]).
  - split; [|repeat constructor]; simpl.
    apply NoDup_cons. split; [by intros ?%list_elem_of_singleton|].
    apply NoDup_singleton.
  - apply NoDup_cons. split; [by intros ?%list_elem_of_singleton|].
    apply NoDup_singleton.
  - repeat (constructor; [by eexists|]). constructor.
Defined.

(** * Further properties of the class *)

(** ** [revise]: what it changes, when it raises, what it leaves *)

Section ReviseMore.
Context {Val : Type} {Val_eq_dec : EqDecision Val}.
Local Abbreviation State := (State Val).
Local Abbreviation M := (M Val).
Implicit Types (s : State) (csp : CSP Val) (a : nat) (i j : string).


Lemma list_remove_first_is_Some {A} `{EqDecision A} (x : A) (xs : list A) :
  x ∈ xs → is_Some (list_remove_first x xs).
Proof.
  induction xs as [|y xs IH]; simpl.
  - intros Hx. by apply elem_of_nil in Hx.
  - intros Hx. destruct (decide (x = y)) as [->|Hne]; [by eauto|].
    apply elem_of_cons in Hx as [?|Hx]; [done|].
    destruct (IH Hx) as [r ->]. by eauto.
Qed.

(** Inside [revise], [assignment[i]] is always the list the loop walks. *)
Lemma revise_loop_frame csp a i j li m n : ∀ idx revised s b s',
  dicts s !! a = Some m → od_get m i = Some li →
  revise_loop csp a i j li n idx revised s = Ok (b, s') →
  ∀ l, l ≠ li → lists s' !! l = lists s !! l.
Proof.
  induction n as [|n IH]; intros idx revised s b s' Hm Hi;
    rewrite revise_loop_unfold; intros Hr;
    apply bind_Ok in Hr as (xs & s0 & Hxs & Hr); monad_inv Hxs.
  - destruct (xs !! idx); monad_inv Hr. done.
  - destruct (xs !! idx) as [x|]; [|by monad_inv Hr].
    apply bind_Ok in Hr as (u & s0 & Hu & Hr).
    apply unsupported_Ok in Hu as [-> _]. destruct u.
    + apply bind_Ok in Hr as (l0 & s0 & Hl0 & Hr).
      apply getitem_Ok in Hl0 as [(m' & Hm' & Hl0) ->]. simplify_eq.
      apply bind_Ok in Hr as (ys & s0 & Hys & Hr). monad_inv Hys.
      apply bind_Ok in Hr as (ys' & s0 & Hys' & Hr). monad_inv Hys'.
      apply bind_Ok in Hr as (u & s0 & Hw & Hr). monad_inv Hw.
      intros l Hl. eapply IH in Hr; [rewrite Hr| exact Hm | exact Hi | exact Hl].
      simpl. by apply list_lookup_insert_ne.
    + by eapply IH.
Qed.

(** X1.  A call [revise(assignment, i, j)] that returns changes one
    object only, the list [assignment[i]], of which it keeps a
    sub-sequence; every other list, every dictionary and both counters are
    as before.  It returns [True] exactly when [assignment[i]] got
    shorter, and when it returns [False] the store is unchanged. *)
Theorem revise_effect csp a i j s b s' :
  revise csp a i j s = Ok (b, s') →
  ∃ m li xs xs',
    dicts s !! a = Some m ∧ od_get m i = Some li ∧
    lists s !! li = Some xs ∧ lists s' !! li = Some xs' ∧
    xs' `sublist_of` xs ∧
    (b = true ↔ length xs' < length xs) ∧
    (b = false → s' = s) ∧
    (∀ l, l ≠ li → lists s' !! l = lists s !! l) ∧
    dicts s' = dicts s ∧
    backtrack_counter s' = backtrack_counter s ∧
    backtrack_failure_counter s' = backtrack_failure_counter s.
Proof.
  intros Hrev. pose proof Hrev as Hspec.
  apply revise_spec in Hspec as [Hstep Hb].
  unfold revise in Hrev.
  apply bind_Ok in Hrev as (li & s0 & Hli & Hrev).
  apply getitem_Ok in Hli as [(m & Hm & Hli) ->].
  apply bind_Ok in Hrev as (xs & s0 & Hxs & Hrev). monad_inv Hxs.
  pose proof (revise_loop_frame _ _ _ _ _ _ _ _ _ _ _ _ Hm Hli Hrev) as Hframe.
  destruct (engine_step_list_fwd _ _ _ _ _ Hstep Hxs) as (xs' & Hxs' & Hsub).
  exists m, li, xs, xs'.
  destruct Hstep as (Hd & Hc & Hf & Hall & _).
  split_and!; try done.
  - split.
    + intros ->.
      assert (lists s' = <[li := xs']> (lists s)) as Heq.
      { apply list_eq. intros l. destruct (decide (l = li)) as [->|Hne].
        - rewrite list_lookup_insert_eq; [done|]. by eapply lookup_lt_Some.
        - rewrite list_lookup_insert_ne by done. by apply Hframe. }
      pose proof (total_size_insert (lists s) li xs xs' Hxs) as Hsz.
      rewrite <- Heq in Hsz. lia.
    + intros Hlen. destruct b; [done|]. subst s'. simplify_eq. lia.
  - intros ->. done.
Qed.

(** The loop of [revise] runs to its end when the lists of [i] and [j]
    exist and either the constraint is registered or the list of [j] is
    another list and is empty. *)
Lemma revise_loop_total csp a i j m li lj n : ∀ idx revised s xs,
  dicts s !! a = Some m → od_get m i = Some li → od_get m j = Some lj →
  lists s !! li = Some xs → is_Some (lists s !! lj) →
  is_Some (constraint_of csp i j) ∨ (lj ≠ li ∧ lists s !! lj = Some []) →
  length xs ≤ n + idx →
  ∃ b s', revise_loop csp a i j li n idx revised s = Ok (b, s').
Proof.
  induction n as [|n IH]; intros idx revised s xs Hm Hi Hj Hxs [ys Hys] Hc Hlen;
    rewrite revise_loop_unfold;
    rewrite (bind_eq _ _ s xs s) by (by apply read_list_Ok).
  - rewrite lookup_ge_None_2 by lia. by eauto.
  - destruct (xs !! idx) as [x|] eqn:Hx; [|by eauto].
    assert (∃ u, unsupported csp a i j x s = Ok (u, s)) as [u Hu].
    { unfold unsupported.
      rewrite (bind_eq _ _ s lj s) by (apply getitem_Ok; eauto).
      rewrite (bind_eq _ _ s ys s) by (by apply read_list_Ok).
      destruct ys as [|y ys]; [by eauto|].
      destruct Hc as [[f Hf]|[_ Hnil]]; [|congruence].
      unfold constraint_of in Hf.
      destruct (od_get (constraints csp) i) as [ci|]; [|done]. simpl in Hf.
      unfold from_option, bind, ret. rewrite Hf. by eauto. }
    rewrite (bind_eq _ _ _ _ _ Hu). destruct u.
    + rewrite (bind_eq _ _ s li s) by (apply getitem_Ok; eauto).
      rewrite (bind_eq _ _ s xs s) by (by apply read_list_Ok).
      destruct (list_remove_first_is_Some x xs) as [xs' Hxs'];
        [by eapply list_elem_of_lookup_2|].
      rewrite Hxs'. unfold from_option at 1.
      rewrite (bind_eq _ _ s xs' s) by done.
      set (s1 := with_lists s (<[li := xs']> (lists s))).
      rewrite (bind_eq _ _ s tt s1) by (apply write_list_Ok; eauto).
      destruct (list_remove_first_sublist _ _ _ Hxs') as [_ Hlen'].
      assert (lists s1 !! li = Some xs') as Hli1.
      { simpl. apply list_lookup_insert_eq. by eapply lookup_lt_Some. }
      apply (IH _ _ s1 xs'); try done.
      * destruct (decide (lj = li)) as [->|Hne]; [by eauto|].
        simpl. rewrite list_lookup_insert_ne by done. by eauto.
      * destruct Hc as [Hc|[Hne Hnil]]; [by left|]. right. split; [done|].
        simpl. by rewrite list_lookup_insert_ne.
      * lia.
    + by eapply IH; eauto; lia.
Qed.

Lemma revise_total csp a i j s xs ys :
  domain_of s a i = Some xs → domain_of s a j = Some ys →
  is_Some (constraint_of csp i j) ∨ (xs ≠ [] ∧ ys = []) →
  ∃ b s', revise csp a i j s = Ok (b, s').
Proof.
  intros (m & li & Hm & Hi & Hxs)%domain_of_Some
         (m' & lj & Hm' & Hj & Hys)%domain_of_Some Hc. simplify_eq.
  unfold revise.
  rewrite (bind_eq _ _ s li s) by (apply getitem_Ok; eauto).
  rewrite (bind_eq _ _ s xs s) by (by apply read_list_Ok).
  eapply revise_loop_total; eauto; [|lia].
  destruct Hc as [Hc|[Hne ->]]; [by left|]. right. split; [|done].
  intros ->. congruence.
Qed.

Lemma revise_empty_domain csp a i j s :
  domain_of s a i = Some [] → revise csp a i j s = Ok (false, s).
Proof.
  intros (m & li & Hm & Hi & Hxs)%domain_of_Some. unfold revise.
  rewrite (bind_eq _ _ s li s) by (apply getitem_Ok; eauto).
  rewrite (bind_eq _ _ s [] s) by (by apply read_list_Ok).
  simpl. by rewrite (bind_eq _ _ s [] s) by (by apply read_list_Ok).
Qed.

Lemma valid_assignment_domain_None s a v :
  valid_assignment s a → domain_of s a v = None →
  ∃ m, dicts s !! a = Some m ∧ od_get m v = None.
Proof.
  intros (m & Hm & Hvalid) Hv. exists m. split; [done|].
  unfold domain_of in Hv. rewrite Hm in Hv. simpl in Hv.
  destruct (od_get m v) as [l|] eqn:Hl; [|done]. simpl in Hv.
  apply Hvalid, lookup_lt_is_Some_2 in Hl as [xs Hxs]. congruence.
Qed.

Lemma getitem_missing (d : nat) (k : string) (s : State) m :
  dicts s !! d = Some m → od_get m k = None →
  getitem (Val := Val) d k s = Raise KeyError.
Proof.
  intros Hm Hnone. unfold getitem.
  rewrite (bind_eq _ _ s m s) by (by apply read_dict_Ok).
  unfold from_option. by rewrite Hnone.
Qed.

Lemma revise_missing_key csp a i j s :
  valid_assignment s a → missing_key csp s a i j →
  revise csp a i j s = Raise KeyError.
Proof.
  intros Hvalid Hmiss. unfold revise.
  assert (domain_of s a i = None →
          getitem (Val := Val) a i s = Raise KeyError) as Hget_i.
  { intros Hi.
    destruct (valid_assignment_domain_None _ _ _ Hvalid Hi) as (m & Hm & Hnone).
    by eapply getitem_missing. }
  assert (domain_of s a j = None →
          getitem (Val := Val) a j s = Raise KeyError) as Hget_j.
  { intros Hj.
    destruct (valid_assignment_domain_None _ _ _ Hvalid Hj) as (m & Hm & Hnone).
    by eapply getitem_missing. }
  destruct Hmiss as [Hi|[Hi Hmiss]]; [by apply bind_eq_raise, Hget_i|].
  destruct (domain_of s a i) as [xs|] eqn:Hxs;
    [|by apply bind_eq_raise, Hget_i].
  destruct xs as [|x xs]; [done|]. clear Hi Hget_i.
  apply domain_of_Some in Hxs as (m & li & Hm & Hi & Hxs).
  rewrite (bind_eq _ _ s li s) by (apply getitem_Ok; eauto).
  rewrite (bind_eq _ _ s (x :: xs) s) by (by apply read_list_Ok).
  rewrite revise_loop_unfold.
  rewrite (bind_eq _ _ s (x :: xs) s) by (by apply read_list_Ok).
  simpl. apply bind_eq_raise. unfold unsupported.
  destruct Hmiss as [Hj|[Hj Hc]]; [by apply bind_eq_raise, Hget_j|].
  destruct (domain_of s a j) as [ys|] eqn:Hys;
    [|by apply bind_eq_raise, Hget_j].
  destruct ys as [|y ys]; [done|].
  rewrite (domain_of_getitem_read_list _ _ _ _ _ Hys).
  unfold constraint_of in Hc. unfold from_option, bind, raise, ret.
  destruct (od_get (constraints csp) i) as [ci|]; [|done]. simpl in Hc.
  by rewrite Hc.
Qed.

(** X2.  On an assignment whose lists exist, [revise(assignment, i, j)]
    raises nothing but [KeyError], and raises it exactly when a key it
    looks up is missing: [assignment] has no [i]; or [i] has values and
    [assignment] has no [j]; or both have values and no constraint is
    registered for [(i, j)].  With an empty [assignment[i]] it returns
    without looking at [j] or at the constraint, and with an empty
    [assignment[j]] without looking at the constraint. *)
Theorem revise_raises_iff csp a i j s e :
  valid_assignment s a →
  revise csp a i j s = Raise e ↔ e = KeyError ∧ missing_key csp s a i j.
Proof.
  intros Hvalid. split.
  - intros Hraise.
    assert (missing_key csp s a i j) as Hmiss.
    { unfold missing_key.
      destruct (domain_of s a i) as [xs|] eqn:Hxs; [|by left]. right.
      destruct (decide (xs = [])) as [->|Hne].
      { by rewrite (revise_empty_domain _ _ _ _ _ Hxs) in Hraise. }
      split; [congruence|].
      destruct (domain_of s a j) as [ys|] eqn:Hys; [|by left]. right.
      destruct (decide (ys = [])) as [->|Hney].
      { exfalso. destruct (revise_total csp a i j s xs [] Hxs Hys) as (b & s' & Hok);
          [by right | congruence]. }
      split; [congruence|].
      destruct (constraint_of csp i j) as [f|] eqn:Hf; [|done].
      exfalso. destruct (revise_total csp a i j s xs ys Hxs Hys) as (b & s' & Hok);
        [left; rewrite Hf; by eauto | congruence]. }
    split; [|done].
    rewrite (revise_missing_key _ _ _ _ _ Hvalid Hmiss) in Hraise. congruence.
  - intros [-> Hmiss]. by apply revise_missing_key.
Qed.


End ReviseMore.

Lemma valid_assignment_one_way_state : valid_assignment one_way_state 0.
Proof.
  exists [("A", 0); ("B", 1)]. split; [reflexivity|].
  intros k l Hk. simpl in Hk. repeat case_decide; simplify_eq; simpl; lia.
Defined.

Lemma revise_effect_witness :
  revise less_than_csp 0 "A" "B" less_than_state
    = Ok (true, less_than_revised) ∧
  ∃ m li xs xs',
    dicts less_than_state !! 0 = Some m ∧ od_get m "A" = Some li ∧
    lists less_than_state !! li = Some xs ∧
    lists less_than_revised !! li = Some xs' ∧
    xs' `sublist_of` xs ∧
    (true = true ↔ length xs' < length xs) ∧
    (true = false → less_than_revised = less_than_state) ∧
    (∀ l, l ≠ li → lists less_than_revised !! l = lists less_than_state !! l) ∧
    dicts less_than_revised = dicts less_than_state ∧
    backtrack_counter less_than_revised = backtrack_counter less_than_state ∧
    backtrack_failure_counter less_than_revised
      = backtrack_failure_counter less_than_state.
Proof.
  split; [reflexivity|].
  apply (revise_effect less_than_csp 0 "A" "B" less_than_state true
           less_than_revised).
  reflexivity.
Defined.

Lemma revise_raises_iff_witness :
  valid_assignment one_way_state 0 ∧
  missing_key one_way_csp one_way_state 0 "B" "A" ∧
  (revise one_way_csp 0 "B" "A" one_way_state = Raise KeyError ↔
   KeyError = KeyError ∧ missing_key one_way_csp one_way_state 0 "B" "A").
Proof.
  split_and!.
  - exact valid_assignment_one_way_state.
  - right. split; [discriminate|]. right. split; [discriminate | reflexivity].
  - apply (revise_raises_iff one_way_csp 0 "B" "A" one_way_state KeyError).
    exact valid_assignment_one_way_state.
Defined.


(** ** The search does not lose a solution *)

Section SearchKeepsSolutions.
Context {Val : Type} {Val_eq_dec : EqDecision Val}.
Local Abbreviation State := (State Val).
Local Abbreviation M := (M Val).
Implicit Types (s : State) (csp : CSP Val) (a : nat) (i j : string).
Implicit Types σ : string → Val.

Lemma list_remove_first_elem_ne {A} `{EqDecision A} (x y : A) (xs xs' : list A) :
  list_remove_first x xs = Some xs' → y ∈ xs → y ≠ x → y ∈ xs'.
Proof.
  revert xs'. induction xs as [|z xs IH]; intros xs'; simpl; [done|].
  destruct (decide (x = z)) as [->|Hne].
  - intros [= <-] Hy Hyz. apply elem_of_cons in Hy as [?|?]; done.
  - destruct (list_remove_first x xs) as [r|]; [|done].
    intros [= <-] Hy Hyx. apply elem_of_cons in Hy as [->|Hy].
    + apply list_elem_of_here.
    + apply list_elem_of_further. by apply IH.
Qed.

(** A value that [revise] removes has no support, so it is not the value
    of a solution. *)
Lemma revise_loop_within csp σ a i j m li n : ∀ idx revised s b s',
  solution csp σ →
  dicts s !! a = Some m → od_get m i = Some li →
  (∀ k1 k2 l, od_get m k1 = Some l → od_get m k2 = Some l → k1 = k2) →
  within σ s a →
  revise_loop csp a i j li n idx revised s = Ok (b, s') →
  within σ s' a.
Proof.
  induction n as [|n IH]; intros idx revised s b s' Hsol Hm Hi Hsep Hin;
    rewrite revise_loop_unfold; intros Hr;
    apply bind_Ok in Hr as (xs & s0 & Hxs & Hr); monad_inv Hxs.
  - destruct (xs !! idx); monad_inv Hr. done.
  - destruct (xs !! idx) as [x|]; [|by monad_inv Hr].
    apply bind_Ok in Hr as (u & s0 & Hu & Hr).
    apply unsupported_Ok in Hu as [-> (ys & Hys & Hu)]. destruct u.
    2:{ by eapply IH. }
    apply bind_Ok in Hr as (l0 & s0 & Hl0 & Hr).
    apply getitem_Ok in Hl0 as [(m' & Hm' & Hl0) ->]. simplify_eq.
    apply bind_Ok in Hr as (zs & s0 & Hzs & Hr). monad_inv Hzs.
    apply bind_Ok in Hr as (zs' & s0 & Hzs' & Hr). monad_inv Hzs'.
    apply bind_Ok in Hr as (u & s0 & Hw & Hr). monad_inv Hw.
    assert (σ i ≠ x) as Hne.
    { intros <-. pose proof (Hin _ _ Hys) as Hj.
      destruct Hu as [[-> _]|(_ & f & Hf & Hall)].
      - by apply elem_of_nil in Hj.
      - symmetry in Hall. rewrite forallb_forall in Hall.
        apply list_elem_of_In, Hall in Hj.
        rewrite (Hsol _ _ _ Hf) in Hj. done. }
    eapply IH in Hr; [exact Hr | done | exact Hm | done | done |].
    intros v vs (m' & l & Hm' & Hv & Hvs)%domain_of_Some.
    simpl in Hm', Hvs. simplify_eq.
    destruct (decide (l = li)) as [->|Hl].
    + assert (v = i) as -> by (by eapply Hsep).
      rewrite list_lookup_insert_eq in Hvs by (by eapply lookup_lt_Some).
      simplify_eq. eapply list_remove_first_elem_ne; [done| |done].
      apply Hin. apply domain_of_Some. by exists m, li.
    + rewrite list_lookup_insert_ne in Hvs by done.
      apply Hin. apply domain_of_Some. by exists m, l.
Qed.

Lemma revise_within csp σ a i j s b s' :
  solution csp σ → separate s a → within σ s a →
  revise csp a i j s = Ok (b, s') →
  separate s' a ∧ within σ s' a.
Proof.
  intros Hsol (m & Hm & Hsep) Hin Hrev. split.
  - apply revise_spec in Hrev as [(Hd & _) _]. exists m. by rewrite Hd.
  - unfold revise in Hrev.
    apply bind_Ok in Hrev as (li & s0 & Hli & Hrev).
    apply getitem_Ok in Hli as [(m' & Hm' & Hli) ->]. simplify_eq.
    apply bind_Ok in Hrev as (xs & s0 & Hxs & Hrev). monad_inv Hxs.
    by eapply revise_loop_within.
Qed.

Lemma inference_loop_within csp σ a fuel : ∀ q s b s',
  solution csp σ → separate s a → within σ s a →
  inference_loop csp a fuel q s = Ok (b, s') →
  b = true ∧ separate s' a ∧ within σ s' a.
Proof.
  induction fuel as [|fuel IH]; intros [|[i j] rest] s b s' Hsol Hsep Hin.
  - rewrite inference_loop_nil. intros Hi. by monad_inv Hi.
  - done.
  - rewrite inference_loop_nil. intros Hi. by monad_inv Hi.
  - rewrite inference_loop_cons. intros Hi.
    apply bind_Ok in Hi as (revised & s1 & Hrev & Hi).
    destruct (revise_within _ _ _ _ _ _ _ _ Hsol Hsep Hin Hrev) as [Hsep1 Hin1].
    destruct revised; [|by eapply IH].
    apply bind_Ok in Hi as (li & s2 & Hli & Hi).
    apply bind_Ok in Hi as (xs & s3 & Hxs & Hi).
    destruct (getitem_read_list _ _ _ _ _ _ _ Hli Hxs) as [-> Hdom].
    apply Hin1 in Hdom. destruct xs as [|x xs]; [by apply elem_of_nil in Hdom|].
    apply bind_Ok in Hi as (arcs & s4 & Harcs & Hi). monad_inv Harcs.
    by eapply IH.
Qed.

(** Where a solution lies within the domains, [inference] keeps it there
    and answers [True]. *)
Lemma inference_within csp σ a q s b s' :
  solution csp σ → separate s a → within σ s a →
  inference csp a q s = Ok (b, s') →
  b = true ∧ separate s' a ∧ within σ s' a.
Proof. apply inference_loop_within. Qed.

(** The copy of a dictionary shares a list between two keys only where
    the original does. *)
Lemma deepcopy_items_memo items : ∀ memo s items' s',
  deepcopy_items (Val := Val) items memo s = Ok (items', s') →
  (∀ l l', od_get memo l = Some l' → l' < length (lists s)) →
  (∀ l1 l2 l', od_get memo l1 = Some l' → od_get memo l2 = Some l' → l1 = l2) →
  ∃ memo',
    (∀ l1 l2 l', od_get memo' l1 = Some l' → od_get memo' l2 = Some l' →
                 l1 = l2) ∧
    (∀ l l', od_get memo l = Some l' → od_get memo' l = Some l') ∧
    (∀ l l', od_get memo' l = Some l' → l' < length (lists s')) ∧
    (∀ k l', od_get items' k = Some l' →
             ∃ l, od_get items k = Some l ∧ od_get memo' l = Some l').
Proof.
  induction items as [|[k0 l0] rest IH]; intros memo s items' s' Hc Hlt Hinj.
  { simpl in Hc. monad_inv Hc. exists memo. split_and!; try done. }
  simpl in Hc. destruct (od_get memo l0) as [l0'|] eqn:Hhit.
  - apply bind_Ok in Hc as (rest' & s2 & Hc0 & Hc). monad_inv Hc.
    destruct (IH _ _ _ _ Hc0 Hlt Hinj) as (memo' & Hinj' & Hext & Hlt' & Hback).
    exists memo'. split_and!; try done.
    intros k l'. simpl. destruct (decide (k = k0)) as [->|Hne]; [|by apply Hback].
    intros [= <-]. exists l0. split; [done|]. by apply Hext.
  - apply bind_Ok in Hc as (xs0 & s1' & Hread & Hc). monad_inv Hread.
    apply bind_Ok in Hc as (l' & s1 & Hal & Hc). monad_inv Hal.
    apply bind_Ok in Hc as (rest' & s2 & Hc2 & Hc). monad_inv Hc.
    set (s1 := with_lists s (lists s ++ [xs0])) in *.
    destruct (IH ((l0, length (lists s)) :: memo) s1 _ _ Hc2)
      as (memo' & Hinj' & Hext & Hlt' & Hback).
    + intros l l'. simpl. rewrite length_app. simpl.
      destruct (decide (l = l0)) as [->|Hne]; [intros [= <-]; lia|].
      intros Hl%Hlt. lia.
    + intros l1 l2 l'. simpl.
      destruct (decide (l1 = l0)) as [->|Hne1];
        destruct (decide (l2 = l0)) as [->|Hne2]; try done.
      * intros [= <-] Hl%Hlt. lia.
      * intros Hl%Hlt [= <-]. lia.
      * apply Hinj.
    + exists memo'. split_and!; try done.
      * intros l l' Hl. apply Hext. simpl.
        destruct (decide (l = l0)) as [->|Hne]; [congruence | done].
      * intros k l'. simpl.
        destruct (decide (k = k0)) as [->|Hne]; [|by apply Hback].
        intros [= <-]. exists l0. split; [done|]. apply Hext. simpl.
        by rewrite decide_True.
Qed.

Lemma deepcopy_separate a s na s1 :
  deepcopy a s = Ok (na, s1) → separate s a → separate s1 na.
Proof.
  unfold deepcopy. intros Hc (m & Hm & Hsep).
  apply bind_Ok in Hc as (items & s0 & Hread & Hc). monad_inv Hread.
  apply bind_Ok in Hc as (items' & s' & Hitems & Hc). monad_inv Hc.
  destruct (deepcopy_items_memo _ _ _ _ _ Hitems)
    as (memo' & Hinj & _ & _ & Hback); [done..|].
  exists items'. split.
  - simpl. by rewrite lookup_app_r, Nat.sub_diag.
  - intros k1 k2 l' (l1 & Hk1 & Hl1)%Hback (l2 & Hk2 & Hl2)%Hback.
    pose proof (Hinj _ _ _ Hl1 Hl2) as ->. by eapply Hsep.
Qed.

(** Validity, separation and a solution within the domains are facts
    about objects that later steps of the search leave alone. *)
Lemma extends_carries σ s s' a :
  extends s s' → valid_assignment s a → separate s a → within σ s a →
  valid_assignment s' a ∧ separate s' a ∧ within σ s' a.
Proof.
  intros Hext Hvalid (m & Hm & Hsep) Hin.
  destruct (valid_assignment_extends _ _ _ Hvalid Hext) as [Hvalid' Hdom].
  split_and!; [done| |].
  - exists m. split; [by apply Hext | done].
  - intros v xs Hv. rewrite Hdom in Hv. by apply Hin.
Qed.

(** The steps of [branch], one by one. *)
Lemma branch_unfold csp a var value s na ok s2 :
  branch csp a var value s = Ok ((na, ok), s2) →
  ∃ s1 items arcs,
    deepcopy a s = Ok (na, s1) ∧ dicts s1 !! na = Some items ∧
    get_all_neighboring_arcs csp var = Ok arcs ∧
    inference csp na arcs
      (with_dicts (with_lists s1 (lists s1 ++ [[value]]))
                  (<[na := od_set items var (length (lists s1))]> (dicts s1)))
      = Ok (ok, s2).
Proof.
  unfold branch. intros Hb.
  apply bind_Ok in Hb as (na' & s1 & Hcopy & Hb).
  apply bind_Ok in Hb as (l & s1' & Hal & Hb). monad_inv Hal.
  apply bind_Ok in Hb as (u & s1'' & Hset & Hb).
  apply setitem_Ok in Hset as (items & Hitems & ->). simpl in Hitems.
  apply bind_Ok in Hb as (arcs & s1'' & Harcs & Hb). monad_inv Harcs.
  apply bind_Ok in Hb as (ok' & s2' & Hinf & Hb). monad_inv Hb.
  by exists s1, items, arcs.
Qed.

(** The copy in which [var] holds [[value]], before [inference] runs. *)
Lemma branch_start a var value s na s1 items :
  deepcopy a s = Ok (na, s1) → dicts s1 !! na = Some items →
  let s1' := with_dicts (with_lists s1 (lists s1 ++ [[value]]))
               (<[na := od_set items var (length (lists s1))]> (dicts s1)) in
  valid_assignment s1' na ∧
  domain_of s1' na var = Some [value] ∧
  (valid_assignment s a →
   ∀ v, v ≠ var → domain_of s1' na v = domain_of s a v) ∧
  (separate s a → separate s1' na) ∧
  extends s s1' ∧
  backtrack_counter s1' = backtrack_counter s ∧
  backtrack_failure_counter s1' = backtrack_failure_counter s.
Proof.
  intros Hcopy Hitems s1'. pose proof Hcopy as Hspec.
  apply deepcopy_spec in Hspec
    as (Hext & Hbc & Hbfc & -> & Hlen & Hfresh & Hfw & Hbw).
  set (d := length (dicts s)) in *.
  assert (dicts s1' !! d = Some (od_set items var (length (lists s1)))) as Hd.
  { simpl. apply list_lookup_insert_eq. by eapply lookup_lt_Some. }
  assert (∀ k l, od_get items k = Some l → l < length (lists s1)) as Hlt.
  { intros k l Hk. apply (Hfresh l). by exists items, k. }
  assert (∀ v, v ≠ var → domain_of s1' d v = domain_of s1 d v) as Hother.
  { intros v Hne. unfold domain_of. rewrite Hd, Hitems. simpl.
    rewrite od_get_set_ne by done.
    destruct (od_get items v) as [l|] eqn:Hl; [|done]. simpl.
    apply lookup_app_l. by eapply Hlt. }
  split_and!.
  - eexists. split; [exact Hd|]. intros k l. simpl. rewrite length_app. simpl.
    destruct (decide (var = k)) as [->|Hne].
    + rewrite od_get_set_eq. intros [= <-]. lia.
    + rewrite od_get_set_ne by done. intros Hl%Hlt. lia.
  - unfold domain_of. rewrite Hd. simpl. rewrite od_get_set_eq. simpl.
    by rewrite lookup_app_r, Nat.sub_diag.
  - intros Hvalid v Hne. rewrite (Hother v Hne).
    destruct (domain_of s1 d v) as [xs|] eqn:Hxs.
    + symmetry. by apply Hbw.
    + destruct (domain_of s a v) as [xs|] eqn:Hxs'; [|done].
      apply Hfw in Hxs'. congruence.
  - intros Hsep. apply (deepcopy_separate _ _ _ _ Hcopy) in Hsep
      as (m & Hm & Hsep). rewrite Hitems in Hm. simplify_eq.
    eexists. split; [exact Hd|]. intros k1 k2 l.
    destruct (decide (var = k1)) as [<-|Hne1];
      destruct (decide (var = k2)) as [<-|Hne2]; try done.
    + rewrite od_get_set_eq, od_get_set_ne by done.
      intros [= <-] Hl%Hlt. lia.
    + rewrite od_get_set_eq, od_get_set_ne by done.
      intros Hl%Hlt [= <-]. lia.
    + rewrite !od_get_set_ne by done. apply Hsep.
  - apply (extends_setitem_fresh s (with_lists s1 (lists s1 ++ [[value]])));
      [|done].
    eapply extends_trans; [done|]. apply extends_alloc_list.
  - done.
  - done.
Qed.

Lemma branch_within csp σ a var s na ok s2 :
  solution csp σ → valid_assignment s a → separate s a → within σ s a →
  branch csp a var (σ var) s = Ok ((na, ok), s2) →
  ok = true ∧ separate s2 na ∧ within σ s2 na.
Proof.
  intros Hsol Hvalid Hsep Hin Hb.
  apply branch_unfold in Hb as (s1 & items & arcs & Hcopy & Hitems & _ & Hinf).
  destruct (branch_start a var (σ var) s na s1 items Hcopy Hitems)
    as (_ & Hvar & Hother & Hsep' & _).
  eapply inference_within in Hinf; [done..| by apply Hsep' |].
  intros v xs Hv. destruct (decide (v = var)) as [->|Hne].
  - rewrite Hvar in Hv. simplify_eq. apply list_elem_of_here.
  - rewrite (Hother Hvalid v Hne) in Hv. by apply Hin.
Qed.

(** A value loop that ends with [None] has tried every value from its
    index on, and each of them gave [None]. *)
Lemma value_loop_tried (I : State → Prop) (try : Val → M (option nat)) lv vs n :
  (∀ s, I s → lists s !! lv = Some vs) →
  (∀ s value s', I s → try value s = Ok (None, s') → I s') →
  ∀ idx s s', I s → value_loop try lv n idx s = Ok (None, s') →
  ∀ k v, idx ≤ k → vs !! k = Some v →
         ∃ s1 s2, I s1 ∧ try v s1 = Ok (None, s2).
Proof.
  intros Hvs Hkeep. induction n as [|n IH]; intros idx s s' HI;
    rewrite value_loop_unfold; intros Hl k v Hle Hk;
    apply bind_Ok in Hl as (cur & s0 & Hcur & Hl); monad_inv Hcur;
    assert (cur = vs) as -> by (pose proof (Hvs _ HI); congruence).
  - destruct (vs !! idx) as [value|] eqn:Hidx; [done|].
    apply lookup_ge_None in Hidx. apply lookup_lt_Some in Hk. lia.
  - destruct (vs !! idx) as [value|] eqn:Hidx.
    + apply bind_Ok in Hl as (result & s1 & Htry & Hl).
      destruct result as [x|]; [by monad_inv Hl|].
      destruct (decide (k = idx)) as [->|Hne].
      * simplify_eq. by eauto.
      * apply (IH (S idx) s1 s' (Hkeep _ _ _ HI Htry) Hl k v); [lia | done].
    + apply lookup_ge_None in Hidx. apply lookup_lt_Some in Hk. lia.
Qed.

Lemma backtrack_rec_finds csp σ fuel : ∀ a s r s',
  solution csp σ →
  valid_assignment s a → separate s a → within σ s a →
  backtrack_rec csp fuel a s = Ok (r, s') → is_Some r.
Proof.
  induction fuel as [|fuel IH]; intros a s r s' Hsol Hvalid Hsep Hin; [done|].
  simpl. intros Hb.
  apply bind_Ok in Hb as (u & s0 & Hincr & Hb).
  unfold incr_backtrack_counter in Hincr. simplify_eq.
  apply bind_Ok in Hb as (complete & s1 & Hall & Hb).
  apply all_assigned_Ok in Hall as [-> _]. destruct complete.
  { monad_inv Hb. by eauto. }
  apply bind_Ok in Hb as (var & s1 & Hsel & Hb).
  apply select_unassigned_variable_Ok in Hsel as [-> _].
  apply bind_Ok in Hb as (lv & s1 & Hlv & Hb).
  apply bind_Ok in Hb as (vs & s2 & Hvs & Hb).
  destruct (getitem_read_list _ _ _ _ _ _ _ Hlv Hvs) as [-> Hdom].
  monad_inv Hlv. monad_inv Hvs.
  set (s0 := mkState _ _ _ _) in *.
  destruct (extends_carries σ s s0 a) as (Hvalid0 & Hsep0 & Hin0);
    [apply extends_counters | done..|].
  destruct r as [r|]; [by eauto|]. exfalso.
  pose proof (Hin0 _ _ Hdom) as Hvalue.
  apply list_elem_of_lookup_1 in Hvalue as [k Hk].
  destruct (value_loop_tried (extends s0)
              (attempt (backtrack_rec csp fuel) csp a var) lv vs (length vs))
    with (idx := 0) (s := s0) (s' := s') (k := k) (v := σ var)
    as (s1 & s2 & Hext & Htry); try done.
  - intros s1 Hext. by apply Hext.
  - intros s1 value s2 Hext Htry.
    apply attempt_extends in Htry; [|apply backtrack_rec_extends].
    by eapply extends_trans.
  - lia.
  - destruct (extends_carries σ s0 s1 a) as (Hvalid1 & Hsep1 & Hin1); [done..|].
    unfold attempt in Htry.
    apply bind_Ok in Htry as ([na ok] & s3 & Hbranch & Htry).
    pose proof Hbranch as Hspec.
    apply branch_spec in Hspec as (_ & Hvalid3 & _).
    destruct (branch_within _ _ _ _ _ _ _ _ Hsol Hvalid1 Hsep1 Hin1 Hbranch)
      as (-> & Hsep3 & Hin3).
    destruct (IH _ _ _ _ Hsol Hvalid3 Hsep3 Hin3 Htry) as [? ?]. done.
Qed.

(** X4.  [inference] does not lose a solution.  When the variables can
    be given values from the domains of the assignment such that every
    registered predicate accepts, a run of [inference] that returns
    answers [True] and leaves each of these values in its domain: the
    values that [revise] removes have no support. *)
Theorem inference_keeps_solution csp σ a q s b s' :
  solution csp σ → separate s a → within σ s a →
  inference csp a q s = Ok (b, s') →
  b = true ∧ within σ s' a.
Proof.
  intros Hsol Hsep Hin Hinf.
  by destruct (inference_within _ _ _ _ _ _ _ Hsol Hsep Hin Hinf) as (? & _ & ?).
Qed.

Lemma backtrack_search_finds_aux csp σ s r s' :
  solution csp σ →
  valid_assignment s (domains csp) → separate s (domains csp) →
  within σ s (domains csp) →
  backtracking_search csp s = Ok (r, s') → is_Some r.
Proof.
  intros Hsol Hvalid Hsep Hin. unfold backtracking_search. intros Hb.
  apply bind_Ok in Hb as (a & s1 & Hcopy & Hb).
  apply bind_Ok in Hb as (ok & s2 & Hinf & Hb).
  pose proof Hcopy as Hspec.
  apply deepcopy_spec in Hspec
    as (Hext & _ & _ & -> & Hlen & Hfresh & _ & Hbw).
  assert (valid_assignment s1 (length (dicts s))) as Hvalid1.
  { destruct (lookup_lt_is_Some_2 (dicts s1) (length (dicts s))) as [m Hm]; [lia|].
    exists m. split; [done|]. intros k l Hk. apply (Hfresh l). by exists m, k. }
  assert (within σ s1 (length (dicts s))) as Hin1.
  { intros v xs Hv. apply Hin. by apply Hbw. }
  pose proof (deepcopy_separate _ _ _ _ Hcopy Hsep) as Hsep1.
  destruct (inference_within _ _ _ _ _ _ _ Hsol Hsep1 Hin1 Hinf)
    as (_ & Hsep2 & Hin2).
  apply inference_spec in Hinf as Hstep.
  assert (valid_assignment s2 (length (dicts s))) as Hvalid2.
  { destruct Hvalid1 as (m & Hm & Hlt). exists m.
    rewrite (proj1 Hstep), (engine_step_length _ _ _ Hstep). done. }
  by eapply backtrack_rec_finds.
Qed.

(** X5.  The search does not lose a solution either.  When the variables
    can be given values from [self.domains] such that every registered
    predicate accepts, [backtracking_search], when it returns, returns an
    assignment and not [None]. *)
Theorem backtracking_search_finds csp σ s r s' :
  solution csp σ →
  valid_assignment s (domains csp) → separate s (domains csp) →
  within σ s (domains csp) →
  backtracking_search csp s = Ok (r, s') → is_Some r.
Proof. apply backtrack_search_finds_aux. Qed.
End SearchKeepsSolutions.

(** ** Selection without a choice, the counters, the returned assignment *)

Section SearchOutcome.
Context {Val : Type} {Val_eq_dec : EqDecision Val}.
Local Abbreviation State := (State Val).
Local Abbreviation M := (M Val).
Implicit Types (s : State) (csp : CSP Val) (a : nat) (v : string).

(** X6.  When [assignment] gives a domain to every variable of the
    graph, [select_unassigned_variable] raises nothing but [ValueError]
    ([min] of an empty sequence), and raises it exactly when no variable
    has more than one value left: also when some domain is empty, which
    [backtrack] does not check before it selects. *)
Theorem select_unassigned_variable_raises_iff csp a s e :
  Forall (fun v => is_Some (domain_of s a v)) (variables csp) →
  select_unassigned_variable csp a s = Raise e ↔
  e = ValueError ∧ Forall (fun v => domain_len s a v ≤ 1) (variables csp).
Proof.
  intros Hall.
  set (us := filter (λ v, 1 < domain_len s a v) (variables csp)).
  assert (Forall (λ v, is_Some (domain_of s a v)) us) as Hus.
  { apply Forall_forall. intros u [_ Hu]%list_elem_of_filter.
    by apply (proj1 (Forall_forall _ _) Hall). }
  unfold select_unassigned_variable.
  rewrite (bind_eq _ _ _ _ _ (unassigned_vars_total _ _ _ Hall)). fold us.
  rewrite (bind_eq _ _ _ _ _ (keyed_total _ _ _ Hus)).
  assert (us = [] ↔ Forall (λ v, domain_len s a v ≤ 1) (variables csp)) as Hnil.
  { split.
    - intros Hnil. apply Forall_forall. intros v Hv.
      destruct (decide (1 < domain_len s a v)) as [Hlt|]; [|lia].
      assert (v ∈ us) as Hin by (by apply list_elem_of_filter).
      rewrite Hnil in Hin. by apply elem_of_nil in Hin.
    - intros Hle. destruct us as [|u us0] eqn:Hu; [done|].
      assert (u ∈ us) as [Hlt Hin]%list_elem_of_filter
        by (rewrite Hu; apply list_elem_of_here).
      apply (proj1 (Forall_forall _ _) Hle) in Hin. lia. }
  rewrite <- Hnil. destruct us as [|u us0]; csimpl.
  - unfold raise. split; [intros [= <-]; done | by intros [-> _]].
  - unfold ret. split; [done | by intros [_ ?]].
Qed.

Lemma all_assigned_total a vars s :
  Forall (fun v => ∃ x, domain_of s a v = Some [x]) vars →
  all_assigned a vars s = Ok (true, s).
Proof.
  induction 1 as [|v vars [x Hx] _ IH]; [done|]. simpl.
  by rewrite (domain_of_getitem_read_list _ _ _ _ _ Hx).
Qed.

(** X7.  [backtrack] on an assignment in which every variable of the
    graph has exactly one value returns this same assignment object at
    once: it counts one call and no failure, changes nothing else, and
    looks at no constraint, whatever the values are. *)
Theorem backtrack_complete_assignment csp a s :
  Forall (fun v => ∃ x, domain_of s a v = Some [x]) (variables csp) →
  backtrack csp a s =
  Ok (Some a, mkState (lists s) (dicts s) (S (backtrack_counter s))
                      (backtrack_failure_counter s)).
Proof.
  intros Hall. unfold backtrack. simpl.
  unfold bind at 1. unfold incr_backtrack_counter.
  set (s0 := mkState _ _ _ _).
  rewrite (bind_eq _ _ s0 true s0); [done|].
  apply all_assigned_total.
  eapply Forall_impl; [exact Hall|]. intros v [x Hx]. by exists x.
Qed.

Lemma branch_counters csp a var value s na ok s' :
  branch csp a var value s = Ok ((na, ok), s') →
  backtrack_counter s' = backtrack_counter s ∧
  backtrack_failure_counter s' = backtrack_failure_counter s.
Proof.
  intros (s1 & items & arcs & Hcopy & Hitems & _ & Hinf)%branch_unfold.
  destruct (branch_start a var value s na s1 items Hcopy Hitems)
    as (_ & _ & _ & _ & _ & Hbc & Hbfc).
  apply inference_spec in Hinf as (_ & Hc & Hf & _).
  rewrite Hc, Hf. done.
Qed.

(** Every call of [backtrack] counts itself; the calls that give [None]
    count a failure each, the calls that give an assignment none. *)
Lemma backtrack_rec_counters csp fuel : ∀ a s r s',
  backtrack_rec csp fuel a s = Ok (r, s') →
  backtrack_counter s < backtrack_counter s' ∧
  backtrack_failure_counter s ≤ backtrack_failure_counter s' ∧
  match r with
  | None => backtrack_failure_counter s' + backtrack_counter s
            = backtrack_counter s' + backtrack_failure_counter s
  | Some _ => backtrack_failure_counter s' + backtrack_counter s
              < backtrack_counter s' + backtrack_failure_counter s
  end.
Proof.
  induction fuel as [|fuel IH]; intros a s r s'; [done|].
  simpl. intros Hb.
  apply bind_Ok in Hb as (u & s0 & Hincr & Hb).
  unfold incr_backtrack_counter in Hincr. simplify_eq.
  apply bind_Ok in Hb as (complete & s1 & Hall & Hb).
  apply all_assigned_Ok in Hall as [-> _]. destruct complete.
  { monad_inv Hb. simpl. lia. }
  apply bind_Ok in Hb as (var & s1 & Hsel & Hb).
  apply select_unassigned_variable_Ok in Hsel as [-> _].
  apply bind_Ok in Hb as (lv & s1 & Hlv & Hb). monad_inv Hlv.
  apply bind_Ok in Hb as (vs & s1 & Hvs & Hb). monad_inv Hvs.
  revert Hb.
  apply (value_loop_inv
    (λ s1, backtrack_counter s < backtrack_counter s1 ∧
           backtrack_failure_counter s1 + S (backtrack_counter s)
           = backtrack_counter s1 + backtrack_failure_counter s)
    (λ r s', backtrack_counter s < backtrack_counter s' ∧
             backtrack_failure_counter s ≤ backtrack_failure_counter s' ∧
             match r with
             | None => backtrack_failure_counter s' + backtrack_counter s
                       = backtrack_counter s' + backtrack_failure_counter s
             | Some _ => backtrack_failure_counter s' + backtrack_counter s
                         < backtrack_counter s' + backtrack_failure_counter s
             end)).
  - intros s1 cur idx value r1 s2 [Hlt Heq] _ _ Htry.
    unfold attempt in Htry.
    apply bind_Ok in Htry as ([na ok] & s3 & Hbranch & Htry).
    apply branch_counters in Hbranch as [Hc Hf]. destruct ok.
    + apply IH in Htry as (Hlt' & Hle' & Hr). destruct r1; lia.
    + monad_inv Htry. lia.
  - intros s1 [Hlt Heq]. simpl. lia.
  - simpl. lia.
Qed.

(** X8.  The two counters after a search, as [get_backtrack_counter]
    and [get_backtrack_failure_counter] return them.  The counters are
    never reset, so they count from the values they had before the call.
    The search counted at least one call of [backtrack]; when it returns
    [None] every call it counted is also counted as a failure, and when it
    returns an assignment there are fewer failures than calls. *)
Theorem counters_after_search csp s r c f s' :
  (r <- backtracking_search csp ;;
   c <- get_backtrack_counter ;;
   f <- get_backtrack_failure_counter ;;
   ret (r, c, f)) s = Ok ((r, c, f), s') →
  backtrack_counter s < c ∧
  backtrack_failure_counter s ≤ f ∧
  match r with
  | None => f - backtrack_failure_counter s = c - backtrack_counter s
  | Some _ => f - backtrack_failure_counter s < c - backtrack_counter s
  end.
Proof.
  intros Hb.
  apply bind_Ok in Hb as (r0 & s1 & Hsearch & Hb).
  unfold get_backtrack_counter, get_backtrack_failure_counter, bind, ret in Hb.
  simplify_eq. unfold backtracking_search in Hsearch.
  apply bind_Ok in Hsearch as (a & s1 & Hcopy & Hsearch).
  apply bind_Ok in Hsearch as (ok & s2 & Hinf & Hsearch).
  apply deepcopy_spec in Hcopy as (_ & Hc1 & Hf1 & _).
  apply inference_spec in Hinf as (_ & Hc2 & Hf2 & _).
  apply backtrack_rec_counters in Hsearch as (Hlt & Hle & Hr).
  destruct r; lia.
Qed.

(** X9.  The assignment that [backtracking_search] returns gives every
    variable of the graph exactly one value, taken from the domain the
    variable has in [self.domains]; and the search leaves [self.domains],
    as every object that existed before the call, as it was. *)
Theorem backtracking_search_result csp s r s' :
  valid_assignment s (domains csp) →
  backtracking_search csp s = Ok (Some r, s') →
  extends s s' ∧
  Forall (fun v => ∃ x xs, domain_of s' r v = Some [x] ∧
                           domain_of s (domains csp) v = Some xs ∧ x ∈ xs)
         (variables csp).
Proof.
  intros Hvalid. unfold backtracking_search. intros Hb.
  apply bind_Ok in Hb as (a & s1 & Hcopy & Hb).
  apply bind_Ok in Hb as (ok & s2 & Hinf & Hb).
  apply deepcopy_spec in Hcopy
    as (Hext & _ & _ & -> & Hlen & Hfresh & _ & Hbw).
  set (a := length (dicts s)) in *.
  assert (valid_assignment s1 a) as Hvalid1.
  { destruct (lookup_lt_is_Some_2 (dicts s1) a) as [m Hm]; [lia|].
    exists m. split; [done|]. intros k l Hk. apply (Hfresh l). by exists m, k. }
  apply inference_spec in Hinf as Hstep.
  assert (valid_assignment s2 a) as Hvalid2.
  { destruct Hvalid1 as (m & Hm & Hlt). exists m.
    rewrite (proj1 Hstep), (engine_step_length _ _ _ Hstep). done. }
  assert (extends s s2) as Hext2.
  { eapply extends_engine_step; [done..|]. intros l Hl. by apply Hfresh. }
  unfold backtrack in Hb.
  pose proof (backtrack_rec_complete _ _ _ _ _ _ Hb) as Hcomplete.
  pose proof (backtrack_rec_domains_shrink _ _ _ _ _ _ Hb Hvalid2)
    as [_ Hshrink].
  pose proof (backtrack_rec_extends _ _ _ _ _ _ Hb) as Hext3.
  split; [by eapply extends_trans|].
  eapply Forall_impl; [exact Hcomplete|]. intros v [x Hx]. simpl in Hx.
  destruct (Hshrink _ _ Hx) as (xs2 & Hxs2 & _ & Hsub2).
  destruct (engine_step_domain_of _ _ _ _ _ _ Hstep Hxs2) as (xs1 & Hxs1 & Hsub1).
  exists x, xs1. split_and!; [done | by apply Hbw |].
  eapply elem_of_sublist; [|exact Hsub1]. apply Hsub2, list_elem_of_here.
Qed.

(** X10.  [inference], [backtrack] on an assignment whose lists exist,
    and [backtracking_search] end on every graph and every store: the
    loops of the model, which are bounded by a step budget, never use
    their budget up.  ([inference] removes a value for every arc it puts
    back; every level of [backtrack] decides one more variable.) *)
Theorem search_ends csp s :
  (∀ a q, ended (inference csp a q s)) ∧
  (∀ a, valid_assignment s a → ended (backtrack csp a s)) ∧
  ended (backtracking_search csp s).
Proof.
  split_and!.
  - intros a q. pose proof (inference_fuel_error csp a q s) as Hne.
    destruct (inference csp a q s) as [|[]]; done.
  - intros a Hvalid. pose proof (backtrack_terminates csp a s Hvalid) as Hne.
    destruct (backtrack csp a s) as [|[]]; done.
  - pose proof (backtracking_search_terminates csp s) as Hne.
    destruct (backtracking_search csp s) as [|[]]; done.
Qed.
End SearchOutcome.

(** ** The builder methods *)

Section BuilderMore.
Context {Val : Type} {Val_eq_dec : EqDecision Val}.
Local Abbreviation State := (State Val).
Local Abbreviation M := (M Val).
Implicit Types (s : State) (csp : CSP Val) (i j var : string).

(** X11.  [add_variable(name, domain)] on a graph whose [self.domains]
    exists appends [name] to [self.variables] (once more if it is there
    already), stores a new list with the items of [domain] under [name],
    and leaves every object that existed, and the domain of every other
    variable, as it was.  It registers [name] with an empty dictionary of
    constraints: adding a variable again drops the constraints that go
    out of it and keeps those that come in. *)
Theorem add_variable_effect csp name domain s m :
  dicts s !! domains csp = Some m →
  ∃ csp' s',
    add_variable csp name domain s = Ok (csp', s') ∧
    variables csp' = variables csp ++ [name] ∧
    domains csp' = domains csp ∧
    domain_of s' (domains csp) name = Some domain ∧
    (∀ l xs, lists s !! l = Some xs → lists s' !! l = Some xs) ∧
    (valid_assignment s (domains csp) →
     ∀ v, v ≠ name →
          domain_of s' (domains csp) v = domain_of s (domains csp) v) ∧
    registered csp' name ∧
    (∀ j, constraint_of csp' name j = None) ∧
    (∀ i j, i ≠ name → constraint_of csp' i j = constraint_of csp i j).
Proof.
  intros Hm. unfold add_variable.
  set (s1 := with_lists s (lists s ++ [domain])).
  set (s2 := with_dicts s1 (<[domains csp := od_set m name (length (lists s))]>
                              (dicts s1))).
  exists (mkCSP (variables csp ++ [name]) (domains csp)
                (od_set (constraints csp) name [])), s2.
  assert (dicts s2 !! domains csp = Some (od_set m name (length (lists s))))
    as Hd2.
  { simpl. apply list_lookup_insert_eq. by eapply lookup_lt_Some. }
  split_and!; try done.
  - rewrite (bind_eq _ _ s (length (lists s)) s1) by done.
    rewrite (bind_eq _ _ s1 tt s2); [done|].
    apply setitem_Ok. by exists m.
  - unfold domain_of. rewrite Hd2. simpl. rewrite od_get_set_eq. simpl.
    by rewrite lookup_app_r, Nat.sub_diag.
  - intros l xs Hxs. simpl. by apply lookup_app_l_Some.
  - intros (m' & Hm' & Hvalid) v Hne. simplify_eq.
    unfold domain_of. rewrite Hd2, Hm. simpl. rewrite od_get_set_ne by done.
    destruct (od_get m v) as [l|] eqn:Hl; [|done]. simpl.
    apply lookup_app_l. by eapply Hvalid.
  - unfold registered. simpl. rewrite od_get_set_eq. by eauto.
  - intros j. unfold constraint_of. simpl. by rewrite od_get_set_eq.
  - intros i j Hne. unfold constraint_of. simpl. by rewrite od_get_set_ne.
Qed.

Lemma add_constraint_one_way_unregistered csp i j f :
  ¬ registered csp i → add_constraint_one_way csp i j f = Raise KeyError.
Proof.
  unfold add_constraint_one_way, registered.
  destruct (od_get (constraints csp) i); [intros []; by eauto | done].
Qed.

(** X12.  [add_constraint_one_way(i, j, f)] raises [KeyError] exactly
    when [i] was not added as a variable; [j] need not be one.  Otherwise
    the arc [(i, j)] has a predicate afterwards: the one it had, if any,
    else [f]; no other arc, no variable and no domain changes, and a
    second call for the same arc changes nothing, whatever its predicate. *)
Theorem add_constraint_one_way_outcome csp i j f :
  match add_constraint_one_way csp i j f with
  | Raise e => e = KeyError ∧ ¬ registered csp i
  | Ok csp' =>
      registered csp i ∧
      variables csp' = variables csp ∧ domains csp' = domains csp ∧
      (∀ i' j', constraint_of csp' i' j' =
                if decide (i' = i ∧ j' = j) then
                  match constraint_of csp i j with
                  | Some g => Some g
                  | None => Some f
                  end
                else constraint_of csp i' j') ∧
      (∀ g, add_constraint_one_way csp' i j g = Ok csp')
  end.
Proof.
  destruct (od_get (constraints csp) i) as [ci|] eqn:Hci.
  2:{ unfold add_constraint_one_way. rewrite Hci. split; [done|].
      unfold registered. rewrite Hci. by intros [? ?]. }
  assert (registered csp i) as Hreg by (by exists ci).
  destruct (add_constraint_one_way_spec csp i j f Hreg)
    as (csp' & Hadd & Hc & Hr & _).
  rewrite Hadd. split_and!; [done| | |done|].
  - unfold add_constraint_one_way in Hadd. rewrite Hci in Hadd.
    destruct (od_mem ci j); by simplify_eq.
  - unfold add_constraint_one_way in Hadd. rewrite Hci in Hadd.
    destruct (od_mem ci j); by simplify_eq.
  - intros g. unfold add_constraint_one_way.
    specialize (Hc i j). rewrite decide_True in Hc by done.
    unfold constraint_of in Hc.
    rewrite Hci in Hc. simpl in Hc.
    destruct (od_get (constraints csp') i) as [ci'|] eqn:Hci'; simpl in Hc.
    + unfold od_mem. rewrite Hc. by destruct (od_get ci j).
    + by destruct (od_get ci j).
Qed.

Lemma add_all_different_pairs_raises (pairs : list arc) : ∀ csp e,
  add_all_different_pairs csp pairs = Raise e ↔
  e = KeyError ∧
  ∃ k, k ∈ pairs ∧ k.1 ≠ k.2 ∧ ¬ registered csp k.1.
Proof.
  induction pairs as [|[i j] ps IH]; intros csp e; simpl.
  { split; [done|]. intros (_ & k & Hk & _). by apply elem_of_nil in Hk. }
  destruct (decide (i = j)) as [->|Hne].
  { rewrite IH. split; intros [-> (k & Hk & Hd & Hr)]; (split; [done|]).
    - exists k. split_and!; [by apply list_elem_of_further | done..].
    - apply elem_of_cons in Hk as [->|Hk]; [done|]. by exists k. }
  destruct (decide (registered csp i)) as [Hreg|Hnr].
  - destruct (add_constraint_one_way_spec csp i j not_equal Hreg)
      as (csp' & -> & _ & Hr & _).
    rewrite IH.
    split; intros [-> (k & Hk & Hd & Hnr)]; (split; [done|]).
    + exists k. split_and!; [by apply list_elem_of_further | done |].
      by rewrite <- Hr.
    + apply elem_of_cons in Hk as [->|Hk]; [done|].
      exists k. split_and!; [done..|]. by rewrite Hr.
  - rewrite (add_constraint_one_way_unregistered _ _ _ _ Hnr).
    split; [intros [= <-]|by intros [-> _]].
    split; [done|]. exists (i, j). split_and!; [apply list_elem_of_here|done..].
Qed.

(** X13.  [add_all_different_constraint(var_list)] raises nothing but
    [KeyError], and raises it exactly when a name of the list that was not
    added as a variable has a different name beside it in the list.  A
    list with fewer than two different names is accepted, and changes
    nothing, whether its name is a variable or not. *)
Theorem add_all_different_constraint_raises_iff csp vs :
  (∀ e, add_all_different_constraint csp vs = Raise e ↔
        e = KeyError ∧
        ∃ i j, i ∈ vs ∧ j ∈ vs ∧ i ≠ j ∧ ¬ registered csp i) ∧
  ((∀ i j, i ∈ vs → j ∈ vs → i = j) →
   add_all_different_constraint csp vs = Ok csp).
Proof.
  unfold add_all_different_constraint. split.
  - intros e. rewrite add_all_different_pairs_raises.
    split; intros [-> Hex]; (split; [done|]).
    + destruct Hex as ([i j] & [Hi Hj]%get_all_possible_pairs_elem & Hne & Hr).
      by exists i, j.
    + destruct Hex as (i & j & Hi & Hj & Hne & Hr).
      exists (i, j). split_and!; [|done..].
      by apply get_all_possible_pairs_elem.
  - intros Hsame.
    assert (∀ ps : list arc, (∀ k, k ∈ ps → k.1 = k.2) →
                             add_all_different_pairs csp ps = Ok csp) as Hskip.
    { induction ps as [|[i j] ps IH]; intros Hps; [done|]. simpl.
      rewrite decide_True by (apply (Hps (i, j)), list_elem_of_here).
      apply IH. intros k Hk. by apply Hps, list_elem_of_further. }
    apply Hskip. intros [i j] [Hi Hj]%get_all_possible_pairs_elem.
    by apply Hsame.
Qed.

(** X14.  On a graph whose dictionaries have distinct keys,
    [get_all_arcs] lists every arc with a registered predicate exactly
    once and nothing else: on a graph without constraints it is empty. *)
Theorem get_all_arcs_exact csp :
  wf_constraints csp →
  NoDup (get_all_arcs csp) ∧
  (∀ i j, (i, j) ∈ get_all_arcs csp ↔ is_Some (constraint_of csp i j)) ∧
  ((∀ i j, constraint_of csp i j = None) → get_all_arcs csp = []).
Proof.
  intros Hwf. split_and!.
  - by apply get_all_arcs_NoDup.
  - intros i j. by apply get_all_arcs_elem.
  - intros Hnone. destruct (get_all_arcs csp) as [|[i j] arcs] eqn:Harcs; [done|].
    assert ((i, j) ∈ get_all_arcs csp) as Hin
      by (rewrite Harcs; apply list_elem_of_here).
    apply get_all_arcs_elem in Hin as [f Hf]; [|done]. by rewrite Hnone in Hf.
Qed.

(** X15.  [get_all_neighboring_arcs(var)] raises [KeyError] exactly when
    [var] was not added as a variable.  Otherwise it returns the arcs
    [(i, var)] for the [i] to which [var] has a constraint, in the order
    of registration: an arc into [var] is listed when the opposite arc is
    registered.  So on a graph that registers every constraint in both
    directions it lists exactly the registered arcs into [var]. *)
Theorem get_all_neighboring_arcs_outcome csp var :
  match get_all_neighboring_arcs csp var with
  | Raise e => e = KeyError ∧ ¬ registered csp var
  | Ok arcs =>
      registered csp var ∧
      (∀ i j, (i, j) ∈ arcs ↔ j = var ∧ is_Some (constraint_of csp var i)) ∧
      (symmetric csp →
       ∀ i j, (i, j) ∈ arcs ↔ j = var ∧ is_Some (constraint_of csp i var))
  end.
Proof.
  unfold get_all_neighboring_arcs, registered.
  destruct (od_get (constraints csp) var) as [cv|] eqn:Hcv.
  2:{ split; [done | by intros [? ?]]. }
  assert (∀ i j, (i, j) ∈ (λ i, (i, var)) <$> od_keys cv ↔
                 j = var ∧ is_Some (constraint_of csp var i)) as Harcs.
  { intros i j. rewrite list_elem_of_fmap. unfold constraint_of.
    rewrite Hcv. simpl. rewrite od_get_is_Some_keys. split.
    - intros (k & [= -> ->] & Hk). done.
    - intros [-> Hi]. by exists i. }
  split_and!; [by eauto | done |].
  intros Hsym i j. rewrite Harcs. split; intros [-> Hc]; (split; [done|]);
    by apply Hsym.
Qed.
End BuilderMore.

(** ** What the search raises *)

Section SearchRaises.
Context {Val : Type} {Val_eq_dec : EqDecision Val}.
Local Abbreviation State := (State Val).
Local Abbreviation M := (M Val).
Implicit Types (s : State) (csp : CSP Val) (a : nat) (i j v var : string).

Lemma sound_valid s a : sound s a → valid_assignment s a.
Proof.
  intros (m & Hm & Hall). exists m. split; [done|]. intros k l Hk.
  apply od_get_Some_elem in Hk.
  by apply (proj1 (Forall_forall _ _) Hall) in Hk.
Qed.

Lemma sound_extends s s' a : extends s s' → sound s a → sound s' a.
Proof.
  intros Hext (m & Hm & Hall). exists m. split; [by apply Hext|].
  eapply Forall_impl; [exact Hall|]. intros e He. simpl in He.
  apply extends_length in Hext. lia.
Qed.

Lemma sound_engine_step s s' a b : engine_step b s s' → sound s a → sound s' a.
Proof.
  intros Hstep (m & Hm & Hall). exists m.
  by rewrite (proj1 Hstep), (engine_step_length _ _ _ Hstep).
Qed.

Lemma engine_step_domain_is_Some s s' a b v :
  engine_step b s s' → is_Some (domain_of s a v) → is_Some (domain_of s' a v).
Proof.
  intros Hstep [xs (m & l & Hm & Hl & Hxs)%domain_of_Some].
  destruct (engine_step_list_fwd _ _ _ _ _ Hstep Hxs) as (xs' & Hxs' & _).
  exists xs'. apply domain_of_Some. exists m, l. by rewrite (proj1 Hstep).
Qed.

Lemma covered_engine_step csp s s' a b :
  engine_step b s s' → covered csp s a → covered csp s' a.
Proof.
  intros Hstep Hcov i j Hc. destruct (Hcov i j Hc) as [Hi Hj].
  split; by eapply engine_step_domain_is_Some.
Qed.

(** *** [copy.deepcopy] returns *)

Lemma deepcopy_items_total items : ∀ memo s,
  Forall (fun e => e.2 < length (lists s)) items →
  ∃ items' s',
    deepcopy_items (Val := Val) items memo s = Ok (items', s').
Proof.
  induction items as [|[k l] rest IH]; intros memo s Hall; [by eexists _, _|].
  apply Forall_cons in Hall as [Hl Hrest]. simpl in *.
  destruct (od_get memo l) as [l'|].
  - destruct (IH memo s Hrest) as (rest' & s' & Hr).
    exists ((k, l') :: rest'), s'. by rewrite (bind_eq _ _ _ _ _ Hr).
  - destruct (lookup_lt_is_Some_2 _ _ Hl) as [xs Hxs].
    rewrite (bind_eq _ _ s xs s) by (by apply read_list_Ok).
    set (s1 := with_lists s (lists s ++ [xs])).
    rewrite (bind_eq _ _ s (length (lists s)) s1) by done.
    destruct (IH ((l, length (lists s)) :: memo) s1) as (rest' & s' & Hr).
    { eapply Forall_impl; [exact Hrest|]. intros e He. simpl in *.
      rewrite length_app. simpl. lia. }
    exists ((k, length (lists s)) :: rest'), s'.
    by rewrite (bind_eq _ _ _ _ _ Hr).
Qed.

Lemma deepcopy_items_bound items : ∀ memo s items' s',
  deepcopy_items (Val := Val) items memo s = Ok (items', s') →
  (∀ l l', od_get memo l = Some l' → l' < length (lists s)) →
  length (lists s) ≤ length (lists s') ∧
  Forall (fun e => e.2 < length (lists s')) items'.
Proof.
  induction items as [|[k l] rest IH]; intros memo s items' s' Hc Hmemo.
  { simpl in Hc. monad_inv Hc. by split. }
  simpl in Hc. destruct (od_get memo l) as [l'|] eqn:Hhit.
  - apply bind_Ok in Hc as (rest' & s2 & Hc0 & Hc). monad_inv Hc.
    destruct (IH _ _ _ _ Hc0 Hmemo) as [Hle Hall]. split; [done|].
    constructor; [|done]. simpl. apply Hmemo in Hhit. lia.
  - apply bind_Ok in Hc as (xs0 & s1' & Hread & Hc). monad_inv Hread.
    apply bind_Ok in Hc as (l' & s1 & Hal & Hc). monad_inv Hal.
    apply bind_Ok in Hc as (rest' & s2 & Hc2 & Hc). monad_inv Hc.
    destruct (IH _ _ _ _ Hc2) as [Hle Hall].
    { intros l0 l0'. simpl. rewrite length_app. simpl.
      destruct (decide (l0 = l)) as [->|Hne]; [intros [= <-]; lia|].
      intros Hl%Hmemo. lia. }
    simpl in Hle. rewrite length_app in Hle. simpl in Hle.
    split; [lia|]. constructor; [simpl; lia | done].
Qed.

Lemma deepcopy_sound a s na s1 : deepcopy a s = Ok (na, s1) → sound s1 na.
Proof.
  unfold deepcopy. intros Hc.
  apply bind_Ok in Hc as (items & s0 & Hread & Hc). monad_inv Hread.
  apply bind_Ok in Hc as (items' & s' & Hitems & Hc). monad_inv Hc.
  destruct (deepcopy_items_bound _ _ _ _ _ Hitems) as [_ Hall]; [done|].
  exists items'. split; [|done].
  simpl. by rewrite lookup_app_r, Nat.sub_diag.
Qed.

Lemma deepcopy_total a s :
  sound s a → ∃ na s1, deepcopy a s = Ok (na, s1).
Proof.
  intros (m & Hm & Hall). unfold deepcopy.
  rewrite (bind_eq _ _ s m s) by (by apply read_dict_Ok).
  destruct (deepcopy_items_total m [] s Hall) as (items' & s' & Hitems).
  rewrite (bind_eq _ _ _ _ _ Hitems). by eexists _, _.
Qed.

(** *** [inference] returns *)

Lemma get_all_neighboring_arcs_registered csp i arcs :
  symmetric csp → get_all_neighboring_arcs csp i = Ok arcs →
  Forall (fun k : arc => is_Some (constraint_of csp k.1 k.2)) arcs.
Proof.
  unfold get_all_neighboring_arcs. intros Hsym.
  destruct (od_get (constraints csp) i) as [ci|] eqn:Hci; [|done].
  intros [= <-]. apply Forall_forall.
  intros [k i'] (k' & [= -> ->] & Hk)%list_elem_of_fmap. simpl.
  apply Hsym. unfold constraint_of. rewrite Hci. simpl.
  by apply od_get_is_Some_keys.
Qed.

Lemma constraint_registered csp i j :
  is_Some (constraint_of csp i j) → registered csp i.
Proof.
  unfold constraint_of, registered. intros [f Hf].
  destruct (od_get (constraints csp) i); [by eauto | done].
Qed.

Lemma get_all_neighboring_arcs_total csp i :
  registered csp i → ∃ arcs, get_all_neighboring_arcs csp i = Ok arcs.
Proof.
  unfold get_all_neighboring_arcs. intros [ci ->]. by eauto.
Qed.

Lemma revise_registered csp a i j s :
  valid_assignment s a → covered csp s a → is_Some (constraint_of csp i j) →
  ∃ b s', revise csp a i j s = Ok (b, s').
Proof.
  intros Hvalid Hcov Hc. destruct (Hcov i j Hc) as [[xs Hxs] [ys Hys]].
  eapply revise_total; [done..|]. by left.
Qed.

Lemma inference_loop_returns csp a fuel : ∀ q s e,
  symmetric csp → valid_assignment s a → covered csp s a →
  Forall (fun k : arc => is_Some (constraint_of csp k.1 k.2)) q →
  inference_loop csp a fuel q s = Raise e → e = OutOfFuel.
Proof.
  induction fuel as [|fuel IH]; intros [|[i j] rest] s e Hsym Hvalid Hcov Hq.
  - by rewrite inference_loop_nil.
  - simpl. by intros [= <-].
  - by rewrite inference_loop_nil.
  - rewrite inference_loop_cons.
    apply Forall_cons in Hq as [Hij Hrest]. simpl in Hij.
    destruct (revise_registered csp a i j s Hvalid Hcov Hij) as (b & s1 & Hrev).
    rewrite (bind_eq _ _ _ _ _ Hrev).
    pose proof Hrev as Hstep. apply revise_spec in Hstep as [Hstep _].
    assert (valid_assignment s1 a) as Hvalid1.
    { destruct Hvalid as (m & Hm & Hlt). exists m.
      by rewrite (proj1 Hstep), (engine_step_length _ _ _ Hstep). }
    pose proof (covered_engine_step _ _ _ _ _ Hstep Hcov) as Hcov1.
    destruct b; [|by apply IH].
    destruct (Hcov1 i j Hij) as [[xs Hxs] _].
    rewrite (domain_of_getitem_read_list _ _ _ _ _ Hxs).
    destruct xs as [|x xs]; [done|].
    destruct (get_all_neighboring_arcs_total csp i) as [arcs Harcs];
      [by eapply constraint_registered|].
    rewrite Harcs. unfold from_res at 1.
    rewrite (bind_eq _ _ s1 arcs s1) by done.
    apply IH; try done. apply Forall_app. split; [done|].
    unfold requeue. apply Forall_forall. intros k [_ Hk]%list_elem_of_filter.
    by apply (proj1 (Forall_forall _ _)
                (get_all_neighboring_arcs_registered _ _ _ Hsym Harcs)).
Qed.

Lemma inference_total csp a q s :
  symmetric csp → valid_assignment s a → covered csp s a →
  Forall (fun k : arc => is_Some (constraint_of csp k.1 k.2)) q →
  ∃ b s', inference csp a q s = Ok (b, s').
Proof.
  intros Hsym Hvalid Hcov Hq.
  destruct (inference csp a q s) as [[b s']|e] eqn:Hinf; [by eauto|].
  exfalso. apply (inference_fuel_error csp a q s).
  rewrite Hinf. f_equal. revert Hinf. unfold inference.
  by apply inference_loop_returns.
Qed.

(** X17.  On a graph that registers every constraint in both directions,
    with an assignment that has a domain for both variables of every
    registered arc, [inference] raises no exception when the arcs of its
    queue are registered: it returns [True] or [False]. *)
Theorem inference_returns csp a q s :
  symmetric csp → valid_assignment s a → covered csp s a →
  Forall (fun k : arc => is_Some (constraint_of csp k.1 k.2)) q →
  ∃ b s', inference csp a q s = Ok (b, s') ∧ engine_step a s s'.
Proof.
  intros Hsym Hvalid Hcov Hq.
  destruct (inference_total csp a q s Hsym Hvalid Hcov Hq) as (b & s' & Hinf).
  exists b, s'. split; [done|]. by eapply inference_spec.
Qed.

(** *** [inference] that answers [True] leaves no domain empty *)

Lemma revise_frame csp a i j s b s' :
  revise csp a i j s = Ok (b, s') →
  ∃ m li,
    dicts s !! a = Some m ∧ od_get m i = Some li ∧ dicts s' = dicts s ∧
    (b = false → s' = s) ∧
    ∀ l, l ≠ li → lists s' !! l = lists s !! l.
Proof.
  intros Hrev. pose proof Hrev as Hspec.
  apply revise_spec in Hspec as [(Hd & _) Hb].
  unfold revise in Hrev.
  apply bind_Ok in Hrev as (li & s0 & Hli & Hrev).
  apply getitem_Ok in Hli as [(m & Hm & Hli) ->].
  apply bind_Ok in Hrev as (xs & s0 & Hxs & Hrev). monad_inv Hxs.
  exists m, li. split_and!; [done..| |].
  - by intros ->.
  - by eapply revise_loop_frame.
Qed.

Lemma inference_loop_nonempty csp a fuel : ∀ q s s',
  inference_loop csp a fuel q s = Ok (true, s') →
  nonempty s a → nonempty s' a.
Proof.
  induction fuel as [|fuel IH]; intros [|[i j] rest] s s'.
  - rewrite inference_loop_nil. intros Hi. by monad_inv Hi.
  - done.
  - rewrite inference_loop_nil. intros Hi. by monad_inv Hi.
  - rewrite inference_loop_cons. intros Hi Hne.
    apply bind_Ok in Hi as (revised & s1 & Hrev & Hi).
    destruct (revise_frame _ _ _ _ _ _ _ Hrev)
      as (m & li & Hm & Hli & Hd & Hsame & Hframe).
    destruct revised; [|rewrite (Hsame eq_refl) in Hi; by eapply IH].
    apply bind_Ok in Hi as (li' & s2 & Hli' & Hi).
    apply bind_Ok in Hi as (zs & s3 & Hzs & Hi).
    destruct (getitem_read_list _ _ _ _ _ _ _ Hli' Hzs) as [-> Hdom].
    destruct zs as [|z zs]; [by monad_inv Hi|].
    apply bind_Ok in Hi as (arcs & s4 & Harcs & Hi). monad_inv Harcs.
    eapply IH; [exact Hi|].
    intros v ys (m1 & l & Hm1 & Hl & Hys)%domain_of_Some.
    rewrite Hd, Hm in Hm1. injection Hm1 as <-.
    destruct (decide (l = li)) as [->|Hl'].
    + apply domain_of_Some in Hdom as (m0 & l0 & Hm0 & Hl0 & Hzs0).
      rewrite Hd, Hm in Hm0. injection Hm0 as <-.
      rewrite Hli in Hl0. injection Hl0 as <-. congruence.
    + rewrite (Hframe l Hl') in Hys. apply (Hne v).
      apply domain_of_Some. by exists m, l.
Qed.

(** *** [branch] returns *)

Lemma branch_total csp a var value s :
  symmetric csp → sound s a → covered csp s a → registered csp var →
  ∃ na ok s2, branch csp a var value s = Ok ((na, ok), s2).
Proof.
  intros Hsym Hsound Hcov Hreg. unfold branch.
  destruct (deepcopy_total a s Hsound) as (na & s1 & Hcopy).
  rewrite (bind_eq _ _ _ _ _ Hcopy).
  pose proof Hcopy as Hspec.
  apply deepcopy_spec in Hspec as (_ & _ & _ & Hna & Hlen & _).
  destruct (lookup_lt_is_Some_2 (dicts s1) na) as [items Hitems]; [lia|].
  destruct (branch_start a var value s na s1 items Hcopy Hitems)
    as (Hvalid' & Hvar & Hother & _).
  set (s1' := with_lists s1 (lists s1 ++ [[value]])).
  rewrite (bind_eq _ _ s1 (length (lists s1)) s1') by done.
  set (s1'' := with_dicts (with_lists s1 (lists s1 ++ [[value]]))
                 (<[na := od_set items var (length (lists s1))]> (dicts s1)))
    in *.
  rewrite (bind_eq _ _ s1' tt s1'') by (apply setitem_Ok; by exists items).
  destruct (get_all_neighboring_arcs_total csp var Hreg) as [arcs Harcs].
  rewrite Harcs. unfold from_res at 1.
  rewrite (bind_eq _ _ s1'' arcs s1'') by done.
  destruct (inference_total csp na arcs s1'') as (ok & s2 & Hinf); try done.
  - intros i j Hc. destruct (Hcov i j Hc) as [Hi Hj].
    pose proof (sound_valid _ _ Hsound) as Hvalid.
    split.
    + destruct (decide (i = var)) as [->|Hne]; [by eexists|].
      by rewrite (Hother Hvalid i Hne).
    + destruct (decide (j = var)) as [->|Hne]; [by eexists|].
      by rewrite (Hother Hvalid j Hne).
  - by eapply get_all_neighboring_arcs_registered.
  - rewrite (bind_eq _ _ _ _ _ Hinf). by eexists _, _, _.
Qed.

(** What a branch hands to the recursive call. *)
Lemma branch_keeps csp a var value s na ok s2 :
  sound s a → covered csp s a →
  Forall (fun v => is_Some (domain_of s a v)) (variables csp) →
  branch csp a var value s = Ok ((na, ok), s2) →
  sound s2 na ∧ covered csp s2 na ∧
  Forall (fun v => is_Some (domain_of s2 na v)) (variables csp) ∧
  (nonempty s a → ok = true → nonempty s2 na).
Proof.
  intros Hsound Hcov Hvars Hb.
  pose proof (sound_valid _ _ Hsound) as Hvalid.
  apply branch_unfold in Hb as (s1 & items & arcs & Hcopy & Hitems & _ & Hinf).
  destruct (branch_start a var value s na s1 items Hcopy Hitems)
    as (_ & Hvar & Hother & _).
  specialize (Hother Hvalid).
  pose proof Hcopy as Hspec.
  apply deepcopy_spec in Hspec as (_ & _ & _ & -> & Hlen & Hfresh & _).
  set (s1' := with_dicts _ _) in *.
  apply inference_spec in Hinf as Hstep.
  assert (∀ v, is_Some (domain_of s a v) → is_Some (domain_of s1' (length (dicts s)) v))
    as Hdom.
  { intros v Hv. destruct (decide (v = var)) as [->|Hne]; [by eexists|].
    by rewrite (Hother v Hne). }
  split_and!.
  - eapply sound_engine_step; [done|].
    exists (od_set items var (length (lists s1))). split.
    + simpl. apply list_lookup_insert_eq. by eapply lookup_lt_Some.
    + destruct (deepcopy_sound _ _ _ _ Hcopy) as (items0 & Hitems0 & Hall).
      rewrite Hitems in Hitems0. simplify_eq.
      apply Forall_forall. intros e [->|He]%od_set_elem; simpl;
        rewrite length_app; simpl; [lia|].
      apply (proj1 (Forall_forall _ _) Hall) in He. lia.
  - eapply covered_engine_step; [done|]. intros i j Hc.
    destruct (Hcov i j Hc) as [Hi Hj]. split; by apply Hdom.
  - eapply Forall_impl; [exact Hvars|]. intros v Hv. simpl in *.
    eapply engine_step_domain_is_Some; [done|]. by apply Hdom.
  - intros Hne ->. eapply inference_loop_nonempty; [exact Hinf|].
    intros v xs Hv. destruct (decide (v = var)) as [->|Hne'].
    + rewrite Hvar in Hv. by simplify_eq.
    + rewrite (Hother v Hne') in Hv. by eapply Hne.
Qed.

(** *** [backtrack] *)

Lemma all_assigned_returns a vars s :
  Forall (fun v => is_Some (domain_of s a v)) vars →
  ∃ b, all_assigned a vars s = Ok (b, s) ∧
       (b = false → Exists (fun v => domain_len s a v ≠ 1) vars).
Proof.
  induction 1 as [|v vars [xs Hxs] _ IH]; [exists true; by split|]. simpl.
  rewrite (domain_of_getitem_read_list _ _ _ _ _ Hxs).
  destruct (decide (length xs = 1)) as [Hlen|Hlen].
  - destruct IH as (b & -> & Hb). exists b. split; [done|].
    intros Hf. apply Exists_cons_tl. by apply Hb.
  - exists false. split; [done|]. intros _. apply Exists_cons_hd.
    by rewrite (domain_len_Some _ _ _ _ Hxs).
Qed.

Lemma select_unassigned_variable_returns csp a s :
  Forall (fun v => is_Some (domain_of s a v)) (variables csp) →
  (∃ v, select_unassigned_variable csp a s = Ok (v, s)) ∨
  (select_unassigned_variable csp a s = Raise ValueError ∧
   Forall (fun v => domain_len s a v ≤ 1) (variables csp)).
Proof.
  intros Hall.
  set (us := filter (λ v, 1 < domain_len s a v) (variables csp)).
  assert (Forall (λ v, is_Some (domain_of s a v)) us) as Hus.
  { apply Forall_forall. intros u [_ Hu]%list_elem_of_filter.
    by apply (proj1 (Forall_forall _ _) Hall). }
  unfold select_unassigned_variable.
  rewrite (bind_eq _ _ _ _ _ (unassigned_vars_total _ _ _ Hall)). fold us.
  rewrite (bind_eq _ _ _ _ _ (keyed_total _ _ _ Hus)).
  destruct us as [|u us0] eqn:Hu; csimpl.
  - right. split; [done|]. apply Forall_forall. intros v Hv.
    destruct (decide (1 < domain_len s a v)) as [Hlt|]; [|lia].
    assert (v ∈ us) as Hin by (by apply list_elem_of_filter).
    rewrite Hu in Hin. by apply elem_of_nil in Hin.
  - left. by eexists.
Qed.

Lemma value_loop_tolerable ve (I : State → Prop) (try : Val → M (option nat))
    lv vs n :
  (∀ s, I s → lists s !! lv = Some vs) →
  (∀ s value, I s → tolerable ve (try value s)) →
  (∀ s value s', I s → try value s = Ok (None, s') → I s') →
  ∀ idx s, I s → length vs ≤ n + idx →
           tolerable ve (value_loop try lv n idx s).
Proof.
  intros Hvs Htry Hkeep. induction n as [|n IH]; intros idx s HI Hlen;
    rewrite value_loop_unfold;
    rewrite (bind_eq _ _ s vs s) by (apply read_list_Ok; eauto).
  - by rewrite lookup_ge_None_2 by lia.
  - destruct (vs !! idx) as [value|]; [|done].
    pose proof (Htry s value HI) as Htol.
    destruct (try value s) as [[result s1]|e] eqn:Hres.
    + rewrite (bind_eq _ _ _ _ _ Hres). destruct result as [r|]; [done|].
      apply IH; [by eapply Hkeep | lia].
    + by rewrite (bind_eq_raise _ _ _ _ Hres).
Qed.

(** The facts about an assignment that the search needs and keeps. *)
Lemma search_facts_extend csp s s' a :
  extends s s' → sound s a → covered csp s a →
  Forall (fun v => is_Some (domain_of s a v)) (variables csp) →
  sound s' a ∧ covered csp s' a ∧
  Forall (fun v => is_Some (domain_of s' a v)) (variables csp) ∧
  (nonempty s a → nonempty s' a) ∧
  undecided csp s' a = undecided csp s a ∧
  ∀ v, domain_of s' a v = domain_of s a v.
Proof.
  intros Hext Hsound Hcov Hvars.
  destruct (valid_assignment_extends _ _ _ (sound_valid _ _ Hsound) Hext)
    as [_ Hsame].
  split_and!.
  - by eapply sound_extends.
  - intros i j Hc. rewrite !Hsame. by apply Hcov.
  - eapply Forall_impl; [exact Hvars|]. intros v Hv. simpl. by rewrite Hsame.
  - intros Hne v xs. rewrite Hsame. apply Hne.
  - unfold undecided, domain_len. f_equal. apply list_filter_iff.
    intros v. by rewrite Hsame.
  - done.
Qed.

Lemma backtrack_rec_tolerable csp ve fuel : ∀ a s,
  symmetric csp → Forall (registered csp) (variables csp) →
  sound s a → covered csp s a →
  Forall (fun v => is_Some (domain_of s a v)) (variables csp) →
  (ve = false → nonempty s a) →
  undecided csp s a < fuel →
  tolerable ve (backtrack_rec csp fuel a s).
Proof.
  induction fuel as [|fuel IH];
    intros a s Hsym Hreg Hsound Hcov Hvars Hne Hfuel; [lia|].
  simpl. unfold bind at 1. unfold incr_backtrack_counter.
  set (s0 := mkState _ _ _ _).
  destruct (search_facts_extend csp s s0 a)
    as (Hsound0 & Hcov0 & Hvars0 & Hne0 & Hund0 & Hsame0);
    [apply extends_counters | done..|].
  destruct (all_assigned_returns a (variables csp) s0 Hvars0)
    as (complete & Hall & Hex).
  rewrite (bind_eq _ _ _ _ _ Hall). destruct complete; [done|].
  specialize (Hex eq_refl).
  destruct (select_unassigned_variable_returns csp a s0 Hvars0)
    as [[var Hsel]|[Hsel Hle]].
  2:{ rewrite (bind_eq_raise _ _ _ _ Hsel). destruct ve; [done|]. exfalso.
      apply Exists_exists in Hex as (v & Hv & Hlen).
      pose proof (proj1 (Forall_forall _ _) Hle v Hv) as Hle1.
      destruct (proj1 (Forall_forall _ _) Hvars0 v Hv) as [xs Hxs]. simpl in *.
      rewrite (domain_len_Some _ _ _ _ Hxs) in Hlen, Hle1.
      destruct xs as [|x xs]; [|simpl in *; lia].
      by apply (Hne0 (Hne eq_refl) v []). }
  rewrite (bind_eq _ _ _ _ _ Hsel).
  apply select_unassigned_variable_Ok in Hsel
    as (_ & pre & post & Hsplit & Hlen & _).
  assert (var ∈ variables csp) as Hvar.
  { rewrite Hsplit. apply elem_of_app. right. apply list_elem_of_here. }
  destruct (proj1 (Forall_forall _ _) Hvars0 var Hvar) as [vs Hvs].
  pose proof Hvs as (m & lv & Hm & Hlv & Hvs')%domain_of_Some.
  rewrite (bind_eq _ _ s0 lv s0) by (apply getitem_Ok; eauto).
  rewrite (bind_eq _ _ s0 vs s0) by (by apply read_list_Ok).
  apply (value_loop_tolerable ve (extends s0) _ lv vs);
    [| | |apply extends_refl|lia].
  - intros s1 Hext. by apply Hext.
  - intros s1 value Hext.
    destruct (search_facts_extend csp s0 s1 a Hext)
      as (Hsound1 & Hcov1 & Hvars1 & Hne1 & Hund1 & Hsame1); [done..|].
    unfold attempt.
    destruct (branch_total csp a var value s1) as (na & ok & s2 & Hbranch);
      [done..| by apply (proj1 (Forall_forall _ _) Hreg) |].
    rewrite (bind_eq _ _ _ _ _ Hbranch). destruct ok; [|done].
    destruct (branch_keeps _ _ _ _ _ _ _ _ Hsound1 Hcov1 Hvars1 Hbranch)
      as (Hsound2 & Hcov2 & Hvars2 & Hne2).
    assert (undecided csp s2 na < undecided csp s1 a) as Hlt.
    { eapply branch_undecided; [by apply sound_valid | done | | done].
      unfold domain_len. rewrite Hsame1. exact Hlen. }
    apply IH; try done; [|lia].
    intros Hve. apply Hne2; [|done]. by apply Hne1, Hne0, Hne.
  - intros s1 value s2 Hext Htry.
    apply attempt_extends in Htry; [|apply backtrack_rec_extends].
    by eapply extends_trans.
Qed.

(** The same for [backtracking_search]: the copy of [self.domains], the
    first [inference] over all arcs, then [backtrack]. *)
Lemma backtracking_search_tolerable csp ve s :
  wf_constraints csp → symmetric csp →
  Forall (registered csp) (variables csp) →
  sound s (domains csp) → covered csp s (domains csp) →
  Forall (fun v => is_Some (domain_of s (domains csp) v)) (variables csp) →
  (ve = false →
   ∀ a s1 b s2, deepcopy (domains csp) s = Ok (a, s1) →
                inference csp a (get_all_arcs csp) s1 = Ok (b, s2) →
                nonempty s2 a) →
  tolerable ve (backtracking_search csp s).
Proof.
  intros Hwf Hsym Hreg Hsound Hcov Hvars Hne. unfold backtracking_search.
  destruct (deepcopy_total _ _ Hsound) as (a & s1 & Hcopy).
  rewrite (bind_eq _ _ _ _ _ Hcopy).
  pose proof (deepcopy_sound _ _ _ _ Hcopy) as Hsound1.
  pose proof Hcopy as Hspec.
  apply deepcopy_spec in Hspec as (_ & _ & _ & _ & _ & _ & Hfw & _).
  assert (∀ v, is_Some (domain_of s (domains csp) v) →
               is_Some (domain_of s1 a v)) as Hdom.
  { intros v [xs Hxs]. exists xs. by apply Hfw. }
  assert (covered csp s1 a) as Hcov1.
  { intros i j Hc. destruct (Hcov i j Hc). split; by apply Hdom. }
  destruct (inference_total csp a (get_all_arcs csp) s1)
    as (ok & s2 & Hinf); [done | by apply sound_valid | done | |].
  { apply Forall_forall. intros [i j] Hij. by apply get_all_arcs_elem. }
  rewrite (bind_eq _ _ _ _ _ Hinf).
  apply inference_spec in Hinf as Hstep.
  apply backtrack_rec_tolerable; try done.
  - by eapply sound_engine_step.
  - by eapply covered_engine_step.
  - eapply Forall_impl; [exact Hvars|]. intros v Hv. simpl.
    eapply engine_step_domain_is_Some; [done|]. by apply Hdom.
  - intros Hve. by eapply Hne.
  - unfold undecided. pose proof (length_filter
      (λ v, 1 < domain_len s2 a v) (variables csp)). lia.
Qed.

(** X18.  On a graph that registers every constraint in both directions
    and every variable of which was added, with a domain in
    [self.domains] for every variable, [backtracking_search] raises
    nothing but [ValueError]: no [KeyError] comes out of [revise],
    [inference] or [backtrack].  ([ValueError] is what
    [select_unassigned_variable] raises when a domain is empty and no
    variable has two values.) *)
Theorem backtracking_search_raises_only_value_error csp s e :
  wf_constraints csp → symmetric csp →
  Forall (registered csp) (variables csp) →
  sound s (domains csp) → covered csp s (domains csp) →
  Forall (fun v => is_Some (domain_of s (domains csp) v)) (variables csp) →
  backtracking_search csp s = Raise e → e = ValueError.
Proof.
  intros Hwf Hsym Hreg Hsound Hcov Hvars Hraise.
  assert (tolerable true (backtracking_search csp s)) as Htol
    by (by apply backtracking_search_tolerable).
  rewrite Hraise in Htol. by destruct e.
Qed.

Lemma backtracking_search_succeeds_aux csp σ s :
  wf_constraints csp → symmetric csp →
  Forall (registered csp) (variables csp) →
  sound s (domains csp) → separate s (domains csp) →
  covered csp s (domains csp) →
  Forall (fun v => is_Some (domain_of s (domains csp) v)) (variables csp) →
  solution csp σ → within σ s (domains csp) →
  ∃ r s', backtracking_search csp s = Ok (Some r, s').
Proof.
  intros Hwf Hsym Hreg Hsound Hsep Hcov Hvars Hsol Hin.
  pose proof (sound_valid _ _ Hsound) as Hvalid.
  pose proof (backtracking_search_tolerable csp false s Hwf Hsym Hreg Hsound
                Hcov Hvars) as Htol.
  destruct (backtracking_search csp s) as [[r s']|e] eqn:Hb.
  - destruct (backtrack_search_finds_aux csp σ s r s' Hsol Hvalid Hsep Hin Hb)
      as [r' ->]. by eauto.
  - exfalso. assert (tolerable false (Raise (A := option nat * State) e)) as Hf.
    { apply Htol. intros _ a s1 b s2 Hcopy Hinf v xs Hv.
      pose proof Hcopy as Hspec.
      apply deepcopy_spec in Hspec as (_ & _ & _ & _ & _ & _ & _ & Hbw).
      assert (within σ s1 a) as Hin1.
      { intros w ws Hw. apply Hin. by apply Hbw. }
      pose proof (deepcopy_separate _ _ _ _ Hcopy Hsep) as Hsep1.
      destruct (inference_within _ _ _ _ _ _ _ Hsol Hsep1 Hin1 Hinf)
        as (_ & _ & Hin2).
      apply Hin2 in Hv. intros ->. by apply elem_of_nil in Hv. }
    destruct e; done.
Qed.

(** X19.  On such a graph, when the variables can be given values from
    [self.domains] (a list object of its own for every variable) such that
    every registered predicate accepts, [backtracking_search] returns an
    assignment: it raises no exception and does not answer [None]. *)
Theorem backtracking_search_succeeds csp σ s :
  wf_constraints csp → symmetric csp →
  Forall (registered csp) (variables csp) →
  sound s (domains csp) → separate s (domains csp) →
  covered csp s (domains csp) →
  Forall (fun v => is_Some (domain_of s (domains csp) v)) (variables csp) →
  solution csp σ → within σ s (domains csp) →
  ∃ r s', backtracking_search csp s = Ok (Some r, s').
Proof. apply backtracking_search_succeeds_aux. Qed.
End SearchRaises.

Lemma separate_pair_state : separate pair_state 0.
Proof.
  exists [("A", 0); ("B", 1)]. split; [reflexivity|].
  intros k1 k2 l. simpl. repeat case_decide; congruence.
Defined.

Lemma solution_pair_csp : solution pair_csp pair_solution.
Proof.
  intros i j f. unfold constraint_of, pair_solution. simpl.
  repeat (case_decide; simplify_eq/=); try done; intros [= <-]; done.
Defined.

Lemma within_pair_state : within pair_solution pair_state 0.
Proof.
  intros v xs. unfold domain_of, pair_solution. simpl.
  repeat (case_decide; simplify_eq/=); try done; intros [= <-].
  - apply list_elem_of_further, list_elem_of_here.
  - apply list_elem_of_here.
Defined.

Lemma inference_keeps_solution_witness :
  inference pair_csp 0 (get_all_arcs pair_csp) pair_state
    = Ok (true, pair_revised) ∧
  true = true ∧ within pair_solution pair_revised 0.
Proof.
  split; [reflexivity|].
  apply (inference_keeps_solution pair_csp pair_solution 0
           (get_all_arcs pair_csp) pair_state true pair_revised).
  - exact solution_pair_csp.
  - exact separate_pair_state.
  - exact within_pair_state.
  - reflexivity.
Defined.

Lemma backtracking_search_finds_witness :
  backtracking_search pair_csp pair_state = Ok (Some 1, pair_found) ∧
  is_Some (Some 1).
Proof.
  split; [reflexivity|].
  apply (backtracking_search_finds pair_csp pair_solution pair_state (Some 1)
           pair_found).
  - exact solution_pair_csp.
  - exact valid_assignment_pair_state.
  - exact separate_pair_state.
  - exact within_pair_state.
  - reflexivity.
Defined.

Lemma select_unassigned_variable_raises_iff_witness :
  Forall (fun v => is_Some (domain_of same_value_state 0 v))
         (variables same_value_csp) ∧
  (select_unassigned_variable same_value_csp 0 same_value_state
     = Raise ValueError ↔
   ValueError = ValueError ∧
   Forall (fun v => domain_len same_value_state 0 v ≤ 1)
          (variables same_value_csp)).
Proof.
  assert (Forall (fun v => is_Some (domain_of same_value_state 0 v))
                 (variables same_value_csp)) as Hall.
  { repeat constructor; by eexists. }
  split; [exact Hall|].
  apply (select_unassigned_variable_raises_iff same_value_csp 0
           same_value_state ValueError Hall).
Defined.

Lemma backtrack_complete_assignment_witness :
  Forall (fun v => ∃ x, domain_of same_value_state 0 v = Some [x])
         (variables same_value_csp) ∧
  backtrack same_value_csp 0 same_value_state =
  Ok (Some 0, mkState [[1]; [1]]%Z [[("A", 0); ("B", 1)]] 1 0).
Proof.
  assert (Forall (fun v => ∃ x, domain_of same_value_state 0 v = Some [x])
                 (variables same_value_csp)) as Hall.
  { repeat constructor; by exists 1%Z. }
  split; [exact Hall|].
  apply (backtrack_complete_assignment same_value_csp 0 same_value_state Hall).
Defined.

Lemma counters_after_search_witness :
  (r <- backtracking_search pair_csp ;;
   c <- get_backtrack_counter ;;
   f <- get_backtrack_failure_counter ;;
   ret (r, c, f)) pair_state = Ok ((Some 1, 1, 0), pair_found) ∧
  0 < 1 ∧ 0 ≤ 0 ∧ 0 - 0 < 1 - 0.
Proof.
  split; [reflexivity|].
  apply (counters_after_search pair_csp pair_state (Some 1) 1 0 pair_found).
  reflexivity.
Defined.

Lemma backtracking_search_result_witness :
  backtracking_search pair_csp pair_state = Ok (Some 1, pair_found) ∧
  extends pair_state pair_found ∧
  Forall (fun v => ∃ x xs, domain_of pair_found 1 v = Some [x] ∧
                           domain_of pair_state 0 v = Some xs ∧ x ∈ xs)
         (variables pair_csp).
Proof.
  split; [reflexivity|].
  apply (backtracking_search_result pair_csp pair_state 1 pair_found).
  - exact valid_assignment_pair_state.
  - reflexivity.
Defined.

Lemma search_ends_witness :
  valid_assignment pair_state 0 ∧ ended (backtrack pair_csp 0 pair_state).
Proof.
  split; [exact valid_assignment_pair_state|].
  exact (proj1 (proj2 (search_ends pair_csp pair_state)) 0
           valid_assignment_pair_state).
Defined.

Lemma wf_constraints_pair_csp : wf_constraints pair_csp.
Proof.
  split; [|repeat constructor]; apply (bool_decide_unpack _); vm_compute;
    exact I.
Defined.

Lemma add_variable_effect_witness :
  dicts pair_state !! domains pair_csp = Some [("A", 0); ("B", 1)] ∧
  ∃ csp' s',
    add_variable pair_csp "A" [5%Z] pair_state = Ok (csp', s') ∧
    variables csp' = variables pair_csp ++ ["A"] ∧
    domains csp' = domains pair_csp ∧
    domain_of s' (domains pair_csp) "A" = Some [5%Z] ∧
    (∀ l xs, lists pair_state !! l = Some xs → lists s' !! l = Some xs) ∧
    (valid_assignment pair_state (domains pair_csp) →
     ∀ v, v ≠ "A" →
          domain_of s' (domains pair_csp) v
          = domain_of pair_state (domains pair_csp) v) ∧
    registered csp' "A" ∧
    (∀ j, constraint_of csp' "A" j = None) ∧
    (∀ i j, i ≠ "A" → constraint_of csp' i j = constraint_of pair_csp i j).
Proof.
  split; [reflexivity|].
  apply (add_variable_effect pair_csp "A" [5%Z] pair_state
           [("A", 0); ("B", 1)]).
  reflexivity.
Defined.

Lemma add_all_different_constraint_raises_iff_witness :
  (∀ i j, i ∈ ["C"; "C"] → j ∈ ["C"; "C"] → i = j) ∧
  add_all_different_constraint pair_csp ["C"; "C"] = Ok pair_csp.
Proof.
  assert (∀ i j : string, i ∈ ["C"; "C"] → j ∈ ["C"; "C"] → i = j) as Hsame.
  { intros i j Hi Hj.
    repeat (apply elem_of_cons in Hi as [Hi|Hi]);
      repeat (apply elem_of_cons in Hj as [Hj|Hj]);
      try congruence; exfalso; eapply elem_of_nil; eassumption. }
  split; [exact Hsame|].
  exact (proj2 (add_all_different_constraint_raises_iff pair_csp ["C"; "C"])
           Hsame).
Defined.

Lemma get_all_arcs_exact_witness :
  wf_constraints pair_csp ∧
  NoDup (get_all_arcs pair_csp) ∧
  (∀ i j, (i, j) ∈ get_all_arcs pair_csp ↔
          is_Some (constraint_of pair_csp i j)) ∧
  ((∀ i j, constraint_of pair_csp i j = None) → get_all_arcs pair_csp = []).
Proof.
  split; [exact wf_constraints_pair_csp|].
  apply (get_all_arcs_exact pair_csp), wf_constraints_pair_csp.
Defined.

(** ** The map colouring graph *)

Lemma wf_constraints_map_coloring_csp : wf_constraints map_coloring_csp.
Proof.
  split; [|repeat constructor]; apply (bool_decide_unpack _); vm_compute;
    exact I.
Qed.

Lemma get_all_arcs_map_coloring_csp :
  get_all_arcs map_coloring_csp =
  [("WA", "SA"); ("WA", "NT"); ("NT", "SA"); ("NT", "WA"); ("NT", "Q");
   ("Q", "SA"); ("Q", "NT"); ("Q", "NSW"); ("NSW", "SA"); ("NSW", "Q");
   ("NSW", "V"); ("V", "SA"); ("V", "NSW"); ("SA", "WA"); ("SA", "NT");
   ("SA", "Q"); ("SA", "NSW"); ("SA", "V")].
Proof. reflexivity. Qed.

(** Case analysis over the registered arcs of the map colouring graph. *)
Ltac map_coloring_arcs H :=
  apply mk_is_Some, (get_all_arcs_elem _ _ _ wf_constraints_map_coloring_csp) in H;
  rewrite get_all_arcs_map_coloring_csp in H;
  repeat (apply elem_of_cons in H as [H|H]);
  [..|by apply elem_of_nil in H]; simplify_eq.

(** X16.  [create_map_coloring_csp] builds, without a [KeyError], the
    graph of the seven states with the colours red, green and blue for
    each: every border of the [edges] table is registered in both
    directions with the predicate [i != j], which gives 18 arcs, and the
    state that has no border has no constraint.  On this graph
    [backtracking_search] returns, after four calls of [backtrack] and no
    failure, an assignment in which every registered predicate accepts:
    neighbouring states have different colours. *)
Theorem create_map_coloring_csp_solved :
  create_map_coloring_csp (mkState [] [] 0 0)
    = Ok (map_coloring_csp, map_coloring_state) ∧
  symmetric map_coloring_csp ∧
  (∀ i j f, constraint_of map_coloring_csp i j = Some f → f = not_equal) ∧
  length (get_all_arcs map_coloring_csp) = 18 ∧
  (∀ j, constraint_of map_coloring_csp "T" j = None) ∧
  ∃ r s',
    backtracking_search map_coloring_csp map_coloring_state = Ok (Some r, s') ∧
    backtrack_counter s' = 4 ∧ backtrack_failure_counter s' = 0 ∧
    Forall (fun v => ∃ x, domain_of s' r v = Some [x])
           (variables map_coloring_csp) ∧
    satisfies map_coloring_csp s' r.
Proof.
  split_and!.
  - reflexivity.
  - intros i j [f Hf]. map_coloring_arcs Hf; by eexists.
  - intros i j f Hf. pose proof Hf as Harc.
    map_coloring_arcs Harc; by injection Hf as <-.
  - reflexivity.
  - intros j. destruct (constraint_of map_coloring_csp "T" j) as [f|] eqn:Hf;
      [|done].
    map_coloring_arcs Hf.
  - eexists _, _. split_and!; [vm_compute; reflexivity | reflexivity..| |].
    + repeat constructor; by eexists.
    + intros i j f x y Hf Hx Hy. pose proof Hf as Harc.
      map_coloring_arcs Harc; injection Hf as <-;
        injection Hx as <-; injection Hy as <-; reflexivity.
Qed.

(** ** The hypotheses of the theorems above on the example graphs *)

Lemma symmetric_by_arcs {Val : Type} (csp : CSP Val) :
  wf_constraints csp →
  Forall (fun k : arc => is_Some (constraint_of csp k.2 k.1)) (get_all_arcs csp) →
  symmetric csp.
Proof.
  intros Hwf Hall i j Hc. apply get_all_arcs_elem in Hc; [|done].
  by apply (proj1 (Forall_forall _ _) Hall) in Hc.
Qed.

Lemma covered_by_arcs {Val : Type} (csp : CSP Val) (s : State Val) a :
  wf_constraints csp →
  Forall (fun k : arc => is_Some (domain_of s a k.1) ∧
                         is_Some (domain_of s a k.2)) (get_all_arcs csp) →
  covered csp s a.
Proof.
  intros Hwf Hall i j Hc. apply get_all_arcs_elem in Hc; [|done].
  by apply (proj1 (Forall_forall _ _) Hall) in Hc.
Qed.

Lemma symmetric_pair_csp : symmetric pair_csp.
Proof.
  apply symmetric_by_arcs; [exact wf_constraints_pair_csp|].
  repeat constructor; by eexists.
Qed.

Lemma registered_pair_csp : Forall (registered pair_csp) (variables pair_csp).
Proof. repeat constructor; by eexists. Qed.

Lemma sound_pair_state : sound pair_state 0.
Proof.
  exists [("A", 0); ("B", 1)]. split; [reflexivity|].
  repeat constructor; simpl; lia.
Qed.

Lemma covered_pair_state : covered pair_csp pair_state 0.
Proof.
  apply covered_by_arcs; [exact wf_constraints_pair_csp|].
  repeat constructor; by eexists.
Qed.

Lemma domains_pair_state :
  Forall (fun v => is_Some (domain_of pair_state 0 v)) (variables pair_csp).
Proof. repeat constructor; by eexists. Qed.

Lemma sound_same_value_state : sound same_value_state 0.
Proof.
  exists [("A", 0); ("B", 1)]. split; [reflexivity|].
  repeat constructor; simpl; lia.
Qed.

Lemma covered_same_value_state : covered same_value_csp same_value_state 0.
Proof.
  apply covered_by_arcs; [exact wf_constraints_pair_csp|].
  repeat constructor; by eexists.
Qed.

Lemma inference_returns_witness :
  ∃ b s', inference pair_csp 0 (get_all_arcs pair_csp) pair_state = Ok (b, s') ∧
          engine_step 0 pair_state s'.
Proof.
  apply (inference_returns pair_csp 0 (get_all_arcs pair_csp) pair_state).
  - exact symmetric_pair_csp.
  - exact valid_assignment_pair_state.
  - exact covered_pair_state.
  - repeat constructor; by eexists.
Defined.

Lemma backtracking_search_raises_only_value_error_witness :
  backtracking_search same_value_csp same_value_state = Raise ValueError ∧
  ValueError = ValueError.
Proof.
  split; [reflexivity|].
  apply (backtracking_search_raises_only_value_error same_value_csp
           same_value_state ValueError).
  - exact wf_constraints_pair_csp.
  - exact symmetric_pair_csp.
  - exact registered_pair_csp.
  - exact sound_same_value_state.
  - exact covered_same_value_state.
  - repeat constructor; by eexists.
  - reflexivity.
Defined.

Lemma backtracking_search_succeeds_witness :
  ∃ r s', backtracking_search pair_csp pair_state = Ok (Some r, s').
Proof.
  apply (backtracking_search_succeeds pair_csp pair_solution pair_state).
  - exact wf_constraints_pair_csp.
  - exact symmetric_pair_csp.
  - exact registered_pair_csp.
  - exact sound_pair_state.
  - exact separate_pair_state.
  - exact covered_pair_state.
  - exact domains_pair_state.
  - exact solution_pair_csp.
  - exact within_pair_state.
Defined.

(** ** The Sudoku graph *)

Section WithDomains.
Context {Val : Type} {Val_eq_dec : EqDecision Val}.
Implicit Types (csp : CSP Val) (i j : string).

Lemma add_constraint_one_way_with_domains d csp i j f :
  add_constraint_one_way (with_domains d csp) i j f =
  match add_constraint_one_way csp i j f with
  | Ok c => Ok (with_domains d c)
  | Raise e => Raise e
  end.
Proof.
  unfold add_constraint_one_way. simpl.
  destruct (od_get (constraints csp) i) as [ci|]; [|done].
  by destruct (od_mem ci j).
Qed.

Lemma add_all_different_pairs_with_domains d (pairs : list arc) : ∀ csp,
  add_all_different_pairs (with_domains d csp) pairs =
  match add_all_different_pairs csp pairs with
  | Ok c => Ok (with_domains d c)
  | Raise e => Raise e
  end.
Proof.
  induction pairs as [|[i j] ps IH]; intros csp; [done|]. simpl.
  destruct (decide (i = j)); [apply IH|].
  rewrite add_constraint_one_way_with_domains.
  destruct (add_constraint_one_way csp i j not_equal); [apply IH | done].
Qed.

Lemma add_all_different_constraints_with_domains d groups : ∀ csp,
  add_all_different_constraints (with_domains d csp) groups =
  match add_all_different_constraints csp groups with
  | Ok c => Ok (with_domains d c)
  | Raise e => Raise e
  end.
Proof.
  induction groups as [|g gs IH]; intros csp; [done|]. simpl.
  unfold add_all_different_constraint.
  rewrite add_all_different_pairs_with_domains.
  destruct (add_all_different_pairs csp _); [apply IH | done].
Qed.

(** [add_all_different_constraint] registers no other predicate than
    [x != y]. *)
Lemma add_all_different_pairs_not_equal (pairs : list arc) : ∀ csp csp',
  add_all_different_pairs csp pairs = Ok csp' →
  (∀ i j f, constraint_of csp i j = Some f → f = not_equal) →
  ∀ i j f, constraint_of csp' i j = Some f → f = not_equal.
Proof.
  induction pairs as [|[i0 j0] ps IH]; intros csp csp'; simpl.
  { by intros [= <-]. }
  destruct (decide (i0 = j0)); [apply IH|].
  destruct (decide (registered csp i0)) as [Hreg|Hnr].
  2:{ by rewrite (add_constraint_one_way_unregistered _ _ _ _ Hnr). }
  destruct (add_constraint_one_way_spec csp i0 j0 not_equal Hreg)
    as (csp1 & -> & Hc & _).
  intros Hps Hall. apply (IH _ _ Hps). intros i j f. rewrite Hc.
  case_decide as Hd; [|apply Hall].
  destruct (constraint_of csp i0 j0) as [g|] eqn:Hg.
  - intros [= <-]. by eapply Hall.
  - by intros [= <-].
Qed.

Lemma add_all_different_constraints_not_equal groups : ∀ csp csp',
  add_all_different_constraints csp groups = Ok csp' →
  (∀ i j f, constraint_of csp i j = Some f → f = not_equal) →
  ∀ i j f, constraint_of csp' i j = Some f → f = not_equal.
Proof.
  induction groups as [|g gs IH]; intros csp csp'; simpl.
  { by intros [= <-]. }
  destruct (add_all_different_constraint csp g) as [csp1|] eqn:Hg; [|done].
  intros Hgs Hall. apply (IH _ _ Hgs).
  by eapply add_all_different_pairs_not_equal.
Qed.
Lemma variables_with_domains d csp :
  variables (with_domains d csp) = variables csp.
Proof. done. Qed.

Lemma domains_with_domains d csp : domains (with_domains d csp) = d.
Proof. done. Qed.

Lemma constraint_of_with_domains d csp i j :
  constraint_of (with_domains d csp) i j = constraint_of csp i j.
Proof. done. Qed.

Lemma get_all_arcs_with_domains d csp :
  get_all_arcs (with_domains d csp) = get_all_arcs csp.
Proof. done. Qed.

Lemma symmetric_with_domains d csp :
  symmetric csp → symmetric (with_domains d csp).
Proof. done. Qed.

Lemma wf_constraints_with_domains d csp :
  wf_constraints csp → wf_constraints (with_domains d csp).
Proof. done. Qed.

Lemma registered_with_domains d csp :
  Forall (registered csp) (variables csp) →
  Forall (registered (with_domains d csp)) (variables (with_domains d csp)).
Proof. done. Qed.
End WithDomains.

Lemma built_Ok {Val : Type} (r : Res (CSP Val)) :
  match r with Ok _ => true | Raise _ => false end = true → r = Ok (built r).
Proof. by destruct r. Qed.

Lemma sudoku_graph_built :
  add_all_different_constraints sudoku_unconstrained
    (sudoku_rows ++ sudoku_columns ++ sudoku_boxes) = Ok sudoku_graph.
Proof.
  unfold sudoku_graph.
  apply (built_Ok (add_all_different_constraints sudoku_unconstrained
                     (sudoku_rows ++ sudoku_columns ++ sudoku_boxes))).
  vm_compute. reflexivity.
Qed.

Lemma sudoku_graph_variables :
  variables sudoku_graph = (fun p : nat * nat => cell_name p.1 p.2) <$> sudoku_cells.
Proof. vm_compute. reflexivity. Qed.

Lemma sudoku_graph_wf : wf_constraints sudoku_graph.
Proof.
  split; apply (bool_decide_unpack _); vm_compute; exact I.
Qed.

Lemma constraint_of_unconstrained {Val A : Type} (g : A → string)
    (xs : list A) vs d i j :
  constraint_of (Val := Val) (mkCSP vs d ((fun x => (g x, [])) <$> xs)) i j
  = None.
Proof.
  unfold constraint_of. cbn [constraints].
  induction xs as [|x xs IH]; [done|]. csimpl.
  destruct (decide (i = g x)); [done | apply IH].
Qed.

Lemma sudoku_graph_not_equal i j f :
  constraint_of sudoku_graph i j = Some f → f = not_equal.
Proof.
  apply (add_all_different_constraints_not_equal _ _ _ sudoku_graph_built).
  intros i' j' f'. unfold sudoku_unconstrained.
  by rewrite constraint_of_unconstrained.
Qed.

Lemma sudoku_graph_peers p q :
  p ∈ sudoku_cells → q ∈ sudoku_cells →
  is_Some (constraint_of sudoku_graph (cell_name p.1 p.2) (cell_name q.1 q.2))
  ↔ peers p q.
Proof.
  assert (Forall (fun p => Forall (fun q =>
            is_Some (constraint_of sudoku_graph (cell_name p.1 p.2)
                                   (cell_name q.1 q.2)) ↔ peers p q)
            sudoku_cells) sudoku_cells) as Hall.
  { apply (bool_decide_unpack _). vm_compute. exact I. }
  intros Hp Hq.
  apply (proj1 (Forall_forall _ _) Hall) in Hp.
  by apply (proj1 (Forall_forall _ _) Hp) in Hq.
Qed.

Lemma sudoku_graph_symmetric : symmetric sudoku_graph.
Proof.
  apply symmetric_by_arcs; [exact sudoku_graph_wf|].
  apply (bool_decide_unpack _). vm_compute. exact I.
Qed.

Lemma sudoku_graph_arcs_cells :
  Forall (fun k : arc => k.1 ∈ variables sudoku_graph ∧
                         k.2 ∈ variables sudoku_graph)
         (get_all_arcs sudoku_graph).
Proof. apply (bool_decide_unpack _). vm_compute. exact I. Qed.

Lemma sudoku_graph_arcs_length : length (get_all_arcs sudoku_graph) = 1620.
Proof. vm_compute. reflexivity. Qed.

Lemma sudoku_graph_registered :
  Forall (registered sudoku_graph) (variables sudoku_graph).
Proof. apply (bool_decide_unpack _). vm_compute. exact I. Qed.

Lemma sudoku_cells_elem row col :
  (row, col) ∈ sudoku_cells ↔ row < 9 ∧ col < 9.
Proof.
  unfold sudoku_cells, get_all_possible_pairs.
  rewrite list_elem_of_bind. split.
  - intros (r & Hc & Hr%elem_of_seq).
    apply list_elem_of_fmap in Hc as (c & [= -> ->] & Hc%elem_of_seq). lia.
  - intros [Hr Hc]. exists row. split; [|apply elem_of_seq; lia].
    apply list_elem_of_fmap. exists col. split; [done|]. apply elem_of_seq. lia.
Qed.

Lemma cell_name_inj p q :
  p ∈ sudoku_cells → q ∈ sudoku_cells →
  cell_name p.1 p.2 = cell_name q.1 q.2 → p = q.
Proof.
  assert (Forall (fun p => Forall (fun q : nat * nat =>
            cell_name p.1 p.2 ≠ cell_name q.1 q.2 ∨ p = q)
            sudoku_cells) sudoku_cells) as Hall.
  { apply (bool_decide_unpack _). vm_compute. exact I. }
  intros Hp Hq Heq.
  apply (proj1 (Forall_forall _ _) Hall) in Hp.
  apply (proj1 (Forall_forall _ _) Hp) in Hq. by destruct Hq.
Qed.

(** ** [create_sudoku_csp] *)

(** From here on the graph is used through the facts above. *)
Opaque sudoku_graph.

Section SudokuBuilder.
Implicit Types (board : list string) (csp : CSP string) (s : State string).

Lemma add_variable_run csp name domain s m :
  dicts s !! domains csp = Some m →
  ∃ s',
    add_variable csp name domain s = Ok (add_names csp [name], s') ∧
    dicts s' !! domains csp = Some (od_set m name (length (lists s))) ∧
    domain_of s' (domains csp) name = Some domain ∧
    (sound s (domains csp) →
     sound s' (domains csp) ∧
     ∀ v, v ≠ name →
          domain_of s' (domains csp) v = domain_of s (domains csp) v) ∧
    (sound s (domains csp) → separate s (domains csp) →
     separate s' (domains csp)).
Proof.
  intros Hm. unfold add_variable.
  set (s1 := with_lists s (lists s ++ [domain])).
  set (s2 := with_dicts s1 (<[domains csp := od_set m name (length (lists s))]>
                              (dicts s1))).
  exists s2.
  assert (dicts s2 !! domains csp = Some (od_set m name (length (lists s))))
    as Hd2.
  { simpl. apply list_lookup_insert_eq. by eapply lookup_lt_Some. }
  split_and!; try done.
  - rewrite (bind_eq _ _ s (length (lists s)) s1) by done.
    rewrite (bind_eq _ _ s1 tt s2); [done|].
    apply setitem_Ok. by exists m.
  - unfold domain_of. rewrite Hd2. simpl. rewrite od_get_set_eq. simpl.
    by rewrite lookup_app_r, Nat.sub_diag.
  - intros (m' & Hm' & Hall). simplify_eq. split.
    + exists (od_set m name (length (lists s))). split; [done|].
      apply Forall_forall. intros e [->|He]%od_set_elem; simpl;
        rewrite length_app; simpl; [lia|].
      apply (proj1 (Forall_forall _ _) Hall) in He. lia.
    + intros v Hne. unfold domain_of. rewrite Hd2, Hm. simpl.
      rewrite od_get_set_ne by done.
      destruct (od_get m v) as [l|] eqn:Hl; [|done]. simpl.
      apply lookup_app_l. apply od_get_Some_elem in Hl.
      by apply (proj1 (Forall_forall _ _) Hall) in Hl.
  - intros (m' & Hm' & Hall) (m'' & Hm'' & Hsep). simplify_eq.
    assert (∀ k l, od_get m k = Some l → l < length (lists s)) as Hlt.
    { intros k l Hl%od_get_Some_elem.
      by apply (proj1 (Forall_forall _ _) Hall) in Hl. }
    exists (od_set m name (length (lists s))). split; [done|].
    intros k1 k2 l.
    destruct (decide (name = k1)) as [<-|Hne1];
      destruct (decide (name = k2)) as [<-|Hne2]; try done.
    + rewrite od_get_set_eq, od_get_set_ne by done.
      intros [= <-] Hl%Hlt. lia.
    + rewrite od_get_set_eq, od_get_set_ne by done.
      intros Hl%Hlt [= <-]. lia.
    + rewrite !od_get_set_ne by done. apply Hsep.
Qed.

Lemma add_names_app {Val : Type} (c : CSP Val) name names :
  add_names (add_names c [name]) names = add_names c (name :: names).
Proof. unfold add_names. simpl. by rewrite <- app_assoc. Qed.

Lemma add_names_nil {Val : Type} (c : CSP Val) : add_names c [] = c.
Proof. destruct c. unfold add_names. simpl. by rewrite app_nil_r. Qed.

Lemma add_cells_run board cells : ∀ csp s m,
  dicts s !! domains csp = Some m →
  ∃ s',
    add_cells csp board cells s =
      Ok (if bool_decide
               (Forall (fun p : nat * nat => is_Some (board_cell board p.1 p.2))
                       cells)
          then Some (add_names csp
                       ((fun p : nat * nat => cell_name p.1 p.2) <$> cells))
          else None, s') ∧
    (sound s (domains csp) → separate s (domains csp) →
     NoDup ((fun p : nat * nat => cell_name p.1 p.2) <$> cells) →
     Forall (fun p : nat * nat => is_Some (board_cell board p.1 p.2)) cells →
     sound s' (domains csp) ∧ separate s' (domains csp) ∧
     (∀ p, p ∈ cells →
           domain_of s' (domains csp) (cell_name p.1 p.2)
           = Some (cell_domain board p)) ∧
     (∀ v, v ∉ (fun p : nat * nat => cell_name p.1 p.2) <$> cells →
           domain_of s' (domains csp) v = domain_of s (domains csp) v)).
Proof.
  induction cells as [|[row col] rest IH]; intros csp s m Hm.
  { exists s. cbn [add_cells]. rewrite bool_decide_eq_true_2 by constructor.
    csimpl. rewrite add_names_nil. split; [done|]. intros Hsound Hsep _ _.
    split_and!; try done. intros p Hp. by apply elem_of_nil in Hp. }
  cbn [add_cells]. destruct (board_cell board row col) as [ch|] eqn:Hch.
  2:{ exists s. rewrite bool_decide_eq_false_2.
      - split; [done|]. intros _ _ _ Hall.
        apply Forall_cons in Hall as [[? Hp] _]. simpl in Hp. congruence.
      - intros Hall. apply Forall_cons in Hall as [[? Hp] _].
        simpl in Hp. congruence. }
  set (dom := if decide (ch = "0") then sudoku_digits else [ch]).
  destruct (add_variable_run csp (cell_name row col) dom s m Hm)
    as (s1 & Hadd & Hd1 & Hdom1 & Hsound1 & Hsep1).
  rewrite (bind_eq _ _ _ _ _ Hadd).
  destruct (IH (add_names csp [cell_name row col]) s1 _ Hd1)
    as (s' & Hrest & Hfacts).
  exists s'. split.
  - rewrite Hrest. rewrite add_names_app. f_equal. f_equal.
    rewrite (bool_decide_ext _ (Forall (λ p : nat * nat,
               is_Some (board_cell board p.1 p.2)) ((row, col) :: rest)));
      [done|].
    rewrite Forall_cons. simpl. rewrite Hch. split; [by eauto | by intros [_ ?]].
  - intros Hsound Hsep Hnd Hall. csimpl in Hnd.
    apply NoDup_cons in Hnd as [Hfresh Hnd].
    apply Forall_cons in Hall as [_ Hall].
    destruct (Hsound1 Hsound) as [Hsound' Hother1].
    destruct (Hfacts Hsound' (Hsep1 Hsound Hsep) Hnd Hall)
      as (Hsound2 & Hsep2 & Hcells & Hother2).
    split_and!; try done.
    + intros p [->|Hp]%elem_of_cons; [|by apply Hcells].
      simpl. simpl in Hother2. rewrite (Hother2 _ Hfresh), Hdom1.
      unfold cell_domain. simpl. by rewrite Hch.
    + intros v Hv. csimpl in Hv. apply not_elem_of_cons in Hv as [Hne Hv].
      simpl in Hother2. rewrite (Hother2 _ Hv). by apply Hother1.
Qed.

Lemma sudoku_unconstrained_names d :
  add_names (mkCSP [] d [])
            ((fun p : nat * nat => cell_name p.1 p.2) <$> sudoku_cells)
  = with_domains d sudoku_unconstrained.
Proof.
  unfold add_names, with_domains, sudoku_unconstrained.
  cbn [variables domains constraints]. apply (f_equal (mkCSP _ d)).
  vm_compute. reflexivity.
Qed.

Lemma sudoku_names_NoDup :
  NoDup ((fun p : nat * nat => cell_name p.1 p.2) <$> sudoku_cells).
Proof. apply (bool_decide_unpack _). vm_compute. exact I. Qed.

Lemma complete_iff board :
  complete board ↔
  ∀ row col, row < 9 → col < 9 → is_Some (board_cell board row col).
Proof.
  unfold complete. rewrite Forall_forall. split.
  - intros Hall row col Hr Hc.
    apply (Hall (row, col)), sudoku_cells_elem. done.
  - intros Hall [row col] [Hr Hc]%sudoku_cells_elem. by apply Hall.
Qed.

(** The run of [create_sudoku_csp], step by step. *)
Lemma create_sudoku_csp_run board s :
  let d := length (dicts s) in
  ∃ s',
    create_sudoku_csp board s =
      Ok (if bool_decide (complete board)
          then Some (with_domains d sudoku_graph) else None, s') ∧
    (complete board →
     sound s' d ∧ separate s' d ∧
     (∀ p, p ∈ sudoku_cells →
           domain_of s' d (cell_name p.1 p.2) = Some (cell_domain board p)) ∧
     (∀ v, v ∉ (fun p : nat * nat => cell_name p.1 p.2) <$> sudoku_cells →
           domain_of s' d v = None)).
Proof.
  intros d. unfold create_sudoku_csp, new_csp.
  set (s0 := mkState (lists s) (dicts s ++ [[]]) 0 0).
  rewrite (bind_eq _ _ s (mkCSP [] d []) s0) by done.
  assert (dicts s0 !! d = Some []) as Hd0.
  { simpl. by rewrite lookup_app_r, Nat.sub_diag. }
  destruct (add_cells_run board sudoku_cells (mkCSP [] d []) s0 [] Hd0)
    as (s' & Hcells & Hfacts).
  rewrite (bind_eq _ _ _ _ _ Hcells). exists s'. fold (complete board).
  destruct (bool_decide (complete board)) eqn:Hcomplete.
  - apply bool_decide_eq_true in Hcomplete. split.
    + rewrite sudoku_unconstrained_names.
      rewrite add_all_different_constraints_with_domains, sudoku_graph_built.
      done.
    + intros _. simpl in Hfacts.
      destruct Hfacts as (Hsound & Hsep & Hdom & Hother);
        [by exists [] | exists []; by split | exact sudoku_names_NoDup | done |].
      split_and!; try done. intros v Hv. rewrite (Hother v Hv).
      unfold domain_of. by rewrite Hd0.
  - split; [done|]. intros Hc. by apply bool_decide_eq_false in Hcomplete.
Qed.

(** X20.  [create_sudoku_csp] on the stripped lines [board] of its file
    ends in one of two ways.  It raises [IndexError] (here: returns
    [None]) exactly when the board has no character for one of the 81
    cells: fewer than nine lines, or a line of fewer than nine
    characters.  Otherwise it returns a graph, and this graph has the
    same variables and constraints for every board; no [KeyError] comes
    out of the calls of [add_all_different_constraint]. *)
Theorem create_sudoku_csp_outcome board s :
  ∃ r s',
    create_sudoku_csp board s = Ok (r, s') ∧
    (r = None ↔
     ∃ row col, row < 9 ∧ col < 9 ∧ board_cell board row col = None) ∧
    (r ≠ None → r = Some (with_domains (length (dicts s)) sudoku_graph)).
Proof.
  destruct (create_sudoku_csp_run board s) as (s' & Hrun & _).
  eexists _, s'. split; [exact Hrun|].
  destruct (bool_decide (complete board)) eqn:Hcomplete.
  - apply bool_decide_eq_true in Hcomplete.
    pose proof (proj1 (complete_iff board) Hcomplete) as Hcells.
    split; [|done].
    split; [done|]. intros (row & col & Hr & Hc & Hnone).
    destruct (Hcells row col Hr Hc) as [ch Hch]. congruence.
  - apply bool_decide_eq_false in Hcomplete. split; [|done].
    split; [|done]. intros _.
    unfold complete in Hcomplete. apply not_Forall_Exists in Hcomplete; [|apply _].
    apply Exists_exists in Hcomplete as ([row col] & [Hr Hc]%sudoku_cells_elem & Hp).
    exists row, col. split_and!; [done..|]. simpl in Hp.
    destruct (board_cell board row col); [|done]. exfalso. by apply Hp.
Qed.

(** X21.  For a board that has a character for each of the 81 cells,
    the graph that [create_sudoku_csp] returns has the variables
    ["0-0"], ["0-1"], ... row by row; the domain of a cell is the list of
    the digits 1 to 9 when its character is ["0"] and the one-item list
    of its character otherwise; two cells have a constraint, the predicate
    [x != y], exactly when they are different cells of the same row,
    column or 3x3 box; constraints are only between cells and registered
    in both directions, 1620 arcs in all. *)
Theorem create_sudoku_csp_graph board s :
  complete board →
  ∃ csp s',
    create_sudoku_csp board s = Ok (Some csp, s') ∧
    variables csp = (fun p : nat * nat => cell_name p.1 p.2) <$> sudoku_cells ∧
    (∀ row col, row < 9 → col < 9 →
       domain_of s' (domains csp) (cell_name row col)
       = Some (cell_domain board (row, col))) ∧
    (∀ p q, p ∈ sudoku_cells → q ∈ sudoku_cells →
       constraint_of csp (cell_name p.1 p.2) (cell_name q.1 q.2)
       = if decide (peers p q) then Some not_equal else None) ∧
    (∀ i j, is_Some (constraint_of csp i j) →
            i ∈ variables csp ∧ j ∈ variables csp) ∧
    symmetric csp ∧
    length (get_all_arcs csp) = 1620.
Proof.
  intros Hcomplete.
  destruct (create_sudoku_csp_run board s) as (s' & Hrun & Hfacts).
  rewrite bool_decide_eq_true_2 in Hrun by done.
  destruct (Hfacts Hcomplete) as (_ & _ & Hdom & _).
  exists (with_domains (length (dicts s)) sudoku_graph), s'.
  split; [exact Hrun|].
  generalize (length (dicts s)) Hdom. clear. intros d Hdom.
  rewrite variables_with_domains, domains_with_domains.
  split_and!.
  - exact sudoku_graph_variables.
  - intros row col Hr Hc. apply (Hdom (row, col)), sudoku_cells_elem. done.
  - intros p q Hp Hq. rewrite constraint_of_with_domains.
    pose proof (sudoku_graph_peers p q Hp Hq) as Hiff.
    pose proof (sudoku_graph_not_equal (cell_name p.1 p.2) (cell_name q.1 q.2))
      as Hne.
    revert Hiff Hne.
    generalize (constraint_of sudoku_graph (cell_name p.1 p.2)
                              (cell_name q.1 q.2)).
    intros [f|] Hiff Hne.
    + rewrite decide_True by (apply Hiff; eauto). by rewrite (Hne f).
    + rewrite decide_False; [done|]. intros [? ?]%Hiff. done.
  - intros i j. rewrite constraint_of_with_domains. intros Hc.
    apply (get_all_arcs_elem _ _ _ sudoku_graph_wf) in Hc.
    by apply (proj1 (Forall_forall _ _) sudoku_graph_arcs_cells) in Hc.
  - apply symmetric_with_domains, sudoku_graph_symmetric.
  - rewrite get_all_arcs_with_domains. exact sudoku_graph_arcs_length.
Qed.

(** X22.  A Sudoku that has a solution gets an answer.  For a board with
    a character for every cell, if the cells can be given values from
    their domains such that peers have different values, then
    [backtracking_search] on the graph of [create_sudoku_csp] raises no
    exception and returns an assignment with exactly one value for every
    cell. *)
Theorem sudoku_search_succeeds board σ s :
  complete board →
  (∀ p, p ∈ sudoku_cells → σ (cell_name p.1 p.2) ∈ cell_domain board p) →
  (∀ p q, p ∈ sudoku_cells → q ∈ sudoku_cells → peers p q →
          σ (cell_name p.1 p.2) ≠ σ (cell_name q.1 q.2)) →
  ∃ csp s1 r s',
    create_sudoku_csp board s = Ok (Some csp, s1) ∧
    backtracking_search csp s1 = Ok (Some r, s') ∧
    Forall (fun v => ∃ x, domain_of s' r v = Some [x]) (variables csp).
Proof.
  intros Hcomplete Hin Hdiff.
  destruct (create_sudoku_csp_run board s) as (s1 & Hrun & Hfacts).
  rewrite bool_decide_eq_true_2 in Hrun by done.
  destruct (Hfacts Hcomplete) as (Hsound & Hsep & Hdom & Hother).
  revert Hrun Hsound Hsep Hdom Hother. generalize (length (dicts s)).
  intros d Hrun Hsound Hsep Hdom Hother.
  assert (∀ v, v ∈ variables sudoku_graph →
               ∃ p, p ∈ sudoku_cells ∧ v = cell_name p.1 p.2) as Hcell.
  { intros v. rewrite sudoku_graph_variables.
    intros (p & -> & Hp)%list_elem_of_fmap. by exists p. }
  assert (Forall (λ v, is_Some (domain_of s1 d v)) (variables sudoku_graph))
    as Hvars.
  { apply Forall_forall. intros v (p & Hp & ->)%Hcell.
    rewrite (Hdom p Hp). by eauto. }
  assert (∀ i j, is_Some (constraint_of sudoku_graph i j) →
                 ∃ p q, p ∈ sudoku_cells ∧ q ∈ sudoku_cells ∧
                        i = cell_name p.1 p.2 ∧ j = cell_name q.1 q.2)
    as Hends.
  { intros i j Hc.
    apply (get_all_arcs_elem _ _ _ sudoku_graph_wf) in Hc.
    apply (proj1 (Forall_forall _ _) sudoku_graph_arcs_cells) in Hc
      as [Hi Hj].
    cbn [fst snd] in Hi, Hj.
    destruct (Hcell _ Hi) as (p & Hp & ->).
    destruct (Hcell _ Hj) as (q & Hq & ->).
    by exists p, q. }
  destruct (backtracking_search_succeeds_aux (with_domains d sudoku_graph) σ s1)
    as (r & s' & Hsearch).
  - apply wf_constraints_with_domains, sudoku_graph_wf.
  - apply symmetric_with_domains, sudoku_graph_symmetric.
  - apply registered_with_domains, sudoku_graph_registered.
  - exact Hsound.
  - exact Hsep.
  - intros i j. rewrite constraint_of_with_domains, domains_with_domains.
    intros (p & q & Hp & Hq & -> & ->)%Hends.
    rewrite (Hdom p Hp), (Hdom q Hq). by eauto.
  - rewrite variables_with_domains, domains_with_domains. exact Hvars.
  - intros i j f. rewrite constraint_of_with_domains. intros Hf.
    rewrite (sudoku_graph_not_equal _ _ _ Hf).
    assert (is_Some (constraint_of sudoku_graph i j)) as Hc by eauto.
    destruct (Hends i j Hc) as (p & q & Hp & Hq & -> & ->).
    apply bool_decide_eq_true. apply Hdiff; [done..|].
    by apply sudoku_graph_peers.
  - rewrite domains_with_domains. intros v xs Hv.
    destruct (decide (v ∈ (λ p : nat * nat, cell_name p.1 p.2) <$> sudoku_cells))
      as [(p & -> & Hp)%list_elem_of_fmap|Hnot].
    + rewrite (Hdom p Hp) in Hv. injection Hv as <-. by apply Hin.
    + rewrite (Hother v Hnot) in Hv. done.
  - exists (with_domains d sudoku_graph), s1, r, s'.
    split; [exact Hrun|]. split; [exact Hsearch|].
    unfold backtracking_search in Hsearch.
    apply bind_Ok in Hsearch as (a & s2 & _ & Hb).
    apply bind_Ok in Hb as (ok & s3 & _ & Hb).
    unfold backtrack in Hb.
    exact (backtrack_rec_complete _ _ _ _ _ _ Hb).
Qed.
End SudokuBuilder.

Lemma complete_example_puzzle : complete example_puzzle.
Proof. apply (bool_decide_unpack _). vm_compute. exact I. Qed.

Lemma create_sudoku_csp_graph_witness :
  complete example_puzzle ∧
  ∃ csp s',
    create_sudoku_csp example_puzzle (mkState [] [] 0 0) = Ok (Some csp, s') ∧
    variables csp = (fun p : nat * nat => cell_name p.1 p.2) <$> sudoku_cells ∧
    (∀ row col, row < 9 → col < 9 →
       domain_of s' (domains csp) (cell_name row col)
       = Some (cell_domain example_puzzle (row, col))) ∧
    (∀ p q, p ∈ sudoku_cells → q ∈ sudoku_cells →
       constraint_of csp (cell_name p.1 p.2) (cell_name q.1 q.2)
       = if decide (peers p q) then Some not_equal else None) ∧
    (∀ i j, is_Some (constraint_of csp i j) →
            i ∈ variables csp ∧ j ∈ variables csp) ∧
    symmetric csp ∧
    length (get_all_arcs csp) = 1620.
Proof.
  split; [exact complete_example_puzzle|].
  exact (create_sudoku_csp_graph example_puzzle (mkState [] [] 0 0)
           complete_example_puzzle).
Defined.

Lemma example_solved_within p :
  p ∈ sudoku_cells →
  board_values example_solved (cell_name p.1 p.2) ∈ cell_domain example_puzzle p.
Proof.
  assert (Forall (fun p : nat * nat =>
            board_values example_solved (cell_name p.1 p.2)
            ∈ cell_domain example_puzzle p) sudoku_cells) as Hall.
  { apply (bool_decide_unpack _). vm_compute. exact I. }
  intros Hp. by apply (proj1 (Forall_forall _ _) Hall) in Hp.
Qed.

Lemma example_solved_peers p q :
  p ∈ sudoku_cells → q ∈ sudoku_cells → peers p q →
  board_values example_solved (cell_name p.1 p.2)
  ≠ board_values example_solved (cell_name q.1 q.2).
Proof.
  assert (Forall (fun p : nat * nat => Forall (fun q : nat * nat =>
            ¬ peers p q ∨
            board_values example_solved (cell_name p.1 p.2)
            ≠ board_values example_solved (cell_name q.1 q.2))
            sudoku_cells) sudoku_cells) as Hall.
  { apply (bool_decide_unpack _). vm_compute. exact I. }
  intros Hp Hq Hpeers.
  apply (proj1 (Forall_forall _ _) Hall) in Hp.
  apply (proj1 (Forall_forall _ _) Hp) in Hq. by destruct Hq.
Qed.

Lemma sudoku_search_succeeds_witness :
  complete example_puzzle ∧
  ∃ csp s1 r s',
    create_sudoku_csp example_puzzle (mkState [] [] 0 0) = Ok (Some csp, s1) ∧
    backtracking_search csp s1 = Ok (Some r, s') ∧
    Forall (fun v => ∃ x, domain_of s' r v = Some [x]) (variables csp).
Proof.
  split; [exact complete_example_puzzle|].
  exact (sudoku_search_succeeds example_puzzle (board_values example_solved)
           (mkState [] [] 0 0) complete_example_puzzle example_solved_within
           example_solved_peers).
Defined.

(** ** The order of [get_all_possible_pairs] *)

Lemma get_all_possible_pairs_cons {A B} (x : A) (a : list A) (b : list B) :
  get_all_possible_pairs (x :: a) b
  = ((x,.) <$> b) ++ get_all_possible_pairs a b.
Proof. done. Qed.

(** X23.  [get_all_possible_pairs(a, b)] yields [len(a) * len(b)]
    pairs in the order of [itertools.product]: all pairs of the first
    item of [a] first, each block in the order of [b]; the pair of the
    items at the indices [i] and [j] is at the index [i * len(b) + j]. *)
Theorem get_all_possible_pairs_order {A B} (a : list A) (b : list B) i j x y :
  a !! i = Some x → b !! j = Some y →
  get_all_possible_pairs a b !! (i * length b + j) = Some (x, y) ∧
  length (get_all_possible_pairs a b) = length a * length b.
Proof.
  intros Hx Hy. split.
  - revert i Hx. induction a as [|z a IH]; intros i Hx; [done|].
    rewrite get_all_possible_pairs_cons. destruct i as [|i]; simpl in Hx.
    + injection Hx as ->. rewrite lookup_app_l.
      * rewrite list_lookup_fmap. simpl. by rewrite Hy.
      * rewrite length_fmap. simpl. by eapply lookup_lt_Some.
    + rewrite lookup_app_r by (rewrite length_fmap; simpl; lia).
      rewrite length_fmap.
      replace (S i * length b + j - length b) with (i * length b + j)
        by (simpl; lia).
      by apply IH.
  - clear. induction a as [|z a IH]; [done|].
    rewrite get_all_possible_pairs_cons, length_app, length_fmap, IH.
    simpl. lia.
Qed.

Lemma get_all_possible_pairs_order_witness :
  get_all_possible_pairs ["A"; "B"; "C"] [1; 2] !! (2 * 2 + 1) = Some ("C", 2) ∧
  length (get_all_possible_pairs ["A"; "B"; "C"] [1; 2]) = 3 * 2.
Proof.
  apply (get_all_possible_pairs_order ["A"; "B"; "C"] [1; 2] 2 1 "C" 2);
    reflexivity.
Defined.
